(** * Experience demultiplexing in the MARL-mpr collectors

    A shallow embedding of the two collection loops of the repository,

    - [graph_env/env/utils/collectors/multi_agent_collector.py]
      ([MultiAgentCollector.collect]) and
    - [graph_env/env/utils/collectors/collective_experience_collector.py]
      ([CollectiveExperienceCollector.collect]),

    and of what surrounds them in the two classes ([_assign_buffer],
    [reset], [_add_extra_info], the fusion of the logger statistics),
    followed by the properties of the specification that concern them and
    by further properties of the same code.

    Python dictionaries are finite maps ([gmap]), Python lists and numpy
    arrays are lists, a raised exception is the [Raise] branch of [result].
    The policy, the vectorised environment and the replay buffer are
    external: the environment (together with the action the policy chose) is
    an oracle giving, for every tick and every global environment id, the
    outcome of [env.step]; of the buffer only the length of the arrays that
    [buffer.add] returns matters to the control flow. *)

From stdpp Require Import gmap list sorting strings.
From Stdlib Require Import ZArith Lia.

Local Open Scope Z_scope.
Local Open Scope nat_scope.

(** ** Exceptions and the error monad *)

Inductive exn : Set :=
| AssertionError
| TypeError
| KeyError
| IndexError
| UnboundLocalError
| ZeroDivisionError.

Inductive result (A : Type) : Type :=
| Ok (a : A)
| Raise (e : exn).
Arguments Ok {A} a.
Arguments Raise {A} e.

#[global] Instance result_ret : MRet result := fun _ a => Ok a.
#[global] Instance result_bind : MBind result := fun _ _ f m =>
  match m with
  | Ok a => f a
  | Raise e => Raise e
  end.

Definition is_ok {A} (r : result A) : bool :=
  match r with Ok _ => true | Raise _ => false end.

(** [py_assert c] is Python's [assert c]. *)
Definition py_assert (c : bool) : result unit :=
  if c then Ok tt else Raise AssertionError.

(** ** Rows of the rollout batch

    [agent_id] is the integer that both collectors extract from the agent's
    name ([int("".join(c for c in name if c.isdigit()))]); [features] stands
    for the rest of the observation. *)

Record Obs : Set := mkObs { agent_id : nat; features : nat }.

(** The [info] dictionary of one lane: [env_id], the two optional flags (read
    with [.get(key, False)], so an absent key is [false]) and the [indices]
    entry that the collective collector adds when it flushes a joint round
    ([[]] while absent). *)
Record Info : Set := mkInfo {
  env_id : nat;
  environment_step : bool;
  explicit_reset : bool;
  indices : list Z
}.

(** One row [self.data[[env_idx]]]. *)
Record Transition : Set := mkTransition {
  obs : Obs;
  act : nat;
  rew : Z;
  obs_next : Obs;
  terminated : bool;
  truncated : bool;
  done : bool;
  info : Info
}.

(** What [env.step] returns for one lane on one tick, together with the
    action the policy chose for it and the observation a reset of that
    environment would produce on this tick. *)
Record StepOut : Set := mkStepOut {
  so_act : nat;
  so_obs_next : Obs;
  so_rew : Z;
  so_terminated : bool;
  so_truncated : bool;
  so_info : Info;
  so_reset_obs : Obs
}.

(** [self.data.update(obs_next=..., rew=..., terminated=..., truncated=...,
    done=np.logical_or(terminated, truncated), info=...)] on one lane. *)
Definition make_row (o : Obs) (s : StepOut) : Transition :=
  {| obs := o; act := so_act s; rew := so_rew s; obs_next := so_obs_next s;
     terminated := so_terminated s; truncated := so_truncated s;
     done := so_terminated s || so_truncated s; info := so_info s |}.

(** The six assignments that complete a pending record [p] with the outcome
    fields of the current row (multi_agent_collector.py 244-249,
    collective_experience_collector.py 271-276). *)
Definition complete (p row : Transition) : Transition :=
  {| obs := obs p; act := act p; rew := rew row; obs_next := obs_next row;
     terminated := terminated row; truncated := truncated row;
     done := done row; info := info row |}.

(** [env_id * self.agents_num + agent_id]. *)
Definition resolve (agents_num env agent : nat) : nat :=
  env * agents_num + agent.

(** [self.done_agents_per_env[env_id]]: a [KeyError] when the key is absent. *)
Definition getitem {V} (m : gmap nat V) (k : nat) : result V :=
  match m !! k with
  | Some v => Ok v
  | None => Raise KeyError
  end.

(** ** State and steps common to the two collectors

    Both classes keep the pending-transition store [self.temp_data] and the
    completion tracker [self.done_agents_per_env], and the text of the last
    two steps of their lane loops is the same
    (multi_agent_collector.py 261-268,
    collective_experience_collector.py 301-309). *)

Record Store : Type := mkStore {
  agents_num : nat;
  temp_data : gmap nat Transition;
  done_agents_per_env : gmap nat (list nat)
}.

Definition set_temp_data (f : gmap nat Transition → gmap nat Transition)
    (s : Store) : Store :=
  mkStore (agents_num s) (f (temp_data s)) (done_agents_per_env s).

Definition set_done_agents (f : gmap nat (list nat) → gmap nat (list nat))
    (s : Store) : Store :=
  mkStore (agents_num s) (temp_data s) (f (done_agents_per_env s)).

(** [len(batch)] for a [Batch] of [n] rows: the empty [Batch()] has no
    length, and asking for it raises [TypeError] (tianshou 1.0.0, the
    release whose [Collector] interface both classes extend). *)
Definition batch_len (n : nat) : result nat :=
  if n =? 0 then Raise TypeError else Ok n.

(** [if done[env_idx]: self.done_agents_per_env[env_id].append(next_buffer_id);
    if len(...) == self.agents_num or info[env_idx].get("explicit_reset", False):
    done_envs.append((env_idx, env_id, len(experience_to_save) - 1))].
    [exp_len] is the number of rows of [experience_to_save] at that moment;
    its length is only asked for when the event is recorded. *)
Definition mark_done (env_idx env next_buffer_id : nat) (row : Transition)
    (exp_len : nat) (st : Store * list (nat * nat * Z))
    : result (Store * list (nat * nat * Z)) :=
  if done row then
    l ← getitem (done_agents_per_env st.1) env;
    let l' := l ++ [next_buffer_id] in
    let s' := set_done_agents (<[env := l']>) st.1 in
    if (length l' =? agents_num s') || explicit_reset (info row)
    then
      n ← batch_len exp_len;
      Ok (s', st.2 ++ [(env_idx, env, (Z.of_nat n - 1)%Z)])
    else Ok (s', st.2)
  else Ok st.

(** The condition [buffer_id != next_buffer_id and not
    len(self.done_agents_per_env[env_id]) == self.agents_num and not
    buffer_id in self.done_agents_per_env[env_id]]; [and] short-circuits, so
    the tracker is only read when the two slots differ. *)
Definition must_wait (buffer_id next_buffer_id env : nat) (s : Store)
    : result bool :=
  if decide (buffer_id = next_buffer_id) then Ok false
  else
    l ← getitem (done_agents_per_env s) env;
    Ok (negb (length l =? agents_num s) && negb (bool_decide (buffer_id ∈ l))).

(** [self.temp_data[buffer_id] = copy.deepcopy(self.data[[env_idx]])] under
    that condition: a plain dictionary assignment. *)
Definition store_pending (buffer_id next_buffer_id env : nat)
    (row : Transition) (s : Store) : result Store :=
  w ← must_wait buffer_id next_buffer_id env s;
  if (w : bool)
  then Ok (set_temp_data (<[buffer_id := row]>) s)
  else Ok s.

(** Indices of the first components of [done_envs]. *)
Definition local_of (d : nat * nat * Z) : nat := d.1.1.
Definition global_of (d : nat * nat * Z) : nat := d.1.2.
Definition exp_index_of (d : nat * nat * Z) : Z := d.2.

(** ** MultiAgentCollector *)

Module MultiAgent.

(** The three locals that are rebuilt on every tick (lines 237-239). *)
Record Tick : Type := mkTick {
  experience_to_save : list Transition;
  buffer_ids_to_save : list nat;
  done_envs : list (nat * nat * Z)
}.

Definition empty_tick : Tick := mkTick [] [] [].

(** [experience_to_save = Batch.cat([experience_to_save, x]);
    buffer_ids_to_save.append(b)]. *)
Definition save (x : Transition) (b : nat) (t : Tick) : Tick :=
  mkTick (experience_to_save t ++ [x]) (buffer_ids_to_save t ++ [b])
         (done_envs t).

(** Lines 242-253. *)
Definition resolve_pending (next_buffer_id : nat) (row : Transition)
    (st : Store * Tick) : Store * Tick :=
  match temp_data st.1 !! next_buffer_id with
  | Some p =>
      (set_temp_data (delete next_buffer_id) st.1,
       save (complete p row) next_buffer_id st.2)
  | None => st
  end.

(** Lines 256-258. *)
Definition save_direct (buffer_id next_buffer_id : nat) (row : Transition)
    (st : Store * Tick) : Store * Tick :=
  if decide (buffer_id = next_buffer_id)
  then (st.1, save row buffer_id st.2)
  else st.

(** The body of the [for] loop of lines 240-268 for one lane. *)
Definition process_lane (env_idx : nat) (row : Transition)
    (st : Store * Tick) : result (Store * Tick) :=
  let env := env_id (info row) in
  let buffer_id := resolve (agents_num st.1) env (agent_id (obs row)) in
  let next_buffer_id :=
    resolve (agents_num st.1) env (agent_id (obs_next row)) in
  let st1 := resolve_pending next_buffer_id row st in
  let st2 := save_direct buffer_id next_buffer_id row st1 in
  '(s3, d3) ← mark_done env_idx env next_buffer_id row
                (length (experience_to_save st2.2)) (st2.1, done_envs st2.2);
  s4 ← store_pending buffer_id next_buffer_id env row s3;
  Ok (s4, mkTick (experience_to_save st2.2) (buffer_ids_to_save st2.2) d3).

(** The [for] loop over [enumerate(self.data.info.env_id)]. *)
Fixpoint process_lanes (env_idx : nat) (rows : list Transition)
    (st : Store * Tick) : result (Store * Tick) :=
  match rows with
  | [] => Ok st
  | row :: rows' =>
      st' ← process_lane env_idx row st;
      process_lanes (S env_idx) rows' st'
  end.

(** Lines 287-288: the tracker of every finished environment is emptied. *)
Definition reset_done_envs (env_ind_global : list nat) (s : Store) : Store :=
  foldl (fun s e => set_done_agents (<[e := []]>) s) s env_ind_global.

End MultiAgent.

(** ** CollectiveExperienceCollector *)

Module Collective.

(** [self.temp_data], [self.done_agents_per_env] and the entries of
    [self.temp_buffer_data] that [collect] uses; [ids_to_save] is
    [self.temp_buffer_data['buffer_ids_to_save']]. *)
Record Self : Type := mkSelf {
  store : Store;
  ready : gmap nat (list Z);
  filling : gmap nat (list Z);
  exps_to_save : gmap nat (list Transition);
  ids_to_save : gmap nat (list nat)
}.

(** One execution of lines 293-299: the environment, its [ready] array at
    the comparison and the slot ids handed over.  [rounds] below is a log
    kept for the statements only; nothing reads it. *)
Record Round : Type := mkRound {
  round_env : nat;
  round_ready : list Z;
  round_ids : list nat
}.

(** The locals of [collect] that the lane loop updates: the three lists
    rebuilt on every tick (lines 248-250) and the running [step_count]. *)
Record Tick : Type := mkTick {
  experience_to_save : list Transition;
  buffer_ids_to_save : list nat;
  done_envs : list (nat * nat * Z);
  step_count : nat;
  rounds : list Round
}.

Definition empty_tick (steps : nat) : Tick := mkTick [] [] [] steps [].

(** [np.full(self.agents_num, -1, dtype=np.int64)]. *)
Definition empty_array (n : nat) : list Z := replicate n (-1)%Z.

(** [arr[arr != -1]]. *)
Definition valid (arr : list Z) : list Z :=
  filter (fun x => x ≠ (-1)%Z) arr.

(** Python's [sorted] on integers. *)
Definition sorted (l : list Z) : list Z := merge_sort Z.le l.

Definition set_store (f : Store → Store) (s : Self) : Self :=
  mkSelf (f (store s)) (ready s) (filling s) (exps_to_save s) (ids_to_save s).
Definition set_ready (f : gmap nat (list Z) → gmap nat (list Z)) (s : Self)
    : Self :=
  mkSelf (store s) (f (ready s)) (filling s) (exps_to_save s) (ids_to_save s).
Definition set_filling (f : gmap nat (list Z) → gmap nat (list Z)) (s : Self)
    : Self :=
  mkSelf (store s) (ready s) (f (filling s)) (exps_to_save s) (ids_to_save s).
Definition set_exps (f : gmap nat (list Transition) → gmap nat (list Transition))
    (s : Self) : Self :=
  mkSelf (store s) (ready s) (filling s) (f (exps_to_save s)) (ids_to_save s).
Definition set_ids (f : gmap nat (list nat) → gmap nat (list nat)) (s : Self)
    : Self :=
  mkSelf (store s) (ready s) (filling s) (exps_to_save s) (f (ids_to_save s)).

(** [arr[i]] on a numpy array with a non-negative index. *)
Definition array_get (arr : list Z) (i : nat) : result Z :=
  match arr !! i with
  | Some x => Ok x
  | None => Raise IndexError
  end.

(** Lines 259-261: the assertion on the acting agent's [filling] entry and
    the write that follows it. *)
Definition mark_filling (env agent buffer_id : nat) (s : Self) : result Self :=
  arr ← getitem (filling s) env;
  x ← array_get arr agent;
  _ ← py_assert (bool_decide (x = (-1)%Z));
  l ← getitem (done_agents_per_env (store s)) env;
  let v := if bool_decide (buffer_id ∈ l) then (-1)%Z else Z.of_nat buffer_id in
  Ok (set_filling (<[env := <[agent := v]> arr]>) s).

(** Lines 264-266: [filling] becomes [ready] when the environment signals a
    step or an explicit reset and some entry of [filling] is set. *)
Definition snapshot (env : nat) (row : Transition) (s : Self) : result Self :=
  if environment_step (info row) || explicit_reset (info row) then
    arr ← getitem (filling s) env;
    if 0 <? length (valid arr)
    then Ok (set_filling (<[env := empty_array (agents_num (store s))]>)
               (set_ready (<[env := arr]>) s))
    else Ok s
  else Ok s.

(** [exps_to_save[env_id] = Batch.cat([exps_to_save[env_id], x]); assert b not
    in buffer_ids_to_save[env_id]; buffer_ids_to_save[env_id].append(b)]. *)
Definition accumulate (env : nat) (x : Transition) (b : nat) (s : Self)
    : result Self :=
  exps ← getitem (exps_to_save s) env;
  ids ← getitem (ids_to_save s) env;
  _ ← py_assert (negb (bool_decide (b ∈ ids)));
  Ok (set_ids (<[env := ids ++ [b]]>) (set_exps (<[env := exps ++ [x]]>) s)).

(** Lines 269-281. *)
Definition resolve_pending (env next_buffer_id : nat) (row : Transition)
    (s : Self) : result Self :=
  match temp_data (store s) !! next_buffer_id with
  | Some p =>
      s' ← accumulate env (complete p row) next_buffer_id s;
      Ok (set_store (set_temp_data (delete next_buffer_id)) s')
  | None => Ok s
  end.

(** Lines 284-289: the row is put into [temp_data], accumulated and popped
    again. *)
Definition save_direct (env buffer_id next_buffer_id : nat) (row : Transition)
    (s : Self) : result Self :=
  if decide (buffer_id = next_buffer_id) then
    let s1 := set_store (set_temp_data (<[buffer_id := row]>)) s in
    s2 ← accumulate env row buffer_id s1;
    Ok (set_store (set_temp_data (delete buffer_id)) s2)
  else Ok s.

(** [_add_extra_info(env_id)] with the default [resync_rews=False], the only
    way [collect] calls it: every accumulated transition gets, as
    [info.indices], the buffer position of each slot of [ready] ([-1] for an
    empty entry).  [pos b] is
    [self.buffer.buffers[b]._index + self.buffer._offset[b]]. *)
Definition set_indices (ix : list Z) (x : Transition) : Transition :=
  {| obs := obs x; act := act x; rew := rew x; obs_next := obs_next x;
     terminated := terminated x; truncated := truncated x; done := done x;
     info := {| env_id := env_id (info x);
                environment_step := environment_step (info x);
                explicit_reset := explicit_reset (info x);
                indices := ix |} |}.

Definition _add_extra_info (pos : nat → Z) (buffer_ids : list Z)
    (exps : list Transition) : list Transition :=
  let ix := (fun b : Z => if decide (b ≠ (-1)%Z) then pos (Z.to_nat b)
                          else (-1)%Z) <$> buffer_ids in
  set_indices ix <$> exps.

(** Lines 291-299: the joint round of [env] is handed over when the sorted
    accumulated slot ids equal the sorted non-empty [ready] set. *)
Definition flush_round (pos : nat → Z) (env : nat) (st : Self * Tick)
    : result (Self * Tick) :=
  r ← getitem (ready st.1) env;
  let sorted_buffer_ids_per_env := sorted (valid r) in
  if 0 <? length sorted_buffer_ids_per_env then
    ids ← getitem (ids_to_save st.1) env;
    if decide (sorted_buffer_ids_per_env = sorted (Z.of_nat <$> ids)) then
      exps ← getitem (exps_to_save st.1) env;
      let t := st.2 in
      Ok (set_ready (<[env := empty_array (agents_num (store st.1))]>)
            (set_ids (<[env := []]>) (set_exps (<[env := []]>) st.1)),
          mkTick (experience_to_save t ++ _add_extra_info pos r exps)
                 (buffer_ids_to_save t ++ ids)
                 (done_envs t)
                 (step_count t + 1)
                 (rounds t ++ [mkRound env r ids]))
    else Ok st
  else Ok st.

(** The body of the [for] loop of lines 251-309 for one lane. *)
Definition process_lane (pos : nat → Z) (env_idx : nat) (row : Transition)
    (st : Self * Tick) : result (Self * Tick) :=
  let env := env_id (info row) in
  let n := agents_num (store st.1) in
  let buffer_id := resolve n env (agent_id (obs row)) in
  let next_buffer_id := resolve n env (agent_id (obs_next row)) in
  s1 ← mark_filling env (agent_id (obs row)) buffer_id st.1;
  s2 ← snapshot env row s1;
  s3 ← resolve_pending env next_buffer_id row s2;
  s4 ← save_direct env buffer_id next_buffer_id row s3;
  '(s5, t5) ← flush_round pos env (s4, st.2);
  '(b6, d6) ← mark_done env_idx env next_buffer_id row
                (length (experience_to_save t5)) (store s5, done_envs t5);
  b7 ← store_pending buffer_id next_buffer_id env row b6;
  Ok (set_store (fun _ => b7) s5,
      mkTick (experience_to_save t5) (buffer_ids_to_save t5) d6
             (step_count t5) (rounds t5)).

(** The [for] loop over [enumerate(self.data)]. *)
Fixpoint process_lanes (pos : nat → Z) (env_idx : nat)
    (rows : list Transition) (st : Self * Tick) : result (Self * Tick) :=
  match rows with
  | [] => Ok st
  | row :: rows' =>
      st' ← process_lane pos env_idx row st;
      process_lanes pos (S env_idx) rows' st'
  end.

(** Lines 332-335: the tracker and the two turn-state arrays of every
    finished environment are emptied. *)
Definition reset_env (s : Self) (e : nat) : Self :=
  set_filling (<[e := empty_array (agents_num (store s))]>)
    (set_ready (<[e := empty_array (agents_num (store s))]>)
       (set_store (set_done_agents (<[e := []]>)) s)).

Definition reset_done_envs (env_ind_global : list nat) (s : Self) : Self :=
  foldl reset_env s env_ind_global.

(** [reset]: what [self.temp_data], [self.done_agents_per_env] and
    [self.temp_buffer_data] hold after the collector is reset. *)
Definition fresh (agents env_num : nat) : Self :=
  let per_env {V} (v : V) : gmap nat V :=
    list_to_map ((fun i => (i, v)) <$> seq 0 env_num) in
  mkSelf (mkStore agents ∅ (per_env []))
         (per_env (empty_array agents)) (per_env (empty_array agents))
         (per_env []) (per_env []).

End Collective.

(** ** The collection loop

    Outside the lane loop and the handling of finished environments the two
    [collect] methods have the same text (lines 119-236 and 270-308 of
    multi_agent_collector.py, lines 135-250 and 311-356 of
    collective_experience_collector.py), so the loop is written once over
    what differs. *)

Record Variant : Type := mkVariant {
  vSelf : Type;
  vTick : Type;
  (** the lane loop of tick [tick] on the rows of [self.data], started with
      the current [step_count] *)
  v_lanes : nat → list Transition → vSelf → nat → result (vSelf * vTick);
  v_experience : vTick → list Transition;
  v_buffer_ids : vTick → list nat;
  v_done_envs : vTick → list (nat * nat * Z);
  (** [step_count] after the [buffer.add] block *)
  v_step_count : nat → vTick → nat;
  (** [env_ind_local] as used by the reset and the trimming *)
  v_local : list nat → list nat;
  (** the per-environment structures reset for [env_ind_global] *)
  v_reset : list nat → vSelf → vSelf
}.

(** [arr[mask]] for [mask = ones; mask[idxs] = False]: the entries whose
    position is not listed.  The positions are lane positions of the batch,
    hence in range. *)
Definition mask_out {A} (idxs : list nat) (l : list A) : list A :=
  (fun p => p.2) <$> filter (fun p : nat * A => p.1 ∉ idxs) (imap pair l).

(** Python truthiness of an [int | None] argument ([if n_episode:]). *)
Definition truthy (n : option Z) : bool :=
  match n with
  | Some z => negb (z =? 0)%Z
  | None => false
  end.

(** [n and count >= n]. *)
Definition reached (n : option Z) (count : nat) : bool :=
  match n with
  | Some z => negb (z =? 0)%Z && (z <=? Z.of_nat count)%Z
  | None => false
  end.

(** [a[i]] for an array of length [n] and a possibly negative index. *)
Definition index_ok (n : nat) (i : Z) : bool :=
  ((- Z.of_nat n <=? i) && (i <? Z.of_nat n))%Z.

Section Driver.

Variable V : Variant.

(** [env tick g] is what [env.step] returns on tick [tick] for the
    environment with global id [g]. *)
Variable env : nat → nat → StepOut.

(** The state of one [collect] call between two iterations of [while True].
    [last_add] is the length of [ep_len] (and [ep_rew], [ep_idx]), [None]
    while the local is unbound. *)
Record Loop : Type := mkLoop {
  self : vSelf V;
  data_obs : list Obs;
  ready_env_ids : list nat;
  step_count : nat;
  episode_count : nat;
  last_add : option nat
}.

(** What one iteration did. *)
Record IterLog : Type := mkIterLog {
  lg_rows : list Transition;
  lg_tick : vTick V;
  lg_steps_before : nat;
  lg_steps_after : nat;
  lg_episodes_before : nat;
  lg_ready_before : list nat;
  lg_local : list nat;
  lg_surplus : option Z;
  lg_ready_after : list nat
}.

(** Lines 119-140 (135-156): the targets are checked before anything else.
    The result is [ready_env_ids], the retained rows of [self.data] and
    whether the warning was emitted. *)
Definition check_targets (is_async : bool) (env_num : nat)
    (n_step n_episode : option Z) (data : list Obs)
    : result (list nat * list Obs * bool) :=
  _ ← py_assert (negb is_async);
  match n_step with
  | Some n =>
      _ ← py_assert (bool_decide (n_episode = None));
      _ ← py_assert (0 <? n)%Z;
      if env_num =? 0 then Raise ZeroDivisionError
      else Ok (seq 0 env_num, data,
               negb (n mod Z.of_nat env_num =? 0)%Z)
  | None =>
      match n_episode with
      | Some n =>
          _ ← py_assert (0 <? n)%Z;
          let k := Z.to_nat (Z.min (Z.of_nat env_num) n) in
          Ok (seq 0 k, take k data, false)
      | None => Raise TypeError
      end
  end.

(** Modelled from the spec: [_reset_env_with_ids] belongs to the parent class
    [SingleAgentCollector], whose module is not among the sources; following
    the environment contract of the specification ([reset_lanes(local_indices,
    global_env_ids, options)]) it resets the listed environments and writes
    each reset observation into [obs_next] at the matching local lane. *)
Definition _reset_env_with_ids (tick : nat) (local_ids global_ids : list nat)
    (obs_next : list Obs) : list Obs :=
  foldl (fun acc p => <[p.1 := so_reset_obs (env tick p.2)]> acc) obs_next
        (zip local_ids global_ids).

(** Lines 283-285 (327-329): [ep_len[env_ind_experience_to_save]] and its two
    siblings read the arrays of the latest [buffer.add]. *)
Definition read_episode_stats (last : option nat) (idxs : list Z)
    : result unit :=
  match last with
  | None => Raise UnboundLocalError
  | Some n => if forallb (index_ok n) idxs then Ok tt else Raise IndexError
  end.

(** One iteration of [while True] from the environment step on: lines
    192-308 (208-356).  The boolean is the [break] test.  The calls that
    leave the collector (the policy, [env.step], [buffer.add] of tianshou's
    buffer manager) are taken to return: [buffer.add] in particular is
    modelled as accepting the slot ids it is given, which it does when they
    are below its number of sub-buffers; only the length of the arrays it
    returns is kept. *)
Definition iterate (n_step n_episode : option Z) (tick : nat) (L : Loop)
    : result (Loop * IterLog * bool) :=
  let rows := zip_with make_row (data_obs L) (env tick <$> ready_env_ids L) in
  '(s1, t) ← v_lanes V tick rows (self L) (step_count L);
  let ids := v_buffer_ids V t in
  let last := if 0 <? length ids then Some (length ids) else last_add L in
  let steps := v_step_count V (step_count L) t in
  let d := v_done_envs V t in
  let obs_next0 := obs_next <$> rows in
  if 0 <? length d then
    let env_ind_local := v_local V (local_of <$> d) in
    let env_ind_global := global_of <$> d in
    let episodes := episode_count L + length d in
    _ ← read_episode_stats last (exp_index_of <$> d);
    let s2 := v_reset V env_ind_global s1 in
    let obs_next1 :=
      _reset_env_with_ids tick env_ind_local env_ind_global obs_next0 in
    let surplus :=
      match n_episode with
      | Some n =>
          if truthy n_episode
          then Some (Z.of_nat (length (ready_env_ids L))
                     - (n - Z.of_nat episodes))%Z
          else None
      | None => None
      end in
    let removed :=
      match surplus with
      | Some z => if (0 <? z)%Z then take (Z.to_nat z) env_ind_local else []
      | None => []
      end in
    let ready' := mask_out removed (ready_env_ids L) in
    Ok (mkLoop s2 (mask_out removed obs_next1) ready' steps episodes last,
        mkIterLog rows t (step_count L) steps (episode_count L)
                  (ready_env_ids L) env_ind_local surplus ready',
        reached n_step steps || reached n_episode episodes)
  else
    Ok (mkLoop s1 obs_next0 (ready_env_ids L) steps (episode_count L) last,
        mkIterLog rows t (step_count L) steps (episode_count L)
                  (ready_env_ids L) [] None (ready_env_ids L),
        reached n_step steps || reached n_episode (episode_count L)).

(** How a [collect] call ends: it returns, it raises, or the model runs out
    of fuel while the loop is still going. *)
Inductive outcome : Type :=
| Returned (L : Loop)
| Raised (e : exn)
| OutOfFuel (L : Loop).

(** [env_steps] counts the calls of [env.step] (one policy query precedes
    each), [warned] records the [warnings.warn] of line 127 (143), [log] has
    one entry per completed iteration. *)
Record Run : Type := mkRun {
  run_outcome : outcome;
  env_steps : nat;
  warned : bool;
  log : list IterLog
}.

(** The [while True] loop, line 150 (166) onwards. *)
Fixpoint collect_loop (n_step n_episode : option Z) (fuel tick : nat)
    (L : Loop) : Run :=
  match fuel with
  | 0 => mkRun (OutOfFuel L) 0 false []
  | S fuel' =>
      if negb (length (data_obs L) =? length (ready_env_ids L))
      then mkRun (Raised AssertionError) 0 false []
      else
        match iterate n_step n_episode tick L with
        | Raise e => mkRun (Raised e) 1 false []
        | Ok (L', lg, brk) =>
            if (brk : bool) then mkRun (Returned L') 1 false [lg]
            else
              let r := collect_loop n_step n_episode fuel' (S tick) L' in
              mkRun (run_outcome r) (S (env_steps r)) false (lg :: log r)
        end
  end.

(** [collect(n_step, n_episode)] on a collector whose environment has
    [env_num] lanes and whose batch holds the observations [data]. *)
Definition collect (is_async : bool) (env_num : nat)
    (n_step n_episode : option Z) (fuel : nat) (s : vSelf V)
    (data : list Obs) : Run :=
  match check_targets is_async env_num n_step n_episode data with
  | Raise e => mkRun (Raised e) 0 false []
  | Ok (ready, data', w) =>
      let r := collect_loop n_step n_episode fuel 0
                 (mkLoop s data' ready 0 0 None) in
      mkRun (run_outcome r) (env_steps r) w (log r)
  end.

End Driver.

Arguments mkLoop {V} _ _ _ _ _ _.
Arguments self {V} _.
Arguments data_obs {V} _.
Arguments ready_env_ids {V} _.
Arguments step_count {V} _.
Arguments episode_count {V} _.
Arguments last_add {V} _.
Arguments Returned {V} _.
Arguments Raised {V} _.
Arguments OutOfFuel {V} _.
Arguments run_outcome {V} _.
Arguments env_steps {V} _.
Arguments warned {V} _.
Arguments log {V} _.
Arguments lg_rows {V} _.
Arguments lg_tick {V} _.
Arguments lg_steps_before {V} _.
Arguments lg_steps_after {V} _.
Arguments lg_episodes_before {V} _.
Arguments lg_ready_before {V} _.
Arguments lg_local {V} _.
Arguments lg_surplus {V} _.
Arguments lg_ready_after {V} _.

(** The two instances. *)

(** Lines 237-274 of multi_agent_collector.py: the lane loop from empty
    locals; [step_count] grows by [len(buffer_ids_to_save)] when
    [buffer.add] is called.  [env_ind_local] is used as built. *)
Definition multi_agent : Variant :=
  mkVariant Store MultiAgent.Tick
    (fun _ rows s _ =>
       MultiAgent.process_lanes 0 rows (s, MultiAgent.empty_tick))
    MultiAgent.experience_to_save
    MultiAgent.buffer_ids_to_save
    MultiAgent.done_envs
    (fun steps t =>
       if 0 <? length (MultiAgent.buffer_ids_to_save t)
       then steps + length (MultiAgent.buffer_ids_to_save t)
       else steps)
    (fun l => l)
    MultiAgent.reset_done_envs.

(** Lines 248-312 of collective_experience_collector.py: [step_count] is
    advanced inside the lane loop; [env_ind_local] is sorted (line 323).
    [pos tick] gives the buffer positions read by [_add_extra_info] on that
    tick. *)
Definition collective (pos : nat → nat → Z) : Variant :=
  mkVariant Collective.Self Collective.Tick
    (fun tick rows s steps =>
       Collective.process_lanes (pos tick) 0 rows
         (s, Collective.empty_tick steps))
    Collective.experience_to_save
    Collective.buffer_ids_to_save
    Collective.done_envs
    (fun _ t => Collective.step_count t)
    (merge_sort Nat.le)
    Collective.reset_done_envs.

(** [reset] of either collector: an empty pending store and an empty tracker
    for each of the [env_num] environments. *)
Definition fresh_store (agents env_num : nat) : Store :=
  mkStore agents ∅ (list_to_map ((fun i => (i, [])) <$> seq 0 env_num)).

(** ** Scenarios *)

(** An environment with a single lane whose agents take turns in the order
    [turns] (the agent of tick [t] is the [t]-th entry, [last] after the end)
    without ever finishing; observation number [t] is the one acted on at
    tick [t]. *)
Definition turn_obs (turns : list nat) (last t : nat) : Obs :=
  mkObs (nth t turns last) t.

Definition scripted_env (turns : list nat) (last : nat) (tick g : nat)
    : StepOut :=
  mkStepOut (100 + tick) (turn_obs turns last (S tick)) (Z.of_nat (10 * tick))
            false false (mkInfo g false false []) (mkObs 0 0).

(** The interleaving [A A A A B A B B B B] of the specification, [A] being
    agent 0 and [B] agent 1. *)
Definition aaaab : list nat := [0; 0; 0; 0; 1; 0; 1; 1; 1; 1].

Definition aaaab_run (fuel : nat) : Run multi_agent :=
  collect multi_agent (scripted_env aaaab 1) false 1 (Some 100%Z) None fuel
          (fresh_store 2 1) [turn_obs aaaab 1 0].

(** ** Measures on a run *)

(** The number of records handed to [buffer.add] in one iteration, and over
    a list of iterations; the number of lanes processed. *)
Definition flushed_in {V} (lg : IterLog V) : nat :=
  length (v_buffer_ids V (lg_tick lg)).

Definition total_flushed {V} (l : list (IterLog V)) : nat :=
  sum_list (flushed_in <$> l).

Definition total_lanes {V} (l : list (IterLog V)) : nat :=
  sum_list ((fun lg => length (lg_rows lg)) <$> l).

(** The loop state a run stopped in, unless it raised. *)
Definition final_loop {V} (r : Run V) : option (Loop V) :=
  match run_outcome r with
  | Returned L => Some L
  | OutOfFuel L => Some L
  | Raised _ => None
  end.

(** [x] has the outcome fields of [row]. *)
Definition outcome_of (row x : Transition) : Prop :=
  rew x = rew row ∧ obs_next x = obs_next row ∧
  terminated x = terminated row ∧ truncated x = truncated row ∧
  done x = done row ∧ info x = info row.

(** The loop invariant of a single environment that never reports [done]:
    one lane, an empty tracker, and no pending record for the agent that is
    about to act. *)
Definition single_lane_invariant (L : Loop multi_agent) : Prop :=
  ∃ o, data_obs L = [o] ∧ ready_env_ids L = [0] ∧
       done_agents_per_env (self L) !! 0 = Some [] ∧
       agents_num (self L) ≠ 0 ∧
       temp_data (self L) !! resolve (agents_num (self L)) 0 (agent_id o)
         = None.

(** What a run of the multi-agent collector processed and handed over, tick
    by tick, and what it left pending under a slot. *)
Definition rows_of (r : Run multi_agent) : list (list Transition) :=
  lg_rows <$> log r.

Definition handed_over (r : Run multi_agent) : list (list Transition) :=
  (fun lg : IterLog multi_agent =>
     MultiAgent.experience_to_save (lg_tick lg)) <$> log r.

Definition handed_over_ids (r : Run multi_agent) : list (list nat) :=
  (fun lg : IterLog multi_agent =>
     MultiAgent.buffer_ids_to_save (lg_tick lg)) <$> log r.

Definition pending_after (r : Run multi_agent) (slot : nat)
    : option Transition :=
  match final_loop r with
  | Some L => temp_data (self L) !! slot
  | None => None
  end.

(** The row of tick [t] in the scenario [aaaab_run]. *)
Definition aaaab_row (t : nat) : Transition :=
  make_row (turn_obs aaaab 1 t) (scripted_env aaaab 1 t 0).

(** The exception a run ended with, if any. *)
Definition raised {V} (r : Run V) : option exn :=
  match run_outcome r with
  | Raised e => Some e
  | _ => None
  end.

(** The rows of a run in processing order. *)
Definition all_rows {V} (r : Run V) : list Transition :=
  concat (lg_rows <$> log r).

(** An environment given by a table: [table !! tick !! g] is the outcome of
    tick [tick] for environment [g]. *)
Definition table_env (table : list (list StepOut)) (d : StepOut)
    (tick g : nat) : StepOut :=
  nth g (nth tick table []) d.

Definition idle_step : StepOut :=
  mkStepOut 0 (mkObs 0 0) 0 false false (mkInfo 0 false false []) (mkObs 0 0).

(** [step g a t k flags]: environment [g] answers with the [k]-th
    observation, whose agent is [a]; [t] is [terminated], [flags] the pair
    ([environment_step], [explicit_reset]); a reset would start with agent
    0. *)
Definition step (g a : nat) (t : bool) (k : nat) (flags : bool * bool)
    : StepOut :=
  mkStepOut (100 + k) (mkObs a k) (Z.of_nat k) t false
            (mkInfo g flags.1 flags.2 []) (mkObs 0 (1000 + k)).

(** The buffer positions used in the scenarios: slot [b] is at [10 * b]. *)
Definition scenario_pos (tick b : nat) : Z := Z.of_nat (10 * b).

(** Two agents, one environment.  Agent 1 acts first and the step is
    terminal with agent 0 next, which marks agent 0's slot as done; agent 0
    then acts on the two following ticks, with no [environment_step] or
    [explicit_reset] signal and no reset in between. *)
Definition done_agent_twice : Run (collective scenario_pos) :=
  collect (collective scenario_pos)
    (table_env [[step 0 0 true 1 (false, false)];
                [step 0 0 false 2 (false, false)];
                [step 0 1 false 3 (false, false)]] idle_step)
    false 1 (Some 100%Z) None 3 (Collective.fresh 2 1) [mkObs 1 0].

(** [undisturbed e s s']: the collective collector got from [s] to [s']
    through successful lanes, none of which carried an [environment_step] or
    [explicit_reset] signal for environment [e], and through resets of
    environments other than [e]. *)
Inductive undisturbed (e : nat) : Collective.Self → Collective.Self → Prop :=
| undisturbed_refl s : undisturbed e s s
| undisturbed_lane s t pos env_idx row s1 t1 s2 :
    Collective.process_lane pos env_idx row (s, t) = Ok (s1, t1) →
    (env_id (info row) = e →
     environment_step (info row) = false ∧ explicit_reset (info row) = false) →
    undisturbed e s1 s2 →
    undisturbed e s s2
| undisturbed_reset s e' s2 :
    e' ≠ e →
    undisturbed e (Collective.reset_env s e') s2 →
    undisturbed e s s2.

(** A lane in which agent 0 of environment 0 acts, agent 1 being next. *)
Definition lane_0_to_1 : Transition :=
  make_row (mkObs 0 0) (step 0 1 false 1 (false, false)).

(** [f] applied to the result of a computation that did not raise. *)
Definition result_map {A B} (f : A → B) (m : result A) : result B :=
  match m with
  | Ok a => Ok (f a)
  | Raise e => Raise e
  end.

(** The collective collector with its pending store changed by [f]. *)
Definition with_temp_data (f : gmap nat Transition → gmap nat Transition)
    (s : Collective.Self) : Collective.Self :=
  Collective.set_store (set_temp_data f) s.

(** Two agents, one environment: agent 0 acts and leaves a pending record,
    agent 1 then acts twice in a row, the second time on a terminal step
    carrying [explicit_reset]; after the reset agent 0 acts again. *)
Definition overwrite_env : nat → nat → StepOut :=
  table_env [[step 0 1 false 1 (false, false)];
             [step 0 1 true 2 (false, true)];
             [step 0 1 false 3 (false, false)]] idle_step.

Definition overwrite_run (fuel : nat) : Run multi_agent :=
  collect multi_agent overwrite_env false 1 (Some 100%Z) None fuel
          (fresh_store 2 1) [mkObs 0 0].

(** What the step of lines 261-264 (301-305) does to the tracker and to
    [done_envs], for [n] agents: nothing unless the lane is [done]; then the
    next slot is appended to the environment's tracker list, and the lane is
    recorded as a completion event exactly when the list now has [n] entries
    or the lane's info carries [explicit_reset]. *)
Definition completion_recorded (n env_idx : nat) (row : Transition)
    (tracker tracker' : gmap nat (list nat))
    (d d' : list (nat * nat * Z)) : Prop :=
  let env := env_id (info row) in
  let next := resolve n env (agent_id (obs_next row)) in
  if done row then
    ∃ l k,
      tracker !! env = Some l ∧
      tracker' = <[env := l ++ [next]]> tracker ∧
      d' = d ++ (if (length (l ++ [next]) =? n) || explicit_reset (info row)
                 then [(env_idx, env, k)] else [])
  else tracker' = tracker ∧ d' = d.

(** One environment, two agents: the first step carries [explicit_reset]
    but is neither terminated nor truncated. *)
Definition reset_without_done_env : nat → nat → StepOut :=
  table_env [[step 0 1 false 1 (false, true)]] idle_step.

Definition reset_without_done_multi : Run multi_agent :=
  collect multi_agent reset_without_done_env false 1 (Some 100%Z) None 1
          (fresh_store 2 1) [mkObs 0 0].

Definition reset_without_done_collective : Run (collective scenario_pos) :=
  collect (collective scenario_pos) reset_without_done_env false 1
          (Some 100%Z) None 1 (Collective.fresh 2 1) [mkObs 0 0].

(** Number of episodes counted when the run stopped. *)
Definition episodes {V} (r : Run V) : option nat :=
  episode_count <$> final_loop r.

(** The two slots a lane can touch in the pending store: the acting agent's
    and the next agent's. *)
Definition slots_of (n : nat) (row : Transition) : list nat :=
  [resolve n (env_id (info row)) (agent_id (obs row));
   resolve n (env_id (info row)) (agent_id (obs_next row))].

(** One environment, two agents.  Agent 0 completes a joint round alone,
    then acts again and leaves a pending record; agent 1 acts on a terminal
    step that carries [explicit_reset], which snapshots both slots into
    [ready] while only agent 1's record has been accumulated; nothing is
    handed over on that tick, so its completion event has to be recorded
    while [experience_to_save] is still empty. *)
Definition stale_round_run : Run (collective scenario_pos) :=
  collect (collective scenario_pos)
    (table_env [[step 0 0 false 1 (true, false)];
                [step 0 1 false 2 (false, false)];
                [step 0 1 true 3 (false, true)]] idle_step)
    false 1 (Some 100%Z) None 3 (Collective.fresh 2 1) [mkObs 0 0].

(** A view of the collective collector's state for environment [e] and slot
    [b]: tracker, [ready], [filling], accumulated slot ids, number of
    accumulated records, and whether [b] has a pending record. *)
Definition collective_view (e b : nat) (s : Collective.Self) :=
  (done_agents_per_env (Collective.store s) !! e,
   Collective.ready s !! e, Collective.filling s !! e,
   Collective.ids_to_save s !! e,
   length <$> Collective.exps_to_save s !! e,
   bool_decide (is_Some (temp_data (Collective.store s) !! b))).

Definition final_view {pos} (e b : nat) (r : Run (collective pos)) :=
  collective_view e b <$> (self <$> final_loop r).

(** Two environments with two agents each; on the same tick agent 0 of each
    environment completes a joint round of its own (it acts, is next again,
    and the environment signals a step). *)
Definition two_rounds_run : Run (collective scenario_pos) :=
  collect (collective scenario_pos)
    (table_env [[step 0 0 false 1 (true, false);
                 step 1 0 false 1 (true, false)]] idle_step)
    false 2 (Some 100%Z) None 1 (Collective.fresh 2 2)
    [mkObs 0 0; mkObs 0 0].

(** One environment whose two agents alternate; the second step closes a
    round of the environment. *)
Definition alternating_env : nat → nat → StepOut :=
  table_env [[step 0 1 false 1 (false, false)];
             [step 0 0 false 2 (true, false)];
             [step 0 1 false 3 (false, false)]] idle_step.

Definition alternating_multi : Run multi_agent :=
  collect multi_agent alternating_env false 1 (Some 100%Z) None 3
          (fresh_store 2 1) [mkObs 0 0].

Definition alternating_collective : Run (collective scenario_pos) :=
  collect (collective scenario_pos) alternating_env false 1 (Some 100%Z) None
          3 (Collective.fresh 2 1) [mkObs 0 0].

(** [step_count] when the run stopped. *)
Definition steps {V} (r : Run V) : option nat :=
  step_count <$> final_loop r.

(** The slot ids handed to [buffer.add] and the joint rounds logged, tick by
    tick, in a run of the collective collector. *)
Definition collective_ids {pos} (r : Run (collective pos)) : list (list nat) :=
  (fun lg : IterLog (collective pos) =>
     Collective.buffer_ids_to_save (lg_tick lg)) <$> log r.

Definition collective_rounds {pos} (r : Run (collective pos))
    : list (list Collective.Round) :=
  (fun lg : IterLog (collective pos) => Collective.rounds (lg_tick lg))
    <$> log r.

(** A lane in which agent 0 of environment 0 acts, is next again, and the
    environment signals a step. *)
Definition lane_0_round : Transition :=
  make_row (mkObs 0 0) (step 0 0 false 1 (true, false)).

(** What the trimming of lines 296-302 (343-350) did in one iteration: the
    local indices of the completed lanes are strictly ascending lane
    positions; when the surplus is positive it does not exceed their number,
    the lanes masked out are the first [surplus] of them, and the ready set
    shrinks by exactly that many lanes; otherwise the ready set is kept. *)
Definition trimmed_ascending {V} (lg : IterLog V) : Prop :=
  StronglySorted lt (lg_local lg) ∧
  Forall (fun i => i < length (lg_ready_before lg)) (lg_local lg) ∧
  match lg_surplus lg with
  | Some z =>
      if (0 <? z)%Z then
        (z ≤ Z.of_nat (length (lg_local lg)))%Z ∧
        lg_ready_after lg
          = mask_out (take (Z.to_nat z) (lg_local lg)) (lg_ready_before lg) ∧
        Z.of_nat (length (lg_ready_after lg))
          = (Z.of_nat (length (lg_ready_before lg)) - z)%Z
      else lg_ready_after lg = lg_ready_before lg
  | None => lg_ready_after lg = lg_ready_before lg
  end.

(** Three single-agent environments and a target of four episodes: on the
    first tick environments 0 and 2 finish together. *)
Definition tie_env : nat → nat → StepOut :=
  table_env [[step 0 0 true 1 (true, false);
              step 1 0 false 1 (true, false);
              step 2 0 true 1 (true, false)]] idle_step.

Definition tie_multi : Run multi_agent :=
  collect multi_agent tie_env false 3 None (Some 4%Z) 1 (fresh_store 1 3)
          [mkObs 0 0; mkObs 0 0; mkObs 0 0].

Definition tie_collective : Run (collective scenario_pos) :=
  collect (collective scenario_pos) tie_env false 3 None (Some 4%Z) 1
          (Collective.fresh 1 3) [mkObs 0 0; mkObs 0 0; mkObs 0 0].

(** Completed lanes, surplus and ready set before and after, per tick. *)
Definition trimming_of {V} (r : Run V) :=
  (fun lg : IterLog V =>
     (lg_local lg, lg_surplus lg, lg_ready_before lg, lg_ready_after lg))
    <$> log r.

(** ** Further scenarios and views *)

(** Whether the run left the loop through [break]. *)
Definition returned {V} (r : Run V) : bool :=
  match run_outcome r with
  | Returned _ => true
  | _ => false
  end.

(** One single-agent environment whose first step ends the episode and
    closes a round. *)
Definition one_shot_env : nat → nat → StepOut :=
  table_env [[step 0 0 true 1 (true, false)]] idle_step.

Definition one_shot_episode : Run multi_agent :=
  collect multi_agent one_shot_env false 1 None (Some 1%Z) 1
          (fresh_store 1 1) [mkObs 0 0].

Definition one_shot_step : Run multi_agent :=
  collect multi_agent one_shot_env false 1 (Some 1%Z) None 1
          (fresh_store 1 1) [mkObs 0 0].

(** Two agents, one environment: the very first step is terminal and
    carries [explicit_reset] while another agent is next, so a completion
    event has to be recorded while [experience_to_save] is still empty. *)
Definition early_completion : Run multi_agent :=
  collect multi_agent
    (table_env [[step 0 1 true 1 (false, true)]] idle_step)
    false 1 (Some 100%Z) None 1 (fresh_store 2 1) [mkObs 0 0].

(** The tracker has an entry for every environment id the environment can
    report. *)
Definition env_tracked (env : nat → nat → StepOut)
    (tracker : gmap nat (list nat)) : Prop :=
  ∀ tick g, is_Some (tracker !! env_id (so_info (env tick g))).

(** Every environment id the environment can report is one of the
    [env_num] environments. *)
Definition envs_in_range (env : nat → nat → StepOut) (env_num : nat) : Prop :=
  ∀ tick g, env_id (so_info (env tick g)) < env_num.

(** The invariant under which an iteration of the multi-agent loop raises
    nothing but the [TypeError] of [len] on the empty batch: one row of data
    per ready environment, a tracker entry for every environment id, [n]
    agents, and data of these agents only. *)
Definition multi_agent_safe (env : nat → nat → StepOut) (n : nat)
    (L : Loop multi_agent) : Prop :=
  length (data_obs L) = length (ready_env_ids L) ∧
  env_tracked env (done_agents_per_env (self L)) ∧
  agents_num (self L) = n ∧
  Forall (fun o => agent_id o < n) (data_obs L).

(** The shape that [reset] gives to [self.temp_buffer_data]: the [ready] and
    [filling] arrays of an environment have [agents_num] entries each, an
    environment has as many accumulated experiences as accumulated slot
    ids, and these slot ids are distinct. *)
Definition collective_shaped (s : Collective.Self) : Prop :=
  (∀ e arr, Collective.ready s !! e = Some arr →
            length arr = agents_num (Collective.store s)) ∧
  (∀ e arr, Collective.filling s !! e = Some arr →
            length arr = agents_num (Collective.store s)) ∧
  (∀ e exps ids, Collective.exps_to_save s !! e = Some exps →
                 Collective.ids_to_save s !! e = Some ids →
                 length exps = length ids) ∧
  (∀ e ids, Collective.ids_to_save s !! e = Some ids → NoDup ids).

(** Environment [e] has an entry in the tracker and in each of the four
    dictionaries of [self.temp_buffer_data] that [collect] reads. *)
Definition has_entries (e : nat) (s : Collective.Self) : Prop :=
  is_Some (done_agents_per_env (Collective.store s) !! e) ∧
  is_Some (Collective.ready s !! e) ∧
  is_Some (Collective.filling s !! e) ∧
  is_Some (Collective.exps_to_save s !! e) ∧
  is_Some (Collective.ids_to_save s !! e).


(** From [s] to [s'] the number of agents is unchanged, no entry is lost and
    the shape is kept. *)
Definition step_keeps (s s' : Collective.Self) : Prop :=
  agents_num (Collective.store s') = agents_num (Collective.store s) ∧
  (∀ e, has_entries e s → has_entries e s') ∧
  (collective_shaped s → collective_shaped s').

(** What the lane loop of the collective collector hands to [buffer.add]
    when there are [n] agents: every experience carries an [indices] vector
    of [n] entries, and every joint round consists of at least one and at
    most [n] distinct slots, read off a [ready] array of [n] entries. *)
Definition collective_tick_shaped (n : nat) (t : Collective.Tick) : Prop :=
  Forall (fun x => length (indices (info x)) = n)
         (Collective.experience_to_save t) ∧
  Forall (fun r => NoDup (Collective.round_ids r) ∧
                   1 ≤ length (Collective.round_ids r) ≤ n ∧
                   length (Collective.round_ready r) = n)
         (Collective.rounds t).

(** The agent of every observation the environment can produce, after a
    step or after a reset, is one of the [n] agents. *)
Definition agents_in_range (env : nat → nat → StepOut) (n : nat) : Prop :=
  ∀ tick g, agent_id (so_obs_next (env tick g)) < n ∧
            agent_id (so_reset_obs (env tick g)) < n.



(** Two agents, one environment: agent 0 acts on two consecutive ticks and
    the environment signals no step in between. *)
Definition same_agent_twice_env : nat → nat → StepOut :=
  table_env [[step 0 0 false 1 (false, false)];
             [step 0 0 false 2 (false, false)]] idle_step.

Definition same_agent_twice : Run (collective scenario_pos) :=
  collect (collective scenario_pos) same_agent_twice_env false 1
          (Some 100%Z) None 2 (Collective.fresh 2 1) [mkObs 0 0].

(** ** [_assign_buffer]

    What the method looks at in its argument: whether it is a
    [ReplayBufferManager], with its [buffer_num] and, for a
    [CachedReplayBuffer], its [cached_buffer_num]; or a plain [ReplayBuffer],
    prioritized or not, with its [maxsize]. *)
Inductive Buffer : Set :=
| Manager (buffer_num : nat) (cached_buffer_num : option nat)
| Plain (prioritized : bool) (maxsize : Z).

(** Lines 44-71 of multi_agent_collector.py and 41-68 of
    collective_experience_collector.py, the same text: the buffer that ends
    up in [self.buffer].  Without an argument a [VectorReplayBuffer] with
    [env_num * agents_num] sub-buffers is created. *)
Definition _assign_buffer (env_num agents_num : nat) (buffer : option Buffer)
    : result Buffer :=
  match buffer with
  | None => Ok (Manager (env_num * agents_num) None)
  | Some (Manager buffer_num cached) =>
      _ ← py_assert (env_num * agents_num <=? buffer_num);
      _ ← match cached with
          | Some c => py_assert (env_num * agents_num <=? c)
          | None => Ok tt
          end;
      Ok (Manager buffer_num cached)
  | Some (Plain prioritized maxsize) =>
      _ ← py_assert (0 <? maxsize)%Z;
      if 1 <? env_num * agents_num then Raise TypeError
      else Ok (Plain prioritized maxsize)
  end.

(** The number of sub-buffers a slot id can address: [buffer_num] (and
    [cached_buffer_num]) of a manager, one for a plain buffer. *)
Definition slots (b : Buffer) : nat :=
  match b with
  | Manager k None => k
  | Manager k (Some c) => k `min` c
  | Plain _ _ => 1
  end.

(** ** Fusion of the logger statistics

    Lines 316-322 of multi_agent_collector.py and 364-370 of
    collective_experience_collector.py:
    [fused_logger_stats = defaultdict(list)], and for every info dictionary
    [d] of [episode_info], [for key, value in d.pop('logger_stats',
    {}).items(): fused_logger_stats[key].append(value)].  An info dictionary
    is represented by its ['logger_stats'] entry ([None] when it has none), a
    dictionary by its items in iteration order. *)
Definition append_stat {V} (fused : gmap string (list V)) (kv : string * V)
    : gmap string (list V) :=
  <[kv.1 := default [] (fused !! kv.1) ++ [kv.2]]> fused.

Definition fuse_logger_stats {V}
    (episode_info : list (option (list (string * V))))
    : gmap string (list V) :=
  foldl (fun fused d => foldl append_stat fused (default [] d)) ∅
        episode_info.

(** The values recorded under [key], in the order of [episode_info]. *)
Definition values_of {V} (key : string)
    (episode_info : list (option (list (string * V)))) : list V :=
  d ← episode_info;
  (filter (fun kv : string * V => kv.1 = key) (default [] d)).*2.

(** ** Records and their slots *)

(** The slot of a record: that of the agent whose observation it holds, in
    the environment its info names. *)
Definition slot_of (n : nat) (x : Transition) : nat :=
  resolve n (env_id (info x)) (agent_id (obs x)).

(** The acting agent and the next agent of a row are among the [n]
    agents. *)
Definition row_in_range (n : nat) (row : Transition) : Prop :=
  agent_id (obs row) < n ∧ agent_id (obs_next row) < n.

(** Every pending record waits under its own slot, and its agent is one of
    the agents. *)
Definition pending_keyed (s : Store) : Prop :=
  ∀ k p, temp_data s !! k = Some p →
         agent_id (obs p) < agents_num s ∧ k = slot_of (agents_num s) p.

(** The entry of agent [a] in a turn-state array of environment [e] is
    empty or the slot of that agent in that environment. *)
Definition arrays_keyed (n : nat) (m : gmap nat (list Z)) : Prop :=
  ∀ e arr a x, m !! e = Some arr → arr !! a = Some x →
               x = (-1)%Z ∨ x = Z.of_nat (resolve n e a).

(** The accumulated records of environment [e] are records of [e], paired
    with their own slots. *)
Definition accumulators_keyed (n : nat) (exps : gmap nat (list Transition))
    (ids : gmap nat (list nat)) : Prop :=
  ∀ e xs bs, exps !! e = Some xs → ids !! e = Some bs →
             Forall2 (fun x b => b = slot_of n x ∧ env_id (info x) = e) xs bs.

Definition collective_keyed (s : Collective.Self) : Prop :=
  let n := agents_num (Collective.store s) in
  pending_keyed (Collective.store s) ∧
  arrays_keyed n (Collective.ready s) ∧
  arrays_keyed n (Collective.filling s) ∧
  accumulators_keyed n (Collective.exps_to_save s) (Collective.ids_to_save s).

(** Column [a] of the [indices] vector of a record is empty or the buffer
    position of agent [a]'s slot in the record's environment. *)
Definition indices_by_agent (n : nat) (pos : nat → Z) (x : Transition)
    : Prop :=
  ∀ a i, indices (info x) !! a = Some i →
         i = (-1)%Z ∨ i = pos (resolve n (env_id (info x)) a).

(** ** Lanes and their environments *)

(** On tick [tick] every environment of [ready] reports, as [info.env_id],
    the id under which it is stepped. *)
Definition env_reports_own_id (env : nat → nat → StepOut) (tick : nat)
    (ready : list nat) : Prop :=
  ∀ g, g ∈ ready → env_id (so_info (env tick g)) = g.

(** The observation environment [g] goes on with after tick [tick]: the one
    its reset produced when it is among the environments [finished] on that
    tick, its [obs_next] otherwise. *)
Definition carried_obs (env : nat → nat → StepOut) (tick : nat)
    (finished : list nat) (g : nat) : Obs :=
  if bool_decide (g ∈ finished) then so_reset_obs (env tick g)
  else so_obs_next (env tick g).

(** Two single-agent environments.  On the same tick environment 0
    completes a joint round, which is handed over, and environment 1 ends
    its episode on a step without [environment_step] signal: its record is
    accumulated but its round is not closed when the completion event is
    recorded and processed. *)
Definition unflushed_reset_run : Run (collective scenario_pos) :=
  collect (collective scenario_pos)
    (table_env [[step 0 0 false 1 (true, false);
                 step 1 0 true 1 (false, false)]] idle_step)
    false 2 (Some 100%Z) None 1 (Collective.fresh 1 2)
    [mkObs 0 0; mkObs 0 0].

(** The multi-agent loop before the second tick of [overwrite_run]: agent
    0's record of the first tick is pending under slot 0 and agent 1 is
    about to act. *)
Definition overwrite_second_tick : Loop multi_agent :=
  mkLoop (set_temp_data (<[0 := make_row (mkObs 0 0) (overwrite_env 0 0)]>)
            (fresh_store 2 1) : vSelf multi_agent)
         [mkObs 1 1] [0] 0 0 None.

(** The number of joint rounds handed over in a list of iterations of the
    collective collector. *)
Definition total_rounds {pos} (l : list (IterLog (collective pos))) : nat :=
  sum_list ((fun lg : IterLog (collective pos) =>
               length (Collective.rounds (lg_tick lg))) <$> l).

(** The stream of [alternating_env] collected with a step target of [n],
    for at most three ticks. *)
Definition alternating_multi_until (n : Z) : Run multi_agent :=
  collect multi_agent alternating_env false 1 (Some n) None 3
          (fresh_store 2 1) [mkObs 0 0].

Definition alternating_collective_until (n : Z)
    : Run (collective scenario_pos) :=
  collect (collective scenario_pos) alternating_env false 1 (Some n) None
          3 (Collective.fresh 2 1) [mkObs 0 0].

(** The loop state of [one_shot_step] before its only tick. *)
Definition one_shot_start : Loop multi_agent :=
  mkLoop (fresh_store 1 1 : vSelf multi_agent) [mkObs 0 0] [0] 0 0 None.

(** Two environments with two agents each, in the collective collector.
    Environment 0 hands over a round of agent 0 on every tick.  In
    environment 1 agent 0 acts first and leaves its record pending under
    slot 2; on the second tick agent 1 acts, is next again, and the step is
    terminal with [explicit_reset]: its record is accumulated, the round
    stays open, and the completion event of environment 1 is recorded
    after the round of environment 0 has been put into
    [experience_to_save]. *)
Definition pending_reset_env : nat → nat → StepOut :=
  table_env [[step 0 0 false 1 (true, false);
              step 1 1 false 1 (false, false)];
             [step 0 0 false 2 (true, false);
              step 1 1 true 2 (false, true)]] idle_step.

Definition pending_reset_run (fuel : nat) : Run (collective scenario_pos) :=
  collect (collective scenario_pos) pending_reset_env false 2 (Some 100%Z)
          None fuel (Collective.fresh 2 2) [mkObs 0 0; mkObs 0 0].

(* ================================================================== *)
(** * Properties *)

(** ** Target configuration *)

Lemma collect_loop_steps_once (V : Variant) env n_step n_episode fuel tick
    (L : Loop V) :
  length (data_obs L) = length (ready_env_ids L) →
  1 ≤ env_steps (collect_loop V env n_step n_episode (S fuel) tick L).
Proof.
  intros Hlen. cbn [collect_loop].
  rewrite Hlen, Nat.eqb_refl. cbn [negb].
  destruct (iterate V env n_step n_episode tick L) as [[[L' lg] [|]]|e];
    cbn; lia.
Qed.

(** C7. A [collect] call of either variant that is given both targets, or
    neither, raises before the first environment step (and hence before the
    first policy query); a positive [n_step] that is not a multiple of the
    number of environments only sets the warning, and the loop then runs as
    for any other step target, stepping the environment at least once. *)
Theorem target_configuration_errors (V : Variant) (env : nat → nat → StepOut)
    (is_async : bool) (env_num fuel : nat) (s : vSelf V) (data : list Obs) :
  (∀ a b : Z,
     let r := collect V env is_async env_num (Some a) (Some b) fuel s data in
     run_outcome r = Raised AssertionError ∧ env_steps r = 0) ∧
  (let r := collect V env is_async env_num None None fuel s data in
   run_outcome r = Raised (if is_async then AssertionError else TypeError) ∧
   env_steps r = 0) ∧
  (∀ n : Z,
     (0 < n)%Z → env_num ≠ 0 → (n mod Z.of_nat env_num)%Z ≠ 0%Z →
     is_async = false →
     let r := collect V env is_async env_num (Some n) None fuel s data in
     let r0 := collect_loop V env (Some n) None fuel 0
                 (mkLoop s data (seq 0 env_num) 0 0 None) in
     warned r = true ∧ run_outcome r = run_outcome r0 ∧
     env_steps r = env_steps r0 ∧ log r = log r0 ∧
     (length data = env_num → 0 < fuel → 1 ≤ env_steps r)).
Proof.
  split; [|split].
  - intros a b r. subst r. unfold collect, check_targets.
    destruct is_async; cbn; auto.
  - cbn zeta. unfold collect, check_targets. destruct is_async; cbn; auto.
  - intros n Hn Henv Hmod -> r r0. subst r r0.
    unfold collect, check_targets. cbn [negb py_assert mbind result_bind].
    rewrite bool_decide_eq_true_2 by reflexivity. cbn [mbind result_bind].
    assert (Hpos : (0 <? n)%Z = true) by (apply Z.ltb_lt; exact Hn).
    rewrite Hpos. cbn [mbind result_bind].
    assert (Hnz : (env_num =? 0) = false) by (apply Nat.eqb_neq; exact Henv).
    rewrite Hnz.
    assert (Hw : (n mod Z.of_nat env_num =? 0)%Z = false)
      by (apply Z.eqb_neq; exact Hmod).
    rewrite Hw. cbn [negb run_outcome env_steps warned log].
    repeat split; try reflexivity.
    intros Hlen Hfuel. destruct fuel as [|fuel]; [lia|].
    apply collect_loop_steps_once. cbn. rewrite length_seq. exact Hlen.
Qed.

Lemma target_configuration_errors_witness :
  warned (collect multi_agent (scripted_env aaaab 1) false 2 (Some 3%Z) None 1
            (fresh_store 2 2) [mkObs 0 0; mkObs 0 0]) = true.
Proof.
  apply (target_configuration_errors multi_agent (scripted_env aaaab 1) false
           2 1 (fresh_store 2 2) [mkObs 0 0; mkObs 0 0]).
  - lia.
  - lia.
  - vm_compute. discriminate.
  - reflexivity.
Defined.

(** ** The steps of a lane, one by one *)

Lemma bind_Ok {A B} (m : result A) (f : A → result B) (b : B) :
  m ≫= f = Ok b ↔ ∃ a, m = Ok a ∧ f a = Ok b.
Proof.
  destruct m as [a|e]; cbn; split.
  - intros H. exists a. auto.
  - intros (a' & Ha & Hf). congruence.
  - discriminate.
  - intros (a' & Ha & _). discriminate.
Qed.

Lemma getitem_Ok {V} (m : gmap nat V) (k : nat) (v : V) :
  getitem m k = Ok v ↔ m !! k = Some v.
Proof.
  unfold getitem. destruct (m !! k); split; intros H; congruence.
Qed.

Lemma store_eta (s : Store) :
  mkStore (agents_num s) (temp_data s) (done_agents_per_env s) = s.
Proof. destruct s; reflexivity. Qed.

Lemma batch_len_Ok n k : batch_len n = Ok k ↔ k = n ∧ 1 ≤ n.
Proof.
  unfold batch_len. destruct (n =? 0) eqn:E.
  - apply Nat.eqb_eq in E. split; [discriminate|]. lia.
  - apply Nat.eqb_neq in E. split.
    + intros [= <-]. lia.
    + intros [-> _]. reflexivity.
Qed.

Lemma mark_done_spec env_idx env next row n s d s' d' :
  mark_done env_idx env next row n (s, d) = Ok (s', d') →
  agents_num s' = agents_num s ∧ temp_data s' = temp_data s ∧
  ((done row = false ∧ s' = s ∧ d' = d) ∨
   (done row = true ∧
    ∃ l, done_agents_per_env s !! env = Some l ∧
         done_agents_per_env s' = <[env := l ++ [next]]> (done_agents_per_env s) ∧
         d' = d ++ (if (length (l ++ [next]) =? agents_num s)
                       || explicit_reset (info row)
                    then [(env_idx, env, (Z.of_nat n - 1)%Z)] else []))).
Proof.
  unfold mark_done. cbn [fst snd].
  destruct (done row) eqn:Hd.
  - intros H. apply bind_Ok in H as (l & Hl & H).
    apply getitem_Ok in Hl.
    cbn [set_done_agents agents_num] in H.
    destruct ((length (l ++ [next]) =? agents_num s)
              || explicit_reset (info row)) eqn:E.
    + apply bind_Ok in H as (k & Hk & H). apply batch_len_Ok in Hk as [-> _].
      inversion H; subst; cbn. split; [reflexivity|split; [reflexivity|]].
      right. split; [reflexivity|]. exists l. rewrite E. auto.
    + inversion H; subst; cbn. split; [reflexivity|split; [reflexivity|]].
      right. split; [reflexivity|]. exists l. rewrite E, app_nil_r. auto.
  - intros H. inversion H; subst. split; [|split]; auto.
Qed.

(** A completion event is only recorded on a tick that already has a
    record to hand over. *)
Lemma mark_done_event env_idx env next row n s d s' d' :
  mark_done env_idx env next row n (s, d) = Ok (s', d') →
  d' ≠ d → 1 ≤ n.
Proof.
  unfold mark_done. cbn [fst snd].
  destruct (done row); [|intros [= <- <-] Hne; congruence].
  intros H. apply bind_Ok in H as (l & _ & H).
  destruct (_ || _).
  - apply bind_Ok in H as (k & Hk & _). apply batch_len_Ok in Hk as [_ Hn].
    intros _. exact Hn.
  - intros Hne. inversion H; subst. congruence.
Qed.

Lemma store_pending_spec b next env row s s' :
  store_pending b next env row s = Ok s' →
  ∃ w : bool, must_wait b next env s = Ok w ∧
    agents_num s' = agents_num s ∧
    done_agents_per_env s' = done_agents_per_env s ∧
    temp_data s' = if w then <[b := row]> (temp_data s) else temp_data s.
Proof.
  unfold store_pending. intros H.
  apply bind_Ok in H as (w & Hw & H). exists w. split; [exact Hw|].
  destruct w; inversion H; subst; cbn; auto.
Qed.

Lemma must_wait_same b env s : must_wait b b env s = Ok false.
Proof. unfold must_wait. rewrite decide_True by reflexivity. reflexivity. Qed.

Module MultiAgentFacts.
Import MultiAgent.

Lemma resolve_pending_eq next row s t :
  resolve_pending next row (s, t) =
  (set_temp_data (delete next) s,
   mkTick (experience_to_save t
             ++ from_option (fun p => [complete p row]) [] (temp_data s !! next))
          (buffer_ids_to_save t
             ++ from_option (fun _ => [next]) [] (temp_data s !! next))
          (done_envs t)).
Proof.
  unfold resolve_pending. cbn [fst snd].
  destruct (temp_data s !! next) as [p|] eqn:Hp; cbn [from_option].
  - reflexivity.
  - rewrite !app_nil_r. unfold set_temp_data.
    rewrite (delete_id _ _ Hp), store_eta. destruct t; reflexivity.
Qed.

Lemma save_direct_eq b next row s t :
  save_direct b next row (s, t) =
  (s, mkTick (experience_to_save t ++ (if decide (b = next) then [row] else []))
             (buffer_ids_to_save t ++ (if decide (b = next) then [b] else []))
             (done_envs t)).
Proof.
  unfold save_direct. destruct (decide (b = next)); cbn [fst snd].
  - reflexivity.
  - rewrite !app_nil_r. destruct t; reflexivity.
Qed.

(** Everything one lane does, read off a successful run of [process_lane]. *)
Lemma process_lane_spec env_idx row s t s' t' :
  process_lane env_idx row (s, t) = Ok (s', t') →
  let env := env_id (info row) in
  let b := resolve (agents_num s) env (agent_id (obs row)) in
  let next := resolve (agents_num s) env (agent_id (obs_next row)) in
  let pend := temp_data s !! next in
  let exps := experience_to_save t
                ++ from_option (fun p => [complete p row]) [] pend
                ++ (if decide (b = next) then [row] else []) in
  agents_num s' = agents_num s ∧
  experience_to_save t' = exps ∧
  buffer_ids_to_save t' =
    buffer_ids_to_save t ++ from_option (fun _ => [next]) [] pend
                         ++ (if decide (b = next) then [b] else []) ∧
  ((done row = false ∧
    done_agents_per_env s' = done_agents_per_env s ∧
    done_envs t' = done_envs t) ∨
   (done row = true ∧
    ∃ l, done_agents_per_env s !! env = Some l ∧
         done_agents_per_env s' = <[env := l ++ [next]]> (done_agents_per_env s) ∧
         done_envs t' =
           done_envs t ++
           (if (length (l ++ [next]) =? agents_num s)
               || explicit_reset (info row)
            then [(env_idx, env, (Z.of_nat (length exps) - 1)%Z)] else []))) ∧
  ∃ w : bool, must_wait b next env s' = Ok w ∧
    temp_data s' =
      if w then <[b := row]> (delete next (temp_data s))
      else delete next (temp_data s).
Proof.
  intros H env b next pend exps.
  unfold process_lane in H. cbn [fst snd] in H.
  fold env b next in H.
  rewrite resolve_pending_eq, save_direct_eq in H. cbn [fst snd] in H.
  fold pend in H. cbn [experience_to_save buffer_ids_to_save done_envs] in H.
  rewrite <- !app_assoc in H. fold exps in H.
  apply bind_Ok in H as ([s3 d3] & Hmark & H).
  apply bind_Ok in H as (s4 & Hstore & H).
  inversion H; subst s' t'; clear H.
  apply mark_done_spec in Hmark as (Hn3 & Ht3 & Hmark).
  apply store_pending_spec in Hstore as (w & Hw & Hn4 & Hd4 & Ht4).
  cbn [set_temp_data agents_num temp_data done_agents_per_env] in *.
  cbn [experience_to_save buffer_ids_to_save done_envs].
  split; [congruence|]. split; [reflexivity|]. split; [reflexivity|].
  split.
  - destruct Hmark as [(Hd & -> & ->)|(Hd & l & Hl & Hl' & ->)].
    + left. rewrite Hd4. auto.
    + right. split; [exact Hd|]. exists l. rewrite Hd4. auto.
  - exists w. split.
    + unfold must_wait in *. rewrite Hn4, Hd4. exact Hw.
    + rewrite Ht4, Ht3. reflexivity.
Qed.

End MultiAgentFacts.

Lemma mark_done_total env_idx env next row n s d :
  (done row = true → is_Some (done_agents_per_env s !! env)) →
  1 ≤ n →
  ∃ s' d', mark_done env_idx env next row n (s, d) = Ok (s', d').
Proof.
  intros Hkey Hn. unfold mark_done, batch_len. cbn [fst snd].
  destruct (done row).
  - destruct (Hkey eq_refl) as [l Hl]. unfold getitem. rewrite Hl.
    cbn [mbind result_bind].
    rewrite (proj2 (Nat.eqb_neq n 0)) by lia.
    destruct (_ || _); cbn [mbind result_bind]; eauto.
  - eauto.
Qed.

(** With a tracker entry the only thing that can go wrong is the length of
    the empty [Batch()]. *)
Lemma mark_done_outcome env_idx env next row n s d :
  (done row = true → is_Some (done_agents_per_env s !! env)) →
  (∃ s' d', mark_done env_idx env next row n (s, d) = Ok (s', d')) ∨
  (mark_done env_idx env next row n (s, d) = Raise TypeError ∧ n = 0 ∧
   done row = true).
Proof.
  intros Hkey. destruct n as [|n].
  - unfold mark_done, batch_len. cbn [fst snd].
    destruct (done row); [|left; eauto].
    destruct (Hkey eq_refl) as [l Hl]. unfold getitem. rewrite Hl.
    cbn [mbind result_bind Nat.eqb].
    destruct (_ || _); cbn [mbind result_bind]; [right; auto|left; eauto].
  - left. apply mark_done_total; [exact Hkey|lia].
Qed.

Module MultiAgentTicks.
Import MultiAgent MultiAgentFacts.

(** The two tick lists only grow, in step with each other, and the number
    of agents never changes. *)
Lemma process_lane_grows env_idx row s t s' t' :
  process_lane env_idx row (s, t) = Ok (s', t') →
  agents_num s' = agents_num s ∧
  ∃ e i, length e = length i ∧
         experience_to_save t' = experience_to_save t ++ e ∧
         buffer_ids_to_save t' = buffer_ids_to_save t ++ i.
Proof.
  intros H. apply process_lane_spec in H as (Hn & He & Hi & _).
  split; [exact Hn|]. eexists _, _. split; [|split; [exact He|exact Hi]].
  destruct (temp_data s !! _), (decide _); reflexivity.
Qed.

Lemma process_lanes_grows rows : ∀ k s t s' t',
  process_lanes k rows (s, t) = Ok (s', t') →
  agents_num s' = agents_num s ∧
  ∃ e i, length e = length i ∧
         experience_to_save t' = experience_to_save t ++ e ∧
         buffer_ids_to_save t' = buffer_ids_to_save t ++ i.
Proof.
  induction rows as [|row rows IH]; intros k s t s' t' H; cbn in H.
  - inversion H; subst. split; [reflexivity|].
    exists [], []. rewrite !app_nil_r. auto.
  - apply bind_Ok in H as ([s1 t1] & H1 & H).
    apply process_lane_grows in H1 as (Hn1 & e1 & i1 & Hl1 & He1 & Hi1).
    apply IH in H as (Hn & e & i & Hl & He & Hi).
    split; [congruence|].
    exists (e1 ++ e), (i1 ++ i). rewrite !length_app, He, Hi, He1, Hi1.
    rewrite <- !app_assoc. auto.
Qed.

Lemma zip_app_same_length {A B} (a e : list A) (b i : list B) :
  length a = length b → zip (a ++ e) (b ++ i) = zip a b ++ zip e i.
Proof. intros H. apply zip_with_app. exact H. Qed.

(** A row saved directly stays in the tick lists, paired with its slot. *)
Lemma process_lanes_keeps_direct rows : ∀ k s t s' t' row,
  process_lanes k rows (s, t) = Ok (s', t') →
  length (experience_to_save t) = length (buffer_ids_to_save t) →
  row ∈ rows →
  agent_id (obs row) = agent_id (obs_next row) →
  (row, resolve (agents_num s) (env_id (info row)) (agent_id (obs row)))
    ∈ zip (experience_to_save t') (buffer_ids_to_save t').
Proof.
  induction rows as [|r rows IH]; intros k s t s' t' row Hrun Hlen Hin Hsame.
  - inversion Hin.
  - cbn in Hrun. apply bind_Ok in Hrun as ([s1 t1] & H1 & Hrest).
    pose proof (process_lane_grows _ _ _ _ _ _ H1)
      as (Hn1 & e1 & i1 & Hl1 & He1 & Hi1).
    assert (Hlen1 : length (experience_to_save t1)
                    = length (buffer_ids_to_save t1))
      by (rewrite He1, Hi1, !length_app; lia).
    apply elem_of_cons in Hin as [->|Hin].
    + pose proof (process_lanes_grows _ _ _ _ _ _ Hrest)
        as (Hn & e & i & Hl & He & Hi).
      apply process_lane_spec in H1 as (_ & He2 & Hi2 & _).
      rewrite decide_True in He2 by (rewrite Hsame; reflexivity).
      rewrite decide_True in Hi2 by (rewrite Hsame; reflexivity).
      rewrite He, Hi, zip_app_same_length by exact Hlen1.
      apply elem_of_app. left.
      rewrite He2, Hi2, !app_assoc. rewrite zip_app_same_length.
      * apply elem_of_app. right. cbn. apply list_elem_of_here.
      * rewrite !length_app, Hlen.
        destruct (temp_data s !! _); reflexivity.
    + rewrite <- Hn1. eapply IH; eauto.
Qed.

End MultiAgentTicks.

(** ** Same-agent consecutive turns *)

(** C5. In [MultiAgentCollector.collect], a lane whose acting agent is also
    the next agent succeeds (given a tracker entry for its environment when
    the step is terminal), appends the current row, with this tick's reward,
    next observation and termination fields, under its own slot at the end
    of the tick's lists (after the completed record of that slot, should the
    store still hold one), and leaves no pending record under that slot; at the
    end of the lane loop every such row is among the records handed to
    [buffer.add], paired with its slot.  In the interleaving
    [A A A A B A B B B B] the first three ticks hand over exactly their own
    row, the fourth hands over nothing and leaves its row pending under
    [A]'s slot, and the fifth, [B]'s first turn, hands over that row
    completed with the fifth tick's outcome: a record that waited under the
    next agent's slot leaves with its own observation and action and with
    the reward, next observation, termination fields and info of the row
    that completes it. *)
Theorem same_agent_turn_saved_directly :
  (∀ env_idx row s t,
     agent_id (obs row) = agent_id (obs_next row) →
     (done row = true →
      is_Some (done_agents_per_env s !! env_id (info row))) →
     let b := resolve (agents_num s) (env_id (info row)) (agent_id (obs row)) in
     let stale :=
       from_option (fun p => [complete p row]) [] (temp_data s !! b) in
     ∃ s' t',
       MultiAgent.process_lane env_idx row (s, t) = Ok (s', t') ∧
       MultiAgent.experience_to_save t' =
         MultiAgent.experience_to_save t ++ stale ++ [row] ∧
       MultiAgent.buffer_ids_to_save t' =
         MultiAgent.buffer_ids_to_save t ++ ((fun _ => b) <$> stale) ++ [b] ∧
       temp_data s' !! b = None) ∧
  (∀ rows k s s' t' row,
     MultiAgent.process_lanes k rows (s, MultiAgent.empty_tick) = Ok (s', t') →
     row ∈ rows →
     agent_id (obs row) = agent_id (obs_next row) →
     (row, resolve (agents_num s) (env_id (info row)) (agent_id (obs row)))
       ∈ zip (MultiAgent.experience_to_save t')
             (MultiAgent.buffer_ids_to_save t')) ∧
  (∀ env_idx row s t s' t' p,
     let b := resolve (agents_num s) (env_id (info row)) (agent_id (obs row)) in
     let next :=
       resolve (agents_num s) (env_id (info row)) (agent_id (obs_next row)) in
     temp_data s !! next = Some p →
     MultiAgent.process_lane env_idx row (s, t) = Ok (s', t') →
     ∃ x,
       MultiAgent.experience_to_save t'
         = MultiAgent.experience_to_save t
           ++ x :: (if decide (b = next) then [row] else []) ∧
       obs x = obs p ∧ act x = act p ∧
       rew x = rew row ∧ obs_next x = obs_next row ∧
       terminated x = terminated row ∧ truncated x = truncated row ∧
       done x = done row ∧ info x = info row) ∧
  (rows_of (aaaab_run 5)
     = [[aaaab_row 0]; [aaaab_row 1]; [aaaab_row 2]; [aaaab_row 3];
        [aaaab_row 4]] ∧
   aaaab_row 3
     = mkTransition (mkObs 0 3) 103 30 (mkObs 1 4) false false false
         (mkInfo 0 false false []) ∧
   aaaab_row 4
     = mkTransition (mkObs 1 4) 104 40 (mkObs 0 5) false false false
         (mkInfo 0 false false []) ∧
   handed_over (aaaab_run 5)
     = [[aaaab_row 0]; [aaaab_row 1]; [aaaab_row 2]; [];
        [mkTransition (mkObs 0 3) 103 40 (mkObs 0 5) false false false
           (mkInfo 0 false false [])]] ∧
   handed_over_ids (aaaab_run 5) = [[0]; [0]; [0]; []; [0]] ∧
   pending_after (aaaab_run 3) 0 = None ∧
   pending_after (aaaab_run 4) 0 = Some (aaaab_row 3) ∧
   pending_after (aaaab_run 5) 0 = None).
Proof.
  split; [|split; [|split]].
  - intros env_idx row s t Hsame Hkey b stale.
    set (env := env_id (info row)).
    assert (Hnext : resolve (agents_num s) env (agent_id (obs_next row)) = b)
      by (unfold b; rewrite Hsame; reflexivity).
    assert (Hok : ∃ st', MultiAgent.process_lane env_idx row (s, t) = Ok st').
    { unfold MultiAgent.process_lane. cbn [fst snd]. fold env.
      rewrite Hnext. fold b.
      rewrite MultiAgentFacts.resolve_pending_eq,
        MultiAgentFacts.save_direct_eq.
      cbn [fst snd MultiAgent.done_envs MultiAgent.experience_to_save].
      match goal with
      | |- context [mark_done ?i ?e ?nx ?r ?n (?st, ?d)] =>
          destruct (mark_done_total i e nx r n st d) as (s3 & d3 & ->)
      end.
      { cbn [set_temp_data done_agents_per_env]. exact Hkey. }
      { rewrite decide_True by reflexivity. rewrite !length_app.
        cbn [length]. lia. }
      cbn [mbind result_bind]. unfold store_pending.
      rewrite must_wait_same. cbn [mbind result_bind]. eauto. }
    destruct Hok as [[s' t'] Hok]. pose proof Hok as Hspec.
    apply MultiAgentFacts.process_lane_spec in Hspec
      as (Hn & He & Hi & _ & w & Hw & Ht).
    fold env in He, Hi, Hw, Ht. rewrite Hnext in He, Hi, Hw, Ht.
    fold b in He, Hi, Hw, Ht.
    rewrite decide_True in He by reflexivity.
    rewrite decide_True in Hi by reflexivity.
    rewrite must_wait_same in Hw.
    inversion Hw; subst w.
    exists s', t'. split; [exact Hok|].
    split; [exact He|]. split.
    + rewrite Hi. unfold stale. destruct (temp_data s !! b); reflexivity.
    + rewrite Ht. apply lookup_delete_eq.
  - intros rows k s s' t' row Hrun Hin Hsame.
    eapply MultiAgentTicks.process_lanes_keeps_direct; eauto.
  - intros env_idx row s t s' t' p b next Hp Hok.
    apply MultiAgentFacts.process_lane_spec in Hok as (_ & He & _).
    fold b next in He. rewrite Hp in He. cbn [from_option app] in He.
    exists (complete p row). split; [exact He|].
    cbn. auto 10.
  - repeat split; vm_compute; reflexivity.
Qed.

Lemma same_agent_turn_saved_directly_witness :
  (let row := make_row (turn_obs aaaab 1 0) (scripted_env aaaab 1 0 0) in
   ∃ s' t',
     MultiAgent.process_lane 0 row (fresh_store 2 1, MultiAgent.empty_tick)
       = Ok (s', t') ∧
     MultiAgent.experience_to_save t' = [row] ∧
     MultiAgent.buffer_ids_to_save t' = [0] ∧
     temp_data s' !! 0 = None) ∧
  (∃ s' t' x,
     MultiAgent.process_lane 0 (aaaab_row 4)
       (set_temp_data (<[0 := aaaab_row 3]>) (fresh_store 2 1),
        MultiAgent.empty_tick) = Ok (s', t') ∧
     MultiAgent.experience_to_save t' = [x] ∧
     obs x = mkObs 0 3 ∧ act x = 103 ∧
     rew x = 40%Z ∧ obs_next x = mkObs 0 5).
Proof.
  split.
  - intros row.
    apply (proj1 same_agent_turn_saved_directly 0 row (fresh_store 2 1)
             MultiAgent.empty_tick).
    + reflexivity.
    + intros H. vm_compute in H. discriminate.
  - destruct (MultiAgent.process_lane 0 (aaaab_row 4)
                (set_temp_data (<[0 := aaaab_row 3]>) (fresh_store 2 1),
                 MultiAgent.empty_tick)) as [[s' t']|e] eqn:E.
    + destruct (proj1 (proj2 (proj2 same_agent_turn_saved_directly))
                  0 (aaaab_row 4)
                  (set_temp_data (<[0 := aaaab_row 3]>) (fresh_store 2 1))
                  MultiAgent.empty_tick s' t' (aaaab_row 3))
        as (x & He & Ho & Ha & Hr & Hn & _).
      * vm_compute. reflexivity.
      * exact E.
      * exists s', t', x. split; [reflexivity|].
        split; [exact He|]. rewrite Ho, Ha, Hr, Hn.
        repeat split; vm_compute; reflexivity.
    + exfalso.
      assert (H : is_ok (MultiAgent.process_lane 0 (aaaab_row 4)
                (set_temp_data (<[0 := aaaab_row 3]>) (fresh_store 2 1),
                 MultiAgent.empty_tick)) = true) by (vm_compute; reflexivity).
      rewrite E in H. discriminate.
Defined.

(** ** One iteration of the loop, read off a successful [iterate] *)

Lemma iterate_inv (V : Variant) env n_step n_episode tick (L L' : Loop V)
    (lg : IterLog V) (brk : bool) :
  iterate V env n_step n_episode tick L = Ok (L', lg, brk) →
  let rows := zip_with make_row (data_obs L) (env tick <$> ready_env_ids L) in
  ∃ s1 t,
    v_lanes V tick rows (self L) (step_count L) = Ok (s1, t) ∧
    lg_rows lg = rows ∧ lg_tick lg = t ∧
    lg_steps_before lg = step_count L ∧
    lg_steps_after lg = v_step_count V (step_count L) t ∧
    step_count L' = v_step_count V (step_count L) t ∧
    lg_episodes_before lg = episode_count L ∧
    lg_ready_before lg = ready_env_ids L ∧
    lg_ready_after lg = ready_env_ids L' ∧
    episode_count L' = episode_count L + length (v_done_envs V t) ∧
    ((v_done_envs V t = [] ∧ self L' = s1 ∧
      data_obs L' = obs_next <$> rows ∧
      ready_env_ids L' = ready_env_ids L ∧
      lg_local lg = [] ∧ lg_surplus lg = None) ∨
     (v_done_envs V t ≠ [] ∧
      self L' = v_reset V (global_of <$> v_done_envs V t) s1 ∧
      lg_local lg = v_local V (local_of <$> v_done_envs V t) ∧
      lg_surplus lg =
        match n_episode with
        | Some n =>
            if truthy n_episode
            then Some (Z.of_nat (length (ready_env_ids L))
                       - (n - Z.of_nat (episode_count L
                                        + length (v_done_envs V t))))%Z
            else None
        | None => None
        end ∧
      let removed :=
        match lg_surplus lg with
        | Some z => if (0 <? z)%Z then take (Z.to_nat z) (lg_local lg) else []
        | None => []
        end in
      ready_env_ids L' = mask_out removed (ready_env_ids L) ∧
      data_obs L' =
        mask_out removed
          (_reset_env_with_ids env tick (lg_local lg)
             (global_of <$> v_done_envs V t) (obs_next <$> rows)))).
Proof.
  intros H rows. unfold iterate in H. fold rows in H.
  apply bind_Ok in H as ([s1 t] & Hlanes & H).
  exists s1, t. split; [exact Hlanes|].
  destruct (v_done_envs V t) as [|d ds] eqn:Hd; cbn [length Nat.ltb Nat.leb] in H.
  - inversion H; subst; cbn. rewrite Nat.add_0_r.
    repeat (split; [reflexivity|]). left. repeat split; reflexivity.
  - change (0 <? S (length ds)) with true in H. cbv iota in H.
    apply bind_Ok in H as ([] & _ & H).
    inversion H; subst; cbn [lg_rows lg_tick lg_steps_before lg_steps_after
      step_count lg_episodes_before lg_ready_before lg_ready_after
      episode_count self lg_local lg_surplus ready_env_ids data_obs length].
    repeat (split; [reflexivity|]). right.
    split; [discriminate|]. repeat split; reflexivity.
Qed.

Lemma final_loop_step (V : Variant) env n_step n_episode fuel tick
    (L Lf : Loop V) :
  final_loop (collect_loop V env n_step n_episode (S fuel) tick L) = Some Lf →
  length (data_obs L) = length (ready_env_ids L) ∧
  ∃ L' lg brk,
    iterate V env n_step n_episode tick L = Ok (L', lg, brk) ∧
    ((brk = true ∧ Lf = L' ∧
      log (collect_loop V env n_step n_episode (S fuel) tick L) = [lg]) ∨
     (brk = false ∧
      final_loop (collect_loop V env n_step n_episode fuel (S tick) L')
        = Some Lf ∧
      log (collect_loop V env n_step n_episode (S fuel) tick L)
        = lg :: log (collect_loop V env n_step n_episode fuel (S tick) L'))).
Proof.
  cbn [collect_loop].
  destruct (length (data_obs L) =? length (ready_env_ids L)) eqn:Hlen;
    cbn [negb]; [|discriminate].
  apply Nat.eqb_eq in Hlen. intros H. split; [exact Hlen|].
  destruct (iterate V env n_step n_episode tick L) as [[[L' lg] brk]|e];
    [|discriminate].
  exists L', lg, brk. split; [reflexivity|].
  destruct brk.
  - left. unfold final_loop in H. cbn in H. inversion H. auto.
  - right. unfold final_loop in *. cbn in H. auto.
Qed.

Lemma final_loop_zero (V : Variant) env n_step n_episode tick (L : Loop V) :
  final_loop (collect_loop V env n_step n_episode 0 tick L) = Some L ∧
  log (collect_loop V env n_step n_episode 0 tick L) = [].
Proof. split; reflexivity. Qed.

Lemma collect_final (V : Variant) env is_async env_num n_step n_episode fuel
    (s : vSelf V) data Lf :
  final_loop (collect V env is_async env_num n_step n_episode fuel s data)
    = Some Lf →
  ∃ ready data' w,
    check_targets is_async env_num n_step n_episode data
      = Ok (ready, data', w) ∧
    let r0 := collect_loop V env n_step n_episode fuel 0
                (mkLoop s data' ready 0 0 None) in
    final_loop r0 = Some Lf ∧
    log (collect V env is_async env_num n_step n_episode fuel s data) = log r0.
Proof.
  unfold collect.
  destruct (check_targets is_async env_num n_step n_episode data)
    as [[[ready data'] w]|e]; [|discriminate].
  intros H. exists ready, data', w. split; [reflexivity|].
  split; [exact H|reflexivity].
Qed.

Module MultiAgentRuns.
Import MultiAgent MultiAgentFacts MultiAgentTicks.

Lemma process_lane_budget env_idx row s t s' t' :
  process_lane env_idx row (s, t) = Ok (s', t') →
  length (buffer_ids_to_save t') + size (temp_data s')
  ≤ length (buffer_ids_to_save t) + size (temp_data s) + 1.
Proof.
  intros H. apply process_lane_spec in H as (_ & _ & Hi & _ & w & Hw & Ht).
  rewrite Hi, Ht, !length_app. clear Hi Ht.
  set (b := resolve _ _ (agent_id (obs row))) in *.
  set (next := resolve _ _ (agent_id (obs_next row))) in *.
  assert (Hsize : size (delete next (temp_data s))
                  + length (from_option (fun _ => [next]) []
                              (temp_data s !! next)) ≤ size (temp_data s)).
  { rewrite map_size_delete. destruct (temp_data s !! next) eqn:E; cbn; [|lia].
    assert (size (temp_data s) ≠ 0)
      by (apply (map_size_ne_0_lookup_2 _ next); eauto). lia. }
  unfold must_wait in Hw.
  destruct (decide (b = next)) as [Heq|Hne].
  - inversion Hw; subst w. cbn [length]. lia.
  - cbn [length]. destruct w; [|lia].
    pose proof (map_size_insert b row (delete next (temp_data s))) as Hins.
    destruct (delete next (temp_data s) !! b); cbn in Hins; lia.
Qed.

Lemma process_lanes_budget rows : ∀ k s t s' t',
  process_lanes k rows (s, t) = Ok (s', t') →
  length (buffer_ids_to_save t') + size (temp_data s')
  ≤ length (buffer_ids_to_save t) + size (temp_data s) + length rows.
Proof.
  induction rows as [|row rows IH]; intros k s t s' t' H; cbn in H.
  - inversion H; subst. cbn. lia.
  - apply bind_Ok in H as ([s1 t1] & H1 & H).
    apply process_lane_budget in H1. apply IH in H. cbn [length]. lia.
Qed.

Lemma reset_done_envs_frame gl : ∀ s,
  temp_data (reset_done_envs gl s) = temp_data s ∧
  agents_num (reset_done_envs gl s) = agents_num s.
Proof.
  unfold reset_done_envs.
  induction gl as [|e gl IH]; intros s; cbn [foldl]; [auto|].
  destruct (IH (set_done_agents <[e:=[]]> s)) as [-> ->]. auto.
Qed.

Lemma iterate_budget env n_step n_episode tick (L L' : Loop multi_agent)
    lg brk :
  iterate multi_agent env n_step n_episode tick L = Ok (L', lg, brk) →
  flushed_in lg + size (temp_data (self L'))
  ≤ size (temp_data (self L)) + length (lg_rows lg).
Proof.
  intros H. apply iterate_inv in H
    as (s1 & t & Hlanes & Hrows & Htick & _ & _ & _ & _ & _ & _ & _ & Hcase).
  cbn in Hlanes. apply process_lanes_budget in Hlanes. cbn in Hlanes.
  unfold flushed_in. rewrite Htick, Hrows. cbn [v_buffer_ids multi_agent].
  assert (Ht : temp_data (self L') = temp_data s1).
  { destruct Hcase as [(_ & -> & _)|(_ & -> & _)]; [reflexivity|].
    cbn. apply reset_done_envs_frame. }
  rewrite Ht. lia.
Qed.

Lemma total_flushed_cons {V} (lg : IterLog V) l :
  total_flushed (lg :: l) = flushed_in lg + total_flushed l.
Proof. reflexivity. Qed.

Lemma total_lanes_cons {V} (lg : IterLog V) l :
  total_lanes (lg :: l) = length (lg_rows lg) + total_lanes l.
Proof. reflexivity. Qed.

Lemma collect_loop_budget env n_step n_episode fuel :
  ∀ tick (L Lf : Loop multi_agent),
  let r := collect_loop multi_agent env n_step n_episode fuel tick L in
  final_loop r = Some Lf →
  total_flushed (log r) + size (temp_data (self Lf))
  ≤ size (temp_data (self L)) + total_lanes (log r).
Proof.
  induction fuel as [|fuel IH]; intros tick L Lf r Hf; subst r.
  - cbn in Hf. inversion Hf; subst. cbn. lia.
  - apply final_loop_step in Hf as (_ & L' & lg & brk & Hit & Hcase).
    apply iterate_budget in Hit.
    destruct Hcase as [(_ & -> & ->)|(_ & Hf' & ->)].
    + rewrite total_flushed_cons, total_lanes_cons.
      change (total_flushed (@nil (IterLog multi_agent))) with 0.
      change (total_lanes (@nil (IterLog multi_agent))) with 0. lia.
    + apply IH in Hf'. rewrite total_flushed_cons, total_lanes_cons. lia.
Qed.

End MultiAgentRuns.

(** A property of the iterations that follows from a loop invariant holds for
    every entry of the log. *)
Lemma collect_loop_log_Forall (V : Variant) env n_step n_episode
    (Inv : Loop V → Prop) (P : IterLog V → Prop) :
  (∀ tick L L' lg brk,
     Inv L → length (data_obs L) = length (ready_env_ids L) →
     iterate V env n_step n_episode tick L = Ok (L', lg, brk) →
     Inv L' ∧ P lg) →
  ∀ fuel tick L, Inv L →
    Forall P (log (collect_loop V env n_step n_episode fuel tick L)).
Proof.
  intros Hstep fuel. induction fuel as [|fuel IH]; intros tick L HI.
  - constructor.
  - cbn [collect_loop].
    destruct (length (data_obs L) =? length (ready_env_ids L)) eqn:Hlen;
      cbn [negb]; [|constructor].
    apply Nat.eqb_eq in Hlen.
    destruct (iterate V env n_step n_episode tick L) as [[[L' lg] brk]|e] eqn:Hit;
      [|constructor].
    destruct (Hstep _ _ _ _ _ HI Hlen Hit) as [HI' HP].
    destruct brk; cbn [log].
    + constructor; [exact HP|constructor].
    + constructor; [exact HP|apply IH; exact HI'].
Qed.

Lemma collect_log_Forall (V : Variant) env is_async env_num n_step n_episode
    (Inv : Loop V → Prop) (P : IterLog V → Prop) fuel (s : vSelf V) data :
  (∀ tick L L' lg brk,
     Inv L → length (data_obs L) = length (ready_env_ids L) →
     iterate V env n_step n_episode tick L = Ok (L', lg, brk) →
     Inv L' ∧ P lg) →
  (∀ ready data' w,
     check_targets is_async env_num n_step n_episode data
       = Ok (ready, data', w) →
     Inv (mkLoop s data' ready 0 0 None)) →
  Forall P (log (collect V env is_async env_num n_step n_episode fuel s data)).
Proof.
  intros Hstep Hinit. unfold collect.
  destruct (check_targets is_async env_num n_step n_episode data)
    as [[[ready data'] w]|e] eqn:Hc; cbn [log]; [|constructor].
  eapply collect_loop_log_Forall; eauto.
Qed.

Module MultiAgentOutcome.
Import MultiAgent MultiAgentFacts MultiAgentTicks.

Lemma outcome_of_complete p row : outcome_of row (complete p row).
Proof. unfold outcome_of; cbn; auto 7. Qed.

Lemma outcome_of_refl row : outcome_of row row.
Proof. unfold outcome_of; auto 7. Qed.

Lemma process_lane_outcome env_idx row s t s' t' x :
  process_lane env_idx row (s, t) = Ok (s', t') →
  x ∈ experience_to_save t' →
  x ∈ experience_to_save t ∨ outcome_of row x.
Proof.
  intros H Hx. apply process_lane_spec in H as (_ & He & _).
  rewrite He in Hx. apply elem_of_app in Hx as [Hx|Hx]; [left; exact Hx|].
  right. apply elem_of_app in Hx as [Hx|Hx].
  - destruct (temp_data s !! _) as [p|]; cbn in Hx.
    + apply list_elem_of_singleton in Hx as ->. apply outcome_of_complete.
    + inversion Hx.
  - destruct (decide _).
    + apply list_elem_of_singleton in Hx as ->. apply outcome_of_refl.
    + inversion Hx.
Qed.

Lemma process_lanes_outcome rows : ∀ k s t s' t' x,
  process_lanes k rows (s, t) = Ok (s', t') →
  x ∈ experience_to_save t' →
  x ∈ experience_to_save t ∨ ∃ row, row ∈ rows ∧ outcome_of row x.
Proof.
  induction rows as [|row rows IH]; intros k s t s' t' x H Hx; cbn in H.
  - inversion H; subst. left. exact Hx.
  - apply bind_Ok in H as ([s1 t1] & H1 & H).
    destruct (IH _ _ _ _ _ _ H Hx) as [Hx1|(r & Hr & Ho)].
    + destruct (process_lane_outcome _ _ _ _ _ _ _ H1 Hx1) as [Hx0|Ho].
      * left. exact Hx0.
      * right. exists row. split; [apply list_elem_of_here|exact Ho].
    + right. exists r. split; [apply list_elem_of_further; exact Hr|exact Ho].
Qed.

Lemma iterate_outcome env n_step n_episode tick (L L' : Loop multi_agent)
    lg brk x :
  iterate multi_agent env n_step n_episode tick L = Ok (L', lg, brk) →
  x ∈ experience_to_save (lg_tick lg) →
  ∃ row, row ∈ lg_rows lg ∧ outcome_of row x.
Proof.
  intros H Hx. apply iterate_inv in H as (s1 & t & Hlanes & Hrows & Htick & _).
  cbn in Hlanes. rewrite Htick in Hx. rewrite Hrows.
  destruct (process_lanes_outcome _ _ _ _ _ _ _ Hlanes Hx) as [Hx0|Hr].
  - inversion Hx0.
  - exact Hr.
Qed.

End MultiAgentOutcome.

Module SingleLane.
Import MultiAgent MultiAgentFacts MultiAgentTicks.

Section OneEnvironment.

Variable env : nat → nat → StepOut.
Hypothesis env_id_0 : ∀ t, env_id (so_info (env t 0)) = 0.
Hypothesis never_done :
  ∀ t, so_terminated (env t 0) = false ∧ so_truncated (env t 0) = false.

Lemma iterate_single n_step n_episode tick (L : Loop multi_agent) :
  single_lane_invariant L →
  ∃ L' lg brk,
    iterate multi_agent env n_step n_episode tick L = Ok (L', lg, brk) ∧
    single_lane_invariant L' ∧ length (lg_rows lg) = 1 ∧
    flushed_in lg + size (temp_data (self L'))
      = size (temp_data (self L)) + 1.
Proof.
  intros (o & Hdata & Hready & Htr & Hn & Hfree).
  set (row := make_row o (env tick 0)).
  assert (Hrows : zip_with make_row (data_obs L) (env tick <$> ready_env_ids L)
                  = [row]) by (rewrite Hdata, Hready; reflexivity).
  assert (Hdone : done row = false).
  { cbn. destruct (never_done tick) as [-> ->]. reflexivity. }
  assert (Henv : env_id (info row) = 0) by (cbn; apply env_id_0).
  set (s := self L) in *.
  set (b := resolve (agents_num s) 0 (agent_id o)) in *.
  set (next := resolve (agents_num s) 0 (agent_id (obs_next row))).
  assert (Hwait : must_wait b next 0 s
                  = Ok (if decide (b = next) then false else true)).
  { unfold must_wait. destruct (decide (b = next)); [reflexivity|].
    unfold getitem. rewrite Htr. cbn [mbind result_bind length].
    assert (Hz : (0 =? agents_num s) = false)
      by (apply Nat.eqb_neq; fold s in Hn; lia).
    rewrite Hz. rewrite bool_decide_eq_false_2 by (intros Hin; inversion Hin).
    reflexivity. }
  assert (Hlane : ∃ s1 t1, process_lane 0 row (s, empty_tick) = Ok (s1, t1)).
  { unfold process_lane. cbn [fst snd]. rewrite Henv.
    change (obs row) with o. fold b next.
    rewrite resolve_pending_eq, save_direct_eq. cbn [fst snd].
    unfold mark_done. cbn [fst snd]. rewrite Hdone. cbn [mbind result_bind].
    unfold store_pending.
    assert (Hw' : must_wait b next 0 (set_temp_data (delete next) s)
                  = must_wait b next 0 s) by reflexivity.
    rewrite Hw', Hwait. cbn [mbind result_bind].
    destruct (decide (b = next)); eauto. }
  destruct Hlane as (s1 & t1 & Hlane).
  pose proof Hlane as Hspec.
  apply process_lane_spec in Hspec as (Hn1 & He & Hi & Hmark & w & Hw & Ht).
  rewrite Henv in He, Hi, Hmark, Hw, Ht.
  change (obs row) with o in He, Hi, Hw, Ht. fold b next in He, Hi, Hw, Ht.
  destruct Hmark as [(_ & Htr1 & Hd1)|(Habs & _)]; [|congruence].
  assert (Hw1 : must_wait b next 0 s1 = must_wait b next 0 s).
  { unfold must_wait. rewrite Hn1, Htr1. reflexivity. }
  rewrite Hw1, Hwait in Hw. inversion Hw as [Hwv]. clear Hw.
  assert (Hlanes : v_lanes multi_agent tick [row] s (step_count L)
                   = Ok (s1, t1)).
  { change (process_lanes 0 [row] (s, empty_tick) = Ok (s1, t1)).
    cbn [process_lanes]. rewrite Hlane. reflexivity. }
  assert (Hit : ∃ L' lg brk,
             iterate multi_agent env n_step n_episode tick L = Ok (L', lg, brk)
             ∧ self L' = s1 ∧ data_obs L' = [obs_next row]
             ∧ ready_env_ids L' = [0] ∧ lg_rows lg = [row] ∧ lg_tick lg = t1).
  { unfold iterate. rewrite Hrows. fold s. rewrite Hlanes.
    cbn [mbind result_bind]. cbn [v_done_envs multi_agent]. rewrite Hd1.
    cbn [empty_tick done_envs length Nat.ltb Nat.leb].
    eexists _, _, _. split; [reflexivity|]. cbn. rewrite Hready. auto. }
  destruct Hit as (L' & lg & brk & Hit & Hs' & Hd' & Hr' & Hlr & Hlt).
  exists L', lg, brk. split; [exact Hit|]. split; [|split].
  - exists (obs_next row). rewrite Hs', Hn1, Htr1.
    repeat (split; [assumption|]). fold next.
    rewrite Ht. destruct w.
    + destruct (decide (b = next)); [discriminate|].
      rewrite lookup_insert_ne by assumption. apply lookup_delete_eq.
    + apply lookup_delete_eq.
  - rewrite Hlr. reflexivity.
  - unfold flushed_in. rewrite Hlt, Hs'. cbn [v_buffer_ids multi_agent].
    rewrite Hi, Ht. cbn [empty_tick buffer_ids_to_save app].
    rewrite length_app.
    destruct (decide (b = next)) as [Heq|Hne]; subst w.
    + rewrite <- Heq, Hfree. rewrite map_size_delete, Hfree.
      cbn [from_option length id]. lia.
    + rewrite map_size_insert, lookup_delete_ne by congruence.
      rewrite Hfree. rewrite map_size_delete.
      destruct (temp_data s !! next) eqn:E; cbn [from_option length id];
        [|lia].
      assert (size (temp_data s) ≠ 0)
        by (apply (map_size_ne_0_lookup_2 _ next); eauto). lia.
Qed.

Lemma collect_loop_single n_step n_episode fuel :
  ∀ tick (L : Loop multi_agent), single_lane_invariant L →
  let r := collect_loop multi_agent env n_step n_episode fuel tick L in
  ∃ Lf, final_loop r = Some Lf ∧ total_lanes (log r) = length (log r) ∧
        total_flushed (log r) + size (temp_data (self Lf))
          = size (temp_data (self L)) + length (log r).
Proof.
  induction fuel as [|fuel IH]; intros tick L HI r; subst r.
  - exists L. cbn. auto.
  - pose proof HI as (o & Hd & Hr & _).
    destruct (iterate_single n_step n_episode tick L HI)
      as (L' & lg & brk & Hit & HI' & Hrows & Heq).
    cbn [collect_loop]. rewrite Hd, Hr, Hit. cbn [length Nat.eqb negb].
    destruct brk.
    + exists L'. cbn [log run_outcome].
      rewrite MultiAgentRuns.total_flushed_cons,
        MultiAgentRuns.total_lanes_cons, Hrows.
      change (total_flushed (@nil (IterLog multi_agent))) with 0.
      change (total_lanes (@nil (IterLog multi_agent))) with 0.
      split; [reflexivity|]. split; [reflexivity|]. cbn [length]. lia.
    + destruct (IH (S tick) L' HI') as (Lf & Hf & Hl & Hsum).
      exists Lf. cbn [log].
      rewrite MultiAgentRuns.total_flushed_cons,
        MultiAgentRuns.total_lanes_cons, Hrows.
      split; [exact Hf|]. cbn [length]. lia.
Qed.

End OneEnvironment.

End SingleLane.

(** ** Turn completeness *)

(** C1, the claim as stated fails.  On the interleaving
    [A A A A B A B B B B] of the specification the ten ticks hand nine
    records to the buffer, and the record of [A]'s fourth turn, handed over
    on the fifth tick, does not carry the observation produced right after
    its own action (the one of the fourth tick) as its next observation. *)
Lemma turn_completeness_counterexample :
  length (log (aaaab_run 10)) = 10 ∧
  total_flushed (log (aaaab_run 10)) = 9 ∧
  rows_of (aaaab_run 10) !! 3 = Some [aaaab_row 3] ∧
  handed_over (aaaab_run 10) !! 4
    = Some [complete (aaaab_row 3) (aaaab_row 4)] ∧
  obs_next (complete (aaaab_row 3) (aaaab_row 4)) ≠ obs_next (aaaab_row 3).
Proof.
  repeat split; try (vm_compute; reflexivity).
  vm_compute. discriminate.
Qed.

(** C1, amended.  For [MultiAgentCollector.collect]:
    - over any run that does not raise, the records handed to the buffer
      plus the records still pending at the end are at most the records
      pending at the start plus the lanes processed (one per tick and
      environment);
    - every record handed over on a tick carries the reward, next
      observation, termination flags and info of a row of that same tick,
      so a record that waited in the pending store has as next observation
      the one produced when its slot came up again, not the one produced
      right after its own action;
    - for a single environment that never reports [done], started with an
      empty tracker and no pending record for the first agent, the run does
      not raise and the two sides are equal: handed over plus still pending
      equals pending at the start plus the number of ticks. *)
Theorem turn_completeness_amended :
  (∀ env is_async env_num n_step n_episode fuel s data Lf,
     let r := collect multi_agent env is_async env_num n_step n_episode
                fuel s data in
     final_loop r = Some Lf →
     total_flushed (log r) + size (temp_data (self Lf))
       ≤ size (temp_data s) + total_lanes (log r)) ∧
  (∀ env is_async env_num n_step n_episode fuel s data
     (lg : IterLog multi_agent) x,
     lg ∈ log (collect multi_agent env is_async env_num n_step n_episode
                 fuel s data) →
     x ∈ MultiAgent.experience_to_save (lg_tick lg) →
     ∃ row, row ∈ lg_rows lg ∧ outcome_of row x) ∧
  (∀ env (n : Z) fuel s o,
     (0 < n)%Z →
     (∀ t, env_id (so_info (env t 0)) = 0) →
     (∀ t, so_terminated (env t 0) = false ∧ so_truncated (env t 0) = false) →
     agents_num s ≠ 0 →
     done_agents_per_env s !! 0 = Some [] →
     temp_data s !! resolve (agents_num s) 0 (agent_id o) = None →
     let r := collect multi_agent env false 1 (Some n) None fuel s [o] in
     ∃ Lf, final_loop r = Some Lf ∧
           total_lanes (log r) = length (log r) ∧
           total_flushed (log r) + size (temp_data (self Lf))
             = size (temp_data s) + length (log r)).
Proof.
  split; [|split].
  - intros env is_async env_num n_step n_episode fuel s data Lf r Hf. subst r.
    apply collect_final in Hf as (ready & data' & w & _ & Hf & ->).
    apply MultiAgentRuns.collect_loop_budget in Hf. exact Hf.
  - intros env is_async env_num n_step n_episode fuel s data lg x Hlg Hx.
    assert (HF : Forall (fun lg : IterLog multi_agent =>
                   ∀ x, x ∈ MultiAgent.experience_to_save (lg_tick lg) →
                        ∃ row, row ∈ lg_rows lg ∧ outcome_of row x)
                   (log (collect multi_agent env is_async env_num n_step
                           n_episode fuel s data))).
    { apply (collect_log_Forall multi_agent env is_async env_num n_step
               n_episode (fun _ => True)); [|auto].
      intros tick L L' lg' brk _ _ Hit. split; [exact I|].
      intros y Hy. eapply MultiAgentOutcome.iterate_outcome; eauto. }
    rewrite Forall_forall in HF. exact (HF lg Hlg x Hx).
  - intros env n fuel s o Hn Hid Hnd Hag Htr Hfree r. subst r.
    unfold collect, check_targets.
    cbn [negb py_assert mbind result_bind].
    rewrite bool_decide_eq_true_2 by reflexivity. cbn [mbind result_bind].
    assert (Hpos : (0 <? n)%Z = true) by (apply Z.ltb_lt; exact Hn).
    rewrite Hpos. cbn [mbind result_bind Nat.eqb seq].
    destruct (SingleLane.collect_loop_single env Hid Hnd (Some n) None fuel 0
                (mkLoop (s : vSelf multi_agent) [o] [0] 0 0 None))
      as (Lf & Hf & Hl & Hsum).
    { exists o. cbn. auto. }
    exists Lf. auto.
Qed.

Lemma turn_completeness_amended_witness :
  ∃ Lf, final_loop (aaaab_run 10) = Some Lf ∧
        total_lanes (log (aaaab_run 10)) = length (log (aaaab_run 10)) ∧
        total_flushed (log (aaaab_run 10)) + size (temp_data (self Lf))
          = size (temp_data (fresh_store 2 1)) + length (log (aaaab_run 10)).
Proof.
  apply (proj2 (proj2 turn_completeness_amended)
           (scripted_env aaaab 1) 100%Z 10 (fresh_store 2 1)
           (turn_obs aaaab 1 0)).
  - lia.
  - intros t. reflexivity.
  - intros t. split; reflexivity.
  - cbn. lia.
  - reflexivity.
  - reflexivity.
Defined.

(** ** The steps of a lane of the collective collector *)

Module CollectiveFacts.
Import Collective.

Lemma py_assert_Ok c u : py_assert c = Ok u ↔ c = true.
Proof. destruct c, u; cbn; split; congruence. Qed.

Lemma empty_array_valid n : valid (empty_array n) = [].
Proof.
  unfold valid, empty_array. induction n as [|n IH]; [reflexivity|].
  cbn [replicate]. rewrite filter_cons_False by (intros H; apply H; reflexivity).
  exact IH.
Qed.

Lemma mark_filling_spec env agent b s s' :
  mark_filling env agent b s = Ok s' →
  ∃ arr l,
    filling s !! env = Some arr ∧ arr !! agent = Some (-1)%Z ∧
    done_agents_per_env (store s) !! env = Some l ∧
    s' = set_filling
           (<[env := <[agent := if bool_decide (b ∈ l) then (-1)%Z
                                else Z.of_nat b]> arr]>) s.
Proof.
  unfold mark_filling. intros H.
  apply bind_Ok in H as (arr & Harr & H). apply getitem_Ok in Harr.
  apply bind_Ok in H as (x & Hx & H).
  apply bind_Ok in H as ([] & Hass & H). apply py_assert_Ok in Hass.
  apply bool_decide_eq_true in Hass. subst x.
  apply bind_Ok in H as (l & Hl & H). apply getitem_Ok in Hl.
  unfold array_get in Hx. destruct (arr !! agent) as [y|] eqn:Hy; [|discriminate].
  inversion Hx; subst y. inversion H; subst s'.
  exists arr, l. auto.
Qed.

(** The assertion of line 259. *)
Lemma mark_filling_occupied env agent b s arr x :
  filling s !! env = Some arr → arr !! agent = Some x → x ≠ (-1)%Z →
  mark_filling env agent b s = Raise AssertionError.
Proof.
  intros Harr Hx Hne. unfold mark_filling, getitem, array_get.
  rewrite Harr. cbn [mbind result_bind]. rewrite Hx. cbn [mbind result_bind].
  rewrite bool_decide_eq_false_2 by exact Hne. reflexivity.
Qed.

Lemma snapshot_spec env row s s' :
  snapshot env row s = Ok s' →
  (s' = s ∧
   ((environment_step (info row) || explicit_reset (info row)) = false ∨
    (∃ arr, filling s !! env = Some arr ∧ valid arr = []))) ∨
  ((environment_step (info row) || explicit_reset (info row)) = true ∧
   ∃ arr, filling s !! env = Some arr ∧ valid arr ≠ [] ∧
          s' = set_filling (<[env := empty_array (agents_num (store s))]>)
                 (set_ready (<[env := arr]>) s)).
Proof.
  unfold snapshot.
  destruct (environment_step (info row) || explicit_reset (info row)).
  - intros H. apply bind_Ok in H as (arr & Harr & H). apply getitem_Ok in Harr.
    destruct (valid arr) as [|v vs] eqn:Hv; cbn in H; inversion H; subst s'.
    + left. split; [reflexivity|]. right. exists arr. auto.
    + right. split; [reflexivity|]. exists arr. rewrite Hv. auto.
  - intros H. inversion H. left. auto.
Qed.

Lemma accumulate_spec env x b s s' :
  accumulate env x b s = Ok s' →
  ∃ exps ids,
    exps_to_save s !! env = Some exps ∧ ids_to_save s !! env = Some ids ∧
    (b ∉ ids) ∧
    s' = set_ids (<[env := ids ++ [b]]>) (set_exps (<[env := exps ++ [x]]>) s).
Proof.
  unfold accumulate. intros H.
  apply bind_Ok in H as (exps & He & H). apply getitem_Ok in He.
  apply bind_Ok in H as (ids & Hi & H). apply getitem_Ok in Hi.
  apply bind_Ok in H as ([] & Hass & H). apply py_assert_Ok in Hass.
  apply negb_true_iff, bool_decide_eq_false in Hass.
  inversion H; subst s'. exists exps, ids. auto.
Qed.

Lemma resolve_pending_spec env next row s s' :
  resolve_pending env next row s = Ok s' →
  (temp_data (store s) !! next = None ∧ s' = s) ∨
  (∃ p s1, temp_data (store s) !! next = Some p ∧
           accumulate env (complete p row) next s = Ok s1 ∧
           s' = set_store (set_temp_data (delete next)) s1).
Proof.
  unfold resolve_pending.
  destruct (temp_data (store s) !! next) as [p|].
  - intros H. apply bind_Ok in H as (s1 & H1 & H). inversion H; subst s'.
    right. exists p, s1. auto.
  - intros H. inversion H. left. auto.
Qed.

Lemma save_direct_spec env b next row s s' :
  save_direct env b next row s = Ok s' →
  (b ≠ next ∧ s' = s) ∨
  (b = next ∧
   ∃ s2, accumulate env row b (set_store (set_temp_data (<[b := row]>)) s)
           = Ok s2 ∧
         s' = set_store (set_temp_data (delete b)) s2).
Proof.
  unfold save_direct. destruct (decide (b = next)) as [Heq|Hne].
  - intros H. apply bind_Ok in H as (s2 & H2 & H). inversion H; subst s'.
    right. split; [exact Heq|]. exists s2. auto.
  - intros H. inversion H. left. auto.
Qed.

Lemma flush_round_spec pos env s t s' t' :
  flush_round pos env (s, t) = Ok (s', t') →
  (s' = s ∧ t' = t) ∨
  (∃ r ids exps,
     ready s !! env = Some r ∧ ids_to_save s !! env = Some ids ∧
     exps_to_save s !! env = Some exps ∧
     valid r ≠ [] ∧ sorted (valid r) = sorted (Z.of_nat <$> ids) ∧
     s' = set_ready (<[env := empty_array (agents_num (store s))]>)
            (set_ids (<[env := []]>) (set_exps (<[env := []]>) s)) ∧
     t' = mkTick (experience_to_save t ++ _add_extra_info pos r exps)
                 (buffer_ids_to_save t ++ ids) (done_envs t)
                 (step_count t + 1) (rounds t ++ [mkRound env r ids])).
Proof.
  unfold flush_round. cbn [fst snd]. intros H.
  apply bind_Ok in H as (r & Hr & H). apply getitem_Ok in Hr.
  destruct (0 <? length (sorted (valid r))) eqn:Hlen.
  - apply bind_Ok in H as (ids & Hi & H). apply getitem_Ok in Hi.
    destruct (decide (sorted (valid r) = sorted (Z.of_nat <$> ids)))
      as [Heq|Hne].
    + apply bind_Ok in H as (exps & He & H). apply getitem_Ok in He.
      inversion H; subst s' t'. right. exists r, ids, exps.
      repeat (split; [assumption || reflexivity|]).
      split; [|auto].
      intros Hnil. rewrite Hnil in Hlen. discriminate.
    + inversion H. left. auto.
  - inversion H. left. auto.
Qed.

(** The chain of steps behind a successful lane. *)
Lemma process_lane_inv pos env_idx row s t s' t' :
  process_lane pos env_idx row (s, t) = Ok (s', t') →
  let env := env_id (info row) in
  let n := agents_num (store s) in
  let b := resolve n env (agent_id (obs row)) in
  let next := resolve n env (agent_id (obs_next row)) in
  ∃ s1 s2 s3 s4 s5 t5 b6 d6 b7,
    mark_filling env (agent_id (obs row)) b s = Ok s1 ∧
    snapshot env row s1 = Ok s2 ∧
    resolve_pending env next row s2 = Ok s3 ∧
    save_direct env b next row s3 = Ok s4 ∧
    flush_round pos env (s4, t) = Ok (s5, t5) ∧
    mark_done env_idx env next row (length (experience_to_save t5))
      (store s5, done_envs t5) = Ok (b6, d6) ∧
    store_pending b next env row b6 = Ok b7 ∧
    s' = set_store (fun _ => b7) s5 ∧
    t' = mkTick (experience_to_save t5) (buffer_ids_to_save t5) d6
                (step_count t5) (rounds t5).
Proof.
  intros H env n b next. unfold process_lane in H. cbn [fst snd] in H.
  fold env n b next in H.
  apply bind_Ok in H as (s1 & H1 & H).
  apply bind_Ok in H as (s2 & H2 & H).
  apply bind_Ok in H as (s3 & H3 & H).
  apply bind_Ok in H as (s4 & H4 & H).
  apply bind_Ok in H as ([s5 t5] & H5 & H).
  apply bind_Ok in H as ([b6 d6] & H6 & H).
  apply bind_Ok in H as (b7 & H7 & H).
  inversion H; subst s' t'.
  exists s1, s2, s3, s4, s5, t5, b6, d6, b7. auto 10.
Qed.

End CollectiveFacts.

(** ** The [filling] assertion of the collective collector *)

Module CollectiveFilling.
Import Collective CollectiveFacts.

Lemma accumulate_filling env x b s s' :
  accumulate env x b s = Ok s' →
  filling s' = filling s ∧ ready s' = ready s ∧ store s' = store s.
Proof.
  intros H. apply accumulate_spec in H as (exps & ids & _ & _ & _ & ->).
  auto.
Qed.

Lemma resolve_pending_filling env next row s s' :
  resolve_pending env next row s = Ok s' →
  filling s' = filling s ∧ ready s' = ready s ∧
  agents_num (store s') = agents_num (store s) ∧
  done_agents_per_env (store s') = done_agents_per_env (store s).
Proof.
  intros H. apply resolve_pending_spec in H
    as [(_ & ->)|(p & s1 & _ & Hacc & ->)]; [auto|].
  apply accumulate_filling in Hacc as (Hf & Hr & Hs). cbn.
  rewrite Hf, Hr, Hs. auto.
Qed.

Lemma save_direct_filling env b next row s s' :
  save_direct env b next row s = Ok s' →
  filling s' = filling s ∧ ready s' = ready s ∧
  agents_num (store s') = agents_num (store s) ∧
  done_agents_per_env (store s') = done_agents_per_env (store s).
Proof.
  intros H. apply save_direct_spec in H as [(_ & ->)|(_ & s2 & Hacc & ->)];
    [auto|].
  apply accumulate_filling in Hacc as (Hf & Hr & Hs). cbn.
  rewrite Hf, Hr, Hs. auto.
Qed.

Lemma flush_round_filling pos env s t s' t' :
  flush_round pos env (s, t) = Ok (s', t') →
  filling s' = filling s ∧ store s' = store s.
Proof.
  intros H. apply flush_round_spec in H
    as [(-> & _)|(r & ids & exps & _ & _ & _ & _ & _ & -> & _)]; auto.
Qed.

(** What a successful lane does to [filling]: the acting agent's entry was
    empty and is written; a signal with a non-empty array then moves the
    array to [ready]. *)
Lemma process_lane_filling pos env_idx row s t s' t' :
  process_lane pos env_idx row (s, t) = Ok (s', t') →
  let env := env_id (info row) in
  let agent := agent_id (obs row) in
  let b := resolve (agents_num (store s)) env agent in
  ∃ arr l,
    filling s !! env = Some arr ∧ arr !! agent = Some (-1)%Z ∧
    done_agents_per_env (store s) !! env = Some l ∧
    let arr' := <[agent := if bool_decide (b ∈ l) then (-1)%Z
                           else Z.of_nat b]> arr in
    filling s' =
      if (environment_step (info row) || explicit_reset (info row))
         && (0 <? length (valid arr'))
      then <[env := empty_array (agents_num (store s))]> (filling s)
      else <[env := arr']> (filling s).
Proof.
  intros H env agent b.
  apply process_lane_inv in H
    as (s1 & s2 & s3 & s4 & s5 & t5 & b6 & d6 & b7
        & H1 & H2 & H3 & H4 & H5 & _ & _ & -> & _).
  fold env agent b in H1, H2, H3, H4, H5.
  apply mark_filling_spec in H1 as (arr & l & Harr & Hx & Hl & ->).
  exists arr, l. repeat (split; [assumption|]). intros arr'. fold arr' in H2.
  apply resolve_pending_filling in H3 as (Hf3 & _).
  apply save_direct_filling in H4 as (Hf4 & _).
  apply flush_round_filling in H5 as (Hf5 & _).
  cbn [filling set_store]. rewrite Hf5, Hf4, Hf3.
  apply snapshot_spec in H2
    as [(-> & Hcase)|(Hsig & arr2 & Harr2 & Hv & ->)];
    cbn [filling set_filling set_ready store agents_num] in *.
  - destruct Hcase as [->|(arr2 & Harr2 & Hv)]; [reflexivity|].
    rewrite lookup_insert_eq in Harr2. inversion Harr2; subst arr2.
    rewrite Hv. cbn [length Nat.ltb Nat.leb]. rewrite andb_false_r.
    reflexivity.
  - rewrite lookup_insert_eq in Harr2. inversion Harr2; subst arr2.
    rewrite Hsig. destruct (valid arr') eqn:E; [congruence|].
    cbn [length Nat.ltb Nat.leb andb]. apply insert_insert_eq.
Qed.

(** An occupied entry survives whatever [undisturbed] allows. *)
Lemma undisturbed_keeps_entry e s s' :
  undisturbed e s s' →
  ∀ arr a x, filling s !! e = Some arr → arr !! a = Some x → x ≠ (-1)%Z →
  ∃ arr', filling s' !! e = Some arr' ∧ arr' !! a = Some x.
Proof.
  induction 1 as [s|s t pos env_idx row s1 t1 s2 Hlane Hquiet _ IH
                 |s e' s2 Hne _ IH];
    intros arr a x Harr Hx Hocc.
  - exists arr. auto.
  - apply process_lane_filling in Hlane
      as (arr0 & l & Harr0 & Hx0 & _ & Hf).
    cbn zeta in Hf.
    destruct (decide (env_id (info row) = e)) as [Heq|Hneq].
    + destruct (Hquiet Heq) as [Hs1 Hs2]. rewrite Hs1, Hs2 in Hf.
      cbn [orb andb] in Hf. rewrite Heq in Harr0, Hf.
      rewrite Harr in Harr0. inversion Harr0; subst arr0.
      assert (Hag : agent_id (obs row) ≠ a).
      { intros Ha. rewrite Ha, Hx in Hx0. congruence. }
      eapply IH; [rewrite Hf; apply lookup_insert_eq| |exact Hocc].
      rewrite list_lookup_insert_ne by exact Hag. exact Hx.
    + eapply IH; [|exact Hx|exact Hocc].
      rewrite Hf. destruct (_ && _);
        rewrite lookup_insert_ne by exact Hneq; exact Harr.
  - eapply IH; [|exact Hx|exact Hocc].
    cbn. rewrite lookup_insert_ne by exact Hne. exact Harr.
Qed.

End CollectiveFilling.

(** C8, the claim as stated fails.  In the run [done_agent_twice] agent 0 of
    environment 0 acts on two consecutive ticks with no [environment_step] or
    [explicit_reset] signal and no completed environment in between, and
    [collect] does not raise: the agent had been marked done before, so its
    [filling] entry was written as [-1]. *)
Lemma filling_assertion_counterexample :
  raised done_agent_twice = None ∧
  (fun row => (env_id (info row), agent_id (obs row),
               environment_step (info row) || explicit_reset (info row)))
    <$> all_rows done_agent_twice
    = [(0, 1, false); (0, 0, false); (0, 0, false)] ∧
  (fun lg : IterLog (collective scenario_pos) =>
     Collective.done_envs (lg_tick lg)) <$> log done_agent_twice
    = [[]; []; []].
Proof. repeat split; vm_compute; reflexivity. Qed.

(** C8, amended.  In [CollectiveExperienceCollector.collect] a lane whose
    acting agent's [filling] entry is not [-1] raises [AssertionError]
    before anything is written.  Consequently, when an agent that is not
    marked done acts in a lane without an [environment_step] or
    [explicit_reset] signal, and then acts again for the same environment
    after any number of successful lanes that carry no such signal for this
    environment and resets of other environments only, the second lane
    raises [AssertionError]. *)
Theorem filling_assertion_amended :
  (∀ pos env_idx row s t arr x,
     Collective.filling s !! env_id (info row) = Some arr →
     arr !! agent_id (obs row) = Some x → x ≠ (-1)%Z →
     Collective.process_lane pos env_idx row (s, t) = Raise AssertionError) ∧
  (∀ pos env_idx row s t s1 t1 s2 pos' env_idx' row' t',
     Collective.process_lane pos env_idx row (s, t) = Ok (s1, t1) →
     environment_step (info row) = false →
     explicit_reset (info row) = false →
     (∀ l, done_agents_per_env (Collective.store s) !! env_id (info row)
             = Some l →
           resolve (agents_num (Collective.store s)) (env_id (info row))
                   (agent_id (obs row)) ∉ l) →
     undisturbed (env_id (info row)) s1 s2 →
     env_id (info row') = env_id (info row) →
     agent_id (obs row') = agent_id (obs row) →
     Collective.process_lane pos' env_idx' row' (s2, t')
       = Raise AssertionError).
Proof.
  assert (Hfirst : ∀ pos env_idx row s t arr x,
     Collective.filling s !! env_id (info row) = Some arr →
     arr !! agent_id (obs row) = Some x → x ≠ (-1)%Z →
     Collective.process_lane pos env_idx row (s, t) = Raise AssertionError).
  { intros pos env_idx row s t arr x Harr Hx Hocc.
    unfold Collective.process_lane. cbn [fst snd].
    erewrite CollectiveFacts.mark_filling_occupied by eassumption.
    reflexivity. }
  split; [exact Hfirst|].
  intros pos env_idx row s t s1 t1 s2 pos' env_idx' row' t'
    Hlane Hs1 Hs2 Hnd Hund Henv Hag.
  apply CollectiveFilling.process_lane_filling in Hlane
    as (arr & l & Harr & Hx & Hl & Hf).
  cbn zeta in Hf. rewrite Hs1, Hs2 in Hf. cbn [orb andb] in Hf.
  rewrite bool_decide_eq_false_2 in Hf by (apply Hnd; exact Hl).
  assert (Hlt : agent_id (obs row) < length arr)
    by (eapply lookup_lt_Some; exact Hx).
  destruct (CollectiveFilling.undisturbed_keeps_entry _ _ _ Hund
              (<[agent_id (obs row) :=
                   Z.of_nat (resolve (agents_num (Collective.store s))
                               (env_id (info row)) (agent_id (obs row)))]> arr)
              (agent_id (obs row))
              (Z.of_nat (resolve (agents_num (Collective.store s))
                           (env_id (info row)) (agent_id (obs row)))))
    as (arr' & Harr' & Hx').
  - rewrite Hf. apply lookup_insert_eq.
  - apply list_lookup_insert_eq. exact Hlt.
  - lia.
  - apply (Hfirst pos' env_idx' row' s2 t' arr'
             (Z.of_nat (resolve (agents_num (Collective.store s))
                          (env_id (info row)) (agent_id (obs row))))).
    + rewrite Henv. exact Harr'.
    + rewrite Hag. exact Hx'.
    + lia.
Qed.

Lemma filling_assertion_amended_witness :
  ∃ s1 t1,
    Collective.process_lane (scenario_pos 0) 0 lane_0_to_1
      (Collective.fresh 2 1, Collective.empty_tick 0) = Ok (s1, t1) ∧
    Collective.process_lane (scenario_pos 1) 0 lane_0_to_1
      (s1, Collective.empty_tick 0) = Raise AssertionError.
Proof.
  assert (Hok : is_ok (Collective.process_lane (scenario_pos 0) 0 lane_0_to_1
                         (Collective.fresh 2 1, Collective.empty_tick 0))
                 = true) by (vm_compute; reflexivity).
  destruct (Collective.process_lane (scenario_pos 0) 0 lane_0_to_1
              (Collective.fresh 2 1, Collective.empty_tick 0))
    as [[s1 t1]|e] eqn:E; [|discriminate Hok].
  exists s1, t1. split; [reflexivity|].
  apply (proj2 filling_assertion_amended (scenario_pos 0) 0 lane_0_to_1
           (Collective.fresh 2 1) (Collective.empty_tick 0) s1 t1 s1
           (scenario_pos 1) 0 lane_0_to_1 (Collective.empty_tick 0) E).
  - reflexivity.
  - reflexivity.
  - intros l Hl. vm_compute in Hl. inversion Hl. apply not_elem_of_nil.
  - apply undisturbed_refl.
  - reflexivity.
  - reflexivity.
Defined.

(** ** The pending store is a plain dictionary *)

Module CollectivePending.
Import Collective CollectiveFacts.

Ltac step_cases :=
  repeat match goal with
         | |- context [@mbind result _ _ _ _ ?m] =>
             destruct m; cbn [mbind result_bind result_map]
         | |- context [if ?c then _ else _] => destruct c
         end;
  try reflexivity.

Lemma mark_filling_with_temp f env a b s :
  mark_filling env a b (with_temp_data f s)
  = result_map (with_temp_data f) (mark_filling env a b s).
Proof.
  unfold mark_filling, with_temp_data.
  cbn [filling set_store store done_agents_per_env set_temp_data].
  step_cases.
Qed.

Lemma snapshot_with_temp f env row s :
  snapshot env row (with_temp_data f s)
  = result_map (with_temp_data f) (snapshot env row s).
Proof.
  unfold snapshot, with_temp_data.
  cbn [filling set_store store agents_num set_temp_data].
  step_cases.
Qed.

Lemma accumulate_with_temp f env x b s :
  accumulate env x b (with_temp_data f s)
  = result_map (with_temp_data f) (accumulate env x b s).
Proof.
  unfold accumulate, with_temp_data.
  cbn [exps_to_save ids_to_save set_store].
  step_cases.
Qed.

Lemma flush_round_with_temp f pos env s t :
  flush_round pos env (with_temp_data f s, t)
  = result_map (fun st => (with_temp_data f st.1, st.2))
      (flush_round pos env (s, t)).
Proof.
  unfold flush_round, with_temp_data.
  cbn [fst snd ready exps_to_save ids_to_save set_store store agents_num
         set_temp_data].
  step_cases.
Qed.

Lemma mark_done_with_temp f env_idx env next row n s d :
  mark_done env_idx env next row n (set_temp_data f s, d)
  = result_map (fun st => (set_temp_data f st.1, st.2))
      (mark_done env_idx env next row n (s, d)).
Proof.
  unfold mark_done.
  cbn [fst snd done_agents_per_env set_temp_data agents_num set_done_agents].
  step_cases.
Qed.

Lemma must_wait_with_temp f b next env s :
  must_wait b next env (set_temp_data f s) = must_wait b next env s.
Proof. reflexivity. Qed.

(** A change of the pending store away from the next agent's slot commutes
    with the resolution of that slot. *)
Lemma resolve_pending_with_temp f env next row s :
  (∀ m, f m !! next = m !! next) →
  (∀ m, delete next (f m) = f (delete next m)) →
  resolve_pending env next row (with_temp_data f s)
  = result_map (with_temp_data f) (resolve_pending env next row s).
Proof.
  intros Hlook Hdel. unfold resolve_pending.
  change (temp_data (store (with_temp_data f s)))
    with (f (temp_data (store s))).
  rewrite Hlook. destruct (temp_data (store s) !! next) as [p|];
    [|reflexivity].
  rewrite accumulate_with_temp.
  destruct (accumulate env (complete p row) next s) as [s1|e];
    cbn [mbind result_bind result_map]; [|reflexivity].
  unfold with_temp_data, set_store. cbn [store ready filling exps_to_save
    ids_to_save]. unfold set_temp_data.
  cbn [agents_num temp_data done_agents_per_env]. rewrite Hdel. reflexivity.
Qed.

(** Whether a lane succeeds does not depend on what the pending store holds
    under the acting agent's slot, as long as another agent is next. *)
Lemma process_lane_is_ok_with_temp f pos env_idx row s t :
  let n := agents_num (store s) in
  let next := resolve n (env_id (info row)) (agent_id (obs_next row)) in
  resolve n (env_id (info row)) (agent_id (obs row)) ≠ next →
  (∀ m, f m !! next = m !! next) →
  (∀ m, delete next (f m) = f (delete next m)) →
  is_ok (process_lane pos env_idx row (with_temp_data f s, t))
  = is_ok (process_lane pos env_idx row (s, t)).
Proof.
  intros n next Hne Hlook Hdel. subst n next.
  unfold process_lane. cbn [fst snd].
  change (agents_num (store (with_temp_data f s)))
    with (agents_num (store s)).
  set (n := agents_num (store s)) in *.
  set (env := env_id (info row)) in *.
  set (b := resolve n env (agent_id (obs row))) in *.
  set (next := resolve n env (agent_id (obs_next row))) in *.
  rewrite mark_filling_with_temp.
  destruct (mark_filling env (agent_id (obs row)) b s) as [s1|e];
    cbn [mbind result_bind result_map]; [|reflexivity].
  rewrite snapshot_with_temp.
  destruct (snapshot env row s1) as [s2|e];
    cbn [mbind result_bind result_map]; [|reflexivity].
  rewrite resolve_pending_with_temp by assumption.
  destruct (resolve_pending env next row s2) as [s3|e];
    cbn [mbind result_bind result_map]; [|reflexivity].
  unfold save_direct. rewrite !decide_False by exact Hne.
  cbn [mbind result_bind].
  rewrite flush_round_with_temp.
  destruct (flush_round pos env (s3, t)) as [[s5 t5]|e];
    cbn [mbind result_bind result_map fst snd]; [|reflexivity].
  change (store (with_temp_data f s5)) with (set_temp_data f (store s5)).
  rewrite mark_done_with_temp.
  destruct (mark_done env_idx env next row (length (experience_to_save t5))
              (store s5, done_envs t5)) as [[b6 d6]|e];
    cbn [mbind result_bind result_map fst snd]; [|reflexivity].
  unfold store_pending. rewrite must_wait_with_temp.
  destruct (must_wait b next env b6) as [[|]|e];
    cbn [mbind result_bind]; reflexivity.
Qed.

(** What a successful lane leaves in the pending store. *)
Lemma process_lane_temp_data pos env_idx row s t s' t' :
  process_lane pos env_idx row (s, t) = Ok (s', t') →
  let n := agents_num (store s) in
  let env := env_id (info row) in
  let b := resolve n env (agent_id (obs row)) in
  let next := resolve n env (agent_id (obs_next row)) in
  ∃ w : bool,
    must_wait b next env (store s') = Ok w ∧
    temp_data (store s') =
      if w then <[b := row]> (delete next (temp_data (store s)))
      else delete next (temp_data (store s)).
Proof.
  intros H n env b next.
  apply process_lane_inv in H
    as (s1 & s2 & s3 & s4 & s5 & t5 & b6 & d6 & b7
        & H1 & H2 & H3 & H4 & H5 & H6 & H7 & -> & _).
  fold n env b next in H1, H2, H3, H4, H5, H6, H7.
  apply mark_filling_spec in H1 as (arr & l & _ & _ & _ & ->).
  assert (Ht2 : store s2 = store s).
  { apply snapshot_spec in H2 as [(-> & _)|(_ & arr2 & _ & _ & ->)];
      reflexivity. }
  assert (Ht3 : agents_num (store s3) = n ∧
                done_agents_per_env (store s3) = done_agents_per_env (store s) ∧
                temp_data (store s3) = delete next (temp_data (store s))).
  { apply resolve_pending_spec in H3
      as [(Hnone & ->)|(p & sa & Hp & Hacc & ->)].
    - rewrite Ht2, delete_id by (rewrite <- Ht2; exact Hnone). auto.
    - apply accumulate_spec in Hacc as (exps & ids & _ & _ & _ & ->).
      cbn. rewrite Ht2. auto. }
  destruct Ht3 as (Hn3 & Hd3 & Ht3).
  assert (Ht4 : agents_num (store s4) = n ∧
                done_agents_per_env (store s4) = done_agents_per_env (store s) ∧
                temp_data (store s4) = delete next (temp_data (store s))).
  { apply save_direct_spec in H4 as [(_ & ->)|(Heq & sa & Hacc & ->)].
    - auto.
    - apply accumulate_spec in Hacc as (exps & ids & _ & _ & _ & ->).
      cbn. rewrite Hn3, Hd3, Ht3, <- Heq.
      rewrite delete_insert_eq, delete_delete_eq. auto. }
  destruct Ht4 as (Hn4 & Hd4 & Ht4).
  assert (Ht5 : store s5 = store s4).
  { apply flush_round_spec in H5
      as [(-> & _)|(r & ids & exps & _ & _ & _ & _ & _ & -> & _)];
      reflexivity. }
  apply mark_done_spec in H6 as (Hn6 & Ht6 & _).
  apply store_pending_spec in H7 as (w & Hw & Hn7 & Hd7 & Ht7).
  exists w. cbn [store set_store]. split.
  - unfold must_wait in *. rewrite Hn7, Hd7. exact Hw.
  - rewrite Ht7, Ht6, Ht5, Ht4. reflexivity.
Qed.

End CollectivePending.

Lemma mark_done_keeps_key env_idx env next row n s d s' d' :
  mark_done env_idx env next row n (s, d) = Ok (s', d') →
  is_Some (done_agents_per_env s !! env) →
  is_Some (done_agents_per_env s' !! env).
Proof.
  intros H Hkey. apply mark_done_spec in H
    as (_ & _ & [(_ & -> & _)|(_ & l & _ & -> & _)]); [exact Hkey|].
  rewrite lookup_insert_eq. eauto.
Qed.

Lemma must_wait_total b next env s :
  is_Some (done_agents_per_env s !! env) → ∃ w, must_wait b next env s = Ok w.
Proof.
  intros [l Hl]. unfold must_wait, getitem.
  destruct (decide (b = next)); [eauto|]. rewrite Hl. cbn. eauto.
Qed.

(** With a tracker entry for its environment a lane of the multi-agent
    collector succeeds, unless a completion event has to be recorded while
    [experience_to_save] is still the empty [Batch()]. *)
Lemma multi_agent_lane_outcome env_idx row s t :
  is_Some (done_agents_per_env s !! env_id (info row)) →
  (∃ s' t', MultiAgent.process_lane env_idx row (s, t) = Ok (s', t')) ∨
  (MultiAgent.process_lane env_idx row (s, t) = Raise TypeError ∧
   done row = true).
Proof.
  intros Hkey. unfold MultiAgent.process_lane. cbn [fst snd].
  rewrite MultiAgentFacts.resolve_pending_eq, MultiAgentFacts.save_direct_eq.
  cbn [fst snd MultiAgent.done_envs MultiAgent.experience_to_save
         MultiAgent.buffer_ids_to_save].
  match goal with
  | |- context [mark_done ?i ?e ?nx ?r ?n (?st, ?d)] =>
      destruct (mark_done_outcome i e nx r n st d)
        as [(s3 & d3 & Hm)|(Hm & _ & Hdone)];
      [intros _; exact Hkey| |]
  end.
  - left. rewrite Hm. cbn [mbind result_bind].
    apply mark_done_keeps_key in Hm; [|exact Hkey].
    unfold store_pending.
    match goal with
    | |- context [must_wait ?b ?nx ?e s3] =>
        destruct (must_wait_total b nx e s3 Hm) as (w & ->)
    end.
    cbn [mbind result_bind]. destruct w; eauto.
  - right. rewrite Hm. auto.
Qed.

Lemma multi_agent_lane_total env_idx row s t :
  is_Some (done_agents_per_env s !! env_id (info row)) →
  done row = false →
  ∃ s' t', MultiAgent.process_lane env_idx row (s, t) = Ok (s', t').
Proof.
  intros Hkey Hdone.
  destruct (multi_agent_lane_outcome env_idx row s t Hkey)
    as [H|[_ H]]; [exact H|congruence].
Qed.

Lemma with_temp_data_restore b old (s : Collective.Self) :
  temp_data (Collective.store s) !! b = Some old →
  with_temp_data (<[b := old]>) (with_temp_data (delete b) s) = s.
Proof.
  intros H. destruct s as [[n tmp da] r f e i]. cbn in H.
  unfold with_temp_data, Collective.set_store, set_temp_data. cbn.
  rewrite insert_delete_eq, insert_id by exact H. reflexivity.
Qed.

(** C3, the claim as stated fails.  In the run [overwrite_run] of the
    multi-agent collector the record that agent 0 left pending on the first
    tick is still in the store when, after the environment was reset on the
    second tick, agent 0 acts again with another agent next: the store then
    takes the new record under the same slot, nothing is raised, and the
    old record is never handed over. *)
Lemma pending_store_counterexample :
  let old := make_row (mkObs 0 0) (overwrite_env 0 0) in
  let new := make_row (mkObs 0 1002) (overwrite_env 2 0) in
  raised (overwrite_run 3) = None ∧
  pending_after (overwrite_run 2) 0 = Some old ∧
  rows_of (overwrite_run 3) !! 2 = Some [new] ∧
  pending_after (overwrite_run 3) 0 = Some new ∧
  old ≠ new ∧
  handed_over_ids (overwrite_run 3) = [[]; [1]; []].
Proof.
  cbv zeta. repeat split; try (vm_compute; reflexivity).
  vm_compute. discriminate.
Qed.

(** The pending store of the multi-agent collector only matters to a lane
    through the entry of the next agent's slot. *)
Lemma multi_agent_lane_is_ok_with_temp f env_idx row s t :
  let next := resolve (agents_num s) (env_id (info row))
                (agent_id (obs_next row)) in
  (∀ m, f m !! next = m !! next) →
  is_ok (MultiAgent.process_lane env_idx row (set_temp_data f s, t))
  = is_ok (MultiAgent.process_lane env_idx row (s, t)).
Proof.
  intros next Hlook. unfold MultiAgent.process_lane. cbn [fst snd].
  rewrite !MultiAgentFacts.resolve_pending_eq, !MultiAgentFacts.save_direct_eq.
  cbn [fst snd MultiAgent.done_envs MultiAgent.experience_to_save
         MultiAgent.buffer_ids_to_save set_temp_data agents_num temp_data].
  fold next. rewrite Hlook.
  change (mkStore (agents_num s) (delete next (f (temp_data s)))
            (done_agents_per_env s))
    with (set_temp_data (fun m => delete next (f m)) s).
  change (mkStore (agents_num s) (delete next (temp_data s))
            (done_agents_per_env s))
    with (set_temp_data (delete next) s).
  rewrite !CollectivePending.mark_done_with_temp.
  match goal with
  | |- context [mark_done ?i ?e ?nx ?r ?n (s, ?d)] =>
      destruct (mark_done i e nx r n (s, d)) as [[s3 d3]|e0]
  end; cbn [result_map mbind result_bind fst snd]; [|reflexivity].
  unfold store_pending.
  rewrite !CollectivePending.must_wait_with_temp.
  match goal with
  | |- context [must_wait ?b ?nx ?e s3] =>
      destruct (must_wait b nx e s3) as [w|e0]
  end; cbn [mbind result_bind]; [|reflexivity].
  destruct w; reflexivity.
Qed.

(** C3, amended.  In both collectors the pending store is a dictionary, so
    it holds at most one record per slot; storing the current row is a
    plain assignment, made only when another agent is next.  Then a record
    already held under the acting agent's slot changes neither whether the
    lane succeeds (it succeeds exactly when it would with the slot free; in
    the multi-agent collector whenever the environment has a tracker entry
    and the step is not done) nor what is stored: afterwards the slot holds
    the current row when the row had to wait, and the old record
    otherwise.  When the same agent is next nothing is stored: the
    multi-agent collector completes the held record with the current row's
    outcome and hands both over under that slot, the collective collector
    fails. *)
Theorem pending_store_amended :
  (∀ (s : Store) b x y,
     temp_data s !! b = Some x → temp_data s !! b = Some y → x = y) ∧
  (∀ env_idx row s t old,
     let env := env_id (info row) in
     let b := resolve (agents_num s) env (agent_id (obs row)) in
     let next := resolve (agents_num s) env (agent_id (obs_next row)) in
     b ≠ next →
     temp_data s !! b = Some old →
     is_ok (MultiAgent.process_lane env_idx row (s, t))
       = is_ok (MultiAgent.process_lane env_idx row
                  (set_temp_data (delete b) s, t)) ∧
     (is_Some (done_agents_per_env s !! env) → done row = false →
      is_ok (MultiAgent.process_lane env_idx row (s, t)) = true) ∧
     ∀ s' t',
       MultiAgent.process_lane env_idx row (s, t) = Ok (s', t') →
       ∃ w : bool,
         must_wait b next env s' = Ok w ∧
         temp_data s' !! b = Some (if w then row else old)) ∧
  (∀ pos env_idx row s t old,
     let env := env_id (info row) in
     let n := agents_num (Collective.store s) in
     let b := resolve n env (agent_id (obs row)) in
     let next := resolve n env (agent_id (obs_next row)) in
     b ≠ next →
     temp_data (Collective.store s) !! b = Some old →
     is_ok (Collective.process_lane pos env_idx row (s, t))
       = is_ok (Collective.process_lane pos env_idx row
                  (with_temp_data (delete b) s, t)) ∧
     ∀ s' t',
       Collective.process_lane pos env_idx row (s, t) = Ok (s', t') →
       ∃ w : bool,
         must_wait b next env (Collective.store s') = Ok w ∧
         temp_data (Collective.store s') !! b
           = Some (if w then row else old)) ∧
  (∀ env_idx row s t old s' t',
     let env := env_id (info row) in
     let b := resolve (agents_num s) env (agent_id (obs row)) in
     let next := resolve (agents_num s) env (agent_id (obs_next row)) in
     b = next →
     temp_data s !! b = Some old →
     MultiAgent.process_lane env_idx row (s, t) = Ok (s', t') →
     MultiAgent.experience_to_save t'
       = MultiAgent.experience_to_save t ++ [complete old row; row] ∧
     MultiAgent.buffer_ids_to_save t'
       = MultiAgent.buffer_ids_to_save t ++ [b; b] ∧
     temp_data s' !! b = None) ∧
  (∀ pos env_idx row s t old,
     let env := env_id (info row) in
     let n := agents_num (Collective.store s) in
     let b := resolve n env (agent_id (obs row)) in
     let next := resolve n env (agent_id (obs_next row)) in
     b = next →
     temp_data (Collective.store s) !! b = Some old →
     is_ok (Collective.process_lane pos env_idx row (s, t)) = false).
Proof.
  split; [|split; [|split; [|split]]].
  - intros s b x y Hx Hy. congruence.
  - intros env_idx row s t old env b next Hne Hold. split; [|split].
    + symmetry. apply multi_agent_lane_is_ok_with_temp.
      intros m. apply lookup_delete_ne. exact Hne.
    + intros Hkey Hdone.
      destruct (multi_agent_lane_total env_idx row s t Hkey Hdone)
        as (s' & t' & ->).
      reflexivity.
    + intros s' t' Hok.
      apply MultiAgentFacts.process_lane_spec in Hok
        as (_ & _ & _ & _ & w & Hw & Ht).
      fold env b next in Hw, Ht.
      exists w. split; [exact Hw|].
      rewrite Ht. destruct w.
      * apply lookup_insert_eq.
      * rewrite lookup_delete_ne
          by (intros E; apply Hne; symmetry; exact E).
        exact Hold.
  - intros pos env_idx row s t old env n b next Hne Hold. split.
    + rewrite <- (with_temp_data_restore b old s Hold) at 1.
      apply (CollectivePending.process_lane_is_ok_with_temp
               (<[b := old]>) pos env_idx row (with_temp_data (delete b) s) t).
      * exact Hne.
      * intros m. apply lookup_insert_ne. exact Hne.
      * intros m. apply delete_insert_ne. intros E. apply Hne. symmetry.
        exact E.
    + intros s' t' Hok.
      apply CollectivePending.process_lane_temp_data in Hok as (w & Hw & Ht).
      fold env n b next in Hw, Ht.
      exists w. split; [exact Hw|]. rewrite Ht. destruct w.
      * apply lookup_insert_eq.
      * rewrite lookup_delete_ne
        by (intros E; apply Hne; symmetry; exact E).
      exact Hold.
  - intros env_idx row s t old s' t' env b next Heq Hold Hok.
    apply MultiAgentFacts.process_lane_spec in Hok
      as (_ & He & Hi & _ & w & Hw & Ht).
    fold env b next in He, Hi, Hw, Ht. rewrite <- Heq in He, Hi, Hw, Ht.
    rewrite Hold in He, Hi. cbn [from_option] in He, Hi.
    rewrite decide_True in He by reflexivity.
    rewrite decide_True in Hi by reflexivity.
    rewrite must_wait_same in Hw. inversion Hw; subst w.
    split; [exact He|]. split; [exact Hi|].
    rewrite Ht. apply lookup_delete_eq.
  - intros pos env_idx row s t old env n b next Heq Hold.
    destruct (Collective.process_lane pos env_idx row (s, t))
      as [[s' t']|e] eqn:Hok; [exfalso|reflexivity].
    apply CollectiveFacts.process_lane_inv in Hok
      as (s1 & s2 & s3 & s4 & s5 & t5 & b6 & d6 & b7
          & H1 & H2 & H3 & H4 & _).
    fold env n b next in H1, H2, H3, H4. rewrite <- Heq in H3, H4.
    apply CollectiveFacts.mark_filling_spec in H1 as (arr & l & _ & _ & _ & ->).
    assert (Hold2 : temp_data (Collective.store s2) !! b = Some old).
    { apply CollectiveFacts.snapshot_spec in H2
        as [(-> & _)|(_ & arr2 & _ & _ & ->)]; exact Hold. }
    apply CollectiveFacts.resolve_pending_spec in H3
      as [(Hnone & _)|(p & s1' & _ & Hacc & ->)]; [congruence|].
    apply CollectiveFacts.accumulate_spec in Hacc
      as (exps & ids & _ & _ & _ & ->).
    apply CollectiveFacts.save_direct_spec in H4
      as [(Hne & _)|(_ & s6 & Hacc & _)]; [congruence|].
    apply CollectiveFacts.accumulate_spec in Hacc
      as (exps' & ids' & _ & Hids & Hnotin & _).
    cbn in Hids. rewrite lookup_insert_eq in Hids. inversion Hids; subst ids'.
    apply Hnotin. apply elem_of_app. right. apply list_elem_of_here.
Qed.

Lemma pending_store_amended_witness :
  (∃ s' t' (w : bool),
     MultiAgent.process_lane 0 lane_0_to_1
       (set_temp_data (<[0 := aaaab_row 3]>) (fresh_store 2 1),
        MultiAgent.empty_tick) = Ok (s', t') ∧
     must_wait 0 1 0 s' = Ok w ∧
     temp_data s' !! 0 = Some (if w then lane_0_to_1 else aaaab_row 3)) ∧
  is_ok (Collective.process_lane (scenario_pos 0) 0 lane_0_round
           (with_temp_data (<[0 := lane_0_to_1]>) (Collective.fresh 2 1),
            Collective.empty_tick 0)) = false.
Proof.
  split.
  - pose proof (proj1 (proj2 pending_store_amended) 0 lane_0_to_1
                  (set_temp_data (<[0 := aaaab_row 3]>) (fresh_store 2 1))
                  MultiAgent.empty_tick (aaaab_row 3)) as H.
    cbv zeta in H.
    destruct H as (_ & Hex & Hcontent);
      [vm_compute; lia|reflexivity|].
    assert (Hok : is_ok (MultiAgent.process_lane 0 lane_0_to_1
                           (set_temp_data (<[0 := aaaab_row 3]>)
                              (fresh_store 2 1), MultiAgent.empty_tick))
                  = true).
    { apply Hex; [exists []; reflexivity|reflexivity]. }
    destruct (MultiAgent.process_lane 0 lane_0_to_1
                (set_temp_data (<[0 := aaaab_row 3]>) (fresh_store 2 1),
                 MultiAgent.empty_tick)) as [[s' t']|e] eqn:E;
      [|discriminate Hok].
    destruct (Hcontent s' t' eq_refl) as (w & Hw & Ht).
    exists s', t', w. auto.
  - apply (proj2 (proj2 (proj2 (proj2 pending_store_amended)))
             (scenario_pos 0) 0 lane_0_round
             (with_temp_data (<[0 := lane_0_to_1]>) (Collective.fresh 2 1))
             (Collective.empty_tick 0) lane_0_to_1); reflexivity.
Defined.

(** ** Episode completion *)

Module CollectiveDone.
Import Collective CollectiveFacts CollectiveFilling.

(** The tracker and the number of agents are untouched up to the flush. *)
Lemma lane_prefix_store pos env_idx row s t s' t' :
  process_lane pos env_idx row (s, t) = Ok (s', t') →
  let env := env_id (info row) in
  let n := agents_num (store s) in
  let next := resolve n env (agent_id (obs_next row)) in
  ∃ s5 t5 b6 d6 b7,
    agents_num (store s5) = n ∧
    done_agents_per_env (store s5) = done_agents_per_env (store s) ∧
    done_envs t5 = done_envs t ∧
    mark_done env_idx env next row (length (experience_to_save t5))
      (store s5, done_envs t5) = Ok (b6, d6) ∧
    store_pending (resolve n env (agent_id (obs row))) next env row b6
      = Ok b7 ∧
    s' = set_store (fun _ => b7) s5 ∧
    t' = mkTick (experience_to_save t5) (buffer_ids_to_save t5) d6
                (step_count t5) (rounds t5).
Proof.
  intros H env n next.
  apply process_lane_inv in H
    as (s1 & s2 & s3 & s4 & s5 & t5 & b6 & d6 & b7
        & H1 & H2 & H3 & H4 & H5 & H6 & H7 & Hs & Ht).
  fold env n next in H1, H2, H3, H4, H5, H6, H7.
  exists s5, t5, b6, d6, b7.
  apply mark_filling_spec in H1 as (arr & l & _ & _ & _ & ->).
  assert (Hs2 : store s2 = store s).
  { apply snapshot_spec in H2 as [(-> & _)|(_ & arr2 & _ & _ & ->)];
      reflexivity. }
  apply resolve_pending_filling in H3 as (_ & _ & Hn3 & Hd3).
  apply save_direct_filling in H4 as (_ & _ & Hn4 & Hd4).
  assert (Hs5 : store s5 = store s4 ∧ done_envs t5 = done_envs t).
  { apply flush_round_spec in H5
      as [(-> & ->)|(r & ids & exps & _ & _ & _ & _ & _ & -> & ->)]; auto. }
  destruct Hs5 as [Hs5 Hd5].
  split; [rewrite Hs5, Hn4, Hn3, Hs2; reflexivity|].
  split; [rewrite Hs5, Hd4, Hd3, Hs2; reflexivity|].
  split; [exact Hd5|].
  split; [exact H6|]. split; [exact H7|]. split; assumption.
Qed.

Lemma process_lane_done pos env_idx row s t s' t' :
  process_lane pos env_idx row (s, t) = Ok (s', t') →
  agents_num (store s') = agents_num (store s) ∧
  completion_recorded (agents_num (store s)) env_idx row
    (done_agents_per_env (store s)) (done_agents_per_env (store s'))
    (done_envs t) (done_envs t').
Proof.
  intros H. apply lane_prefix_store in H
    as (s5 & t5 & b6 & d6 & b7 & Hn & Hd & Hde & Hm & Hst & -> & ->).
  apply mark_done_spec in Hm as (Hn6 & _ & Hm).
  apply store_pending_spec in Hst as (w & _ & Hn7 & Hd7 & _).
  cbn [store set_store done_envs]. split; [congruence|].
  unfold completion_recorded. rewrite Hd7.
  destruct Hm as [(Hdone & -> & ->)|(Hdone & l & Hl & Hl' & ->)];
    rewrite Hdone.
  - rewrite Hd, Hde. auto.
  - exists l. eexists. rewrite Hl', <- Hd, Hn, Hde. split; [exact Hl|].
    split; reflexivity.
Qed.

Lemma reset_done_envs_spec gl : ∀ s,
  agents_num (store (reset_done_envs gl s)) = agents_num (store s) ∧
  temp_data (store (reset_done_envs gl s)) = temp_data (store s) ∧
  exps_to_save (reset_done_envs gl s) = exps_to_save s ∧
  ids_to_save (reset_done_envs gl s) = ids_to_save s ∧
  ∀ e,
    (e ∈ gl →
     done_agents_per_env (store (reset_done_envs gl s)) !! e = Some [] ∧
     ready (reset_done_envs gl s) !! e
       = Some (empty_array (agents_num (store s))) ∧
     filling (reset_done_envs gl s) !! e
       = Some (empty_array (agents_num (store s)))) ∧
    (e ∉ gl →
     done_agents_per_env (store (reset_done_envs gl s)) !! e
       = done_agents_per_env (store s) !! e ∧
     ready (reset_done_envs gl s) !! e = ready s !! e ∧
     filling (reset_done_envs gl s) !! e = filling s !! e).
Proof.
  unfold reset_done_envs.
  induction gl as [|g gl IH] using rev_ind; intros s.
  - cbn. repeat (split; [reflexivity|]). intros e. split.
    + intros Hin. inversion Hin.
    + auto.
  - rewrite foldl_app. cbn [foldl].
    destruct (IH s) as (Hn & Ht & He & Hi & Hlook).
    set (s1 := foldl reset_env s gl) in *.
    cbn [reset_env store set_filling set_ready set_store set_done_agents
           agents_num temp_data done_agents_per_env exps_to_save ids_to_save
           ready filling].
    repeat (split; [assumption|]). intros e.
    destruct (Hlook e) as [Hin Hout]. rewrite Hn. split.
    + intros He'. destruct (decide (e = g)) as [->|Hne].
      * rewrite !lookup_insert_eq. auto.
      * rewrite !lookup_insert_ne by congruence.
        apply Hin. apply elem_of_app in He' as [He'|He']; [exact He'|].
        apply list_elem_of_singleton in He'. congruence.
    + intros He'.
      assert (e ≠ g) by (intros ->; apply He'; apply elem_of_app; right;
                         apply list_elem_of_here).
      rewrite !lookup_insert_ne by congruence.
      apply Hout. intros Hin'. apply He'. apply elem_of_app. left. exact Hin'.
Qed.

End CollectiveDone.

Lemma multi_agent_reset_spec gl : ∀ s,
  agents_num (MultiAgent.reset_done_envs gl s) = agents_num s ∧
  temp_data (MultiAgent.reset_done_envs gl s) = temp_data s ∧
  ∀ e,
    (e ∈ gl →
     done_agents_per_env (MultiAgent.reset_done_envs gl s) !! e = Some []) ∧
    (e ∉ gl →
     done_agents_per_env (MultiAgent.reset_done_envs gl s) !! e
       = done_agents_per_env s !! e).
Proof.
  unfold MultiAgent.reset_done_envs.
  induction gl as [|g gl IH] using rev_ind; intros s.
  - cbn. repeat (split; [reflexivity|]). intros e. split.
    + intros Hin. inversion Hin.
    + auto.
  - rewrite foldl_app. cbn [foldl].
    destruct (IH s) as (Hn & Ht & Hlook).
    cbn [set_done_agents agents_num temp_data done_agents_per_env].
    repeat (split; [assumption|]). intros e.
    destruct (Hlook e) as [Hin Hout]. split.
    + intros He'. destruct (decide (e = g)) as [->|Hne].
      * apply lookup_insert_eq.
      * rewrite lookup_insert_ne by congruence.
        apply Hin. apply elem_of_app in He' as [He'|He']; [exact He'|].
        apply list_elem_of_singleton in He'. congruence.
    + intros He'.
      assert (e ≠ g) by (intros ->; apply He'; apply elem_of_app; right;
                         apply list_elem_of_here).
      rewrite lookup_insert_ne by congruence.
      apply Hout. intros Hin'. apply He'. apply elem_of_app. left. exact Hin'.
Qed.

(** A lane that records a completion event has something in
    [experience_to_save]: [len] of the empty batch would have raised. *)
Lemma multi_agent_event_saved env_idx row s t s' t' :
  MultiAgent.process_lane env_idx row (s, t) = Ok (s', t') →
  MultiAgent.done_envs t' ≠ MultiAgent.done_envs t →
  1 ≤ length (MultiAgent.experience_to_save t').
Proof.
  intros H. unfold MultiAgent.process_lane in H. cbn [fst snd] in H.
  rewrite MultiAgentFacts.resolve_pending_eq, MultiAgentFacts.save_direct_eq
    in H.
  cbn [fst snd] in H.
  cbn [MultiAgent.experience_to_save MultiAgent.buffer_ids_to_save
       MultiAgent.done_envs] in H.
  apply bind_Ok in H as ([s3 d3] & Hmark & H).
  apply bind_Ok in H as (s4 & Hstore & H).
  inversion H; subst s' t'; clear H.
  cbn [MultiAgent.done_envs MultiAgent.experience_to_save]. intros Hne.
  eapply mark_done_event; [exact Hmark|exact Hne].
Qed.

Lemma collective_event_saved pos env_idx row s t s' t' :
  Collective.process_lane pos env_idx row (s, t) = Ok (s', t') →
  (Collective.done_envs t' ≠ Collective.done_envs t →
   1 ≤ length (Collective.experience_to_save t')) ∧
  length (Collective.experience_to_save t)
  ≤ length (Collective.experience_to_save t').
Proof.
  intros H. apply CollectiveFacts.process_lane_inv in H
    as (s1 & s2 & s3 & s4 & s5 & t5 & b6 & d6 & b7
        & _ & _ & _ & _ & H5 & H6 & _ & _ & ->).
  cbn zeta in *. cbn [Collective.experience_to_save Collective.done_envs].
  assert (Hgrow : length (Collective.experience_to_save t)
                  ≤ length (Collective.experience_to_save t5) ∧
                  Collective.done_envs t5 = Collective.done_envs t).
  { apply CollectiveFacts.flush_round_spec in H5
      as [(_ & ->)|(r & ids & exps & _ & _ & _ & _ & _ & _ & ->)];
      cbn [Collective.experience_to_save Collective.done_envs]; [auto|].
    rewrite length_app. split; [lia|reflexivity]. }
  destruct Hgrow as [Hgrow Hde]. split; [|exact Hgrow].
  rewrite <- Hde. intros Hne.
  eapply mark_done_event; [exact H6|exact Hne].
Qed.

(** C4, the claim as stated fails.  A lane whose info carries
    [explicit_reset] on a step that is neither terminated nor truncated is
    not recorded as a completion event, in either variant: no entry of
    [done_envs], no episode counted. *)
Lemma episode_completion_counterexample :
  (fun row => (explicit_reset (info row), done row))
    <$> all_rows reset_without_done_multi = [(true, false)] ∧
  (fun lg : IterLog multi_agent => MultiAgent.done_envs (lg_tick lg))
    <$> log reset_without_done_multi = [[]] ∧
  episodes reset_without_done_multi = Some 0 ∧
  (fun row => (explicit_reset (info row), done row))
    <$> all_rows reset_without_done_collective = [(true, false)] ∧
  (fun lg : IterLog (collective scenario_pos) =>
     Collective.done_envs (lg_tick lg))
    <$> log reset_without_done_collective = [[]] ∧
  episodes reset_without_done_collective = Some 0.
Proof. repeat split; vm_compute; reflexivity. Qed.

(** C4, amended.  In both collector variants a lane is recorded as an
    environment-completion event exactly when its step is done (terminated
    or truncated) and, after the next slot has been appended to the
    environment's tracker list, that list has [agents_num] entries or the
    lane's info carries [explicit_reset]; a lane that is not done leaves the
    tracker and [done_envs] alone.  Once the iteration has processed its
    completion events, the tracker list of every completed environment is
    empty, and in the collective variant so are its [ready] and [filling]
    arrays.  A lane records its event only with at least one record in the
    tick's [experience_to_save]: on a tick that has saved nothing so far
    [len(experience_to_save)] raises [TypeError] instead, as in the runs
    [early_completion] and [stale_round_run]. *)
Theorem episode_completion_amended :
  (∀ env_idx row s t s' t',
     MultiAgent.process_lane env_idx row (s, t) = Ok (s', t') →
     completion_recorded (agents_num s) env_idx row
       (done_agents_per_env s) (done_agents_per_env s')
       (MultiAgent.done_envs t) (MultiAgent.done_envs t')) ∧
  (∀ pos env_idx row s t s' t',
     Collective.process_lane pos env_idx row (s, t) = Ok (s', t') →
     completion_recorded (agents_num (Collective.store s)) env_idx row
       (done_agents_per_env (Collective.store s))
       (done_agents_per_env (Collective.store s'))
       (Collective.done_envs t) (Collective.done_envs t')) ∧
  (∀ env n_step n_episode tick (L L' : Loop multi_agent) lg brk d,
     iterate multi_agent env n_step n_episode tick L = Ok (L', lg, brk) →
     d ∈ MultiAgent.done_envs (lg_tick lg) →
     done_agents_per_env (self L') !! global_of d = Some []) ∧
  (∀ pos env n_step n_episode tick (L L' : Loop (collective pos)) lg brk d,
     iterate (collective pos) env n_step n_episode tick L = Ok (L', lg, brk) →
     d ∈ Collective.done_envs (lg_tick lg) →
     let n := agents_num (Collective.store (self L')) in
     done_agents_per_env (Collective.store (self L')) !! global_of d = Some [] ∧
     Collective.ready (self L') !! global_of d
       = Some (Collective.empty_array n) ∧
     Collective.filling (self L') !! global_of d
       = Some (Collective.empty_array n)) ∧
  (∀ env_idx row s t s' t',
     MultiAgent.process_lane env_idx row (s, t) = Ok (s', t') →
     MultiAgent.done_envs t' ≠ MultiAgent.done_envs t →
     1 ≤ length (MultiAgent.experience_to_save t')) ∧
  (∀ pos env_idx row s t s' t',
     Collective.process_lane pos env_idx row (s, t) = Ok (s', t') →
     Collective.done_envs t' ≠ Collective.done_envs t →
     1 ≤ length (Collective.experience_to_save t')) ∧
  (raised early_completion = Some TypeError ∧
   env_steps early_completion = 1 ∧
   raised stale_round_run = Some TypeError ∧
   env_steps stale_round_run = 3).
Proof.
  split; [|split; [|split; [|split; [|split; [|split]]]]].
  7: repeat split; vm_compute; reflexivity.
  5: exact multi_agent_event_saved.
  5: { intros pos env_idx row s t s' t' H.
       apply collective_event_saved in H as [H _]. exact H. }
  - intros env_idx row s t s' t' H.
    apply MultiAgentFacts.process_lane_spec in H as (_ & _ & _ & Hm & _).
    unfold completion_recorded.
    destruct Hm as [(-> & Htr & Hd)|(-> & l & Hl & Htr & Hd)]; [auto|].
    exists l. eexists. split; [exact Hl|]. split; [exact Htr|exact Hd].
  - intros pos env_idx row s t s' t' H.
    apply CollectiveDone.process_lane_done in H as [_ H]. exact H.
  - intros env n_step n_episode tick L L' lg brk d Hit Hd.
    apply iterate_inv in Hit
      as (s1 & t & _ & _ & Htick & _ & _ & _ & _ & _ & _ & _ & Hcase).
    rewrite Htick in Hd.
    destruct Hcase as [(Hnil & _)|(_ & -> & _)].
    + cbn in Hnil. rewrite Hnil in Hd. inversion Hd.
    + cbn [v_reset multi_agent v_done_envs].
      apply multi_agent_reset_spec. apply list_elem_of_fmap.
      exists d. auto.
  - intros pos env n_step n_episode tick L L' lg brk d Hit Hd n.
    apply iterate_inv in Hit
      as (s1 & t & _ & _ & Htick & _ & _ & _ & _ & _ & _ & _ & Hcase).
    rewrite Htick in Hd.
    destruct Hcase as [(Hnil & _)|(_ & Hself & _)].
    + cbn in Hnil. rewrite Hnil in Hd. inversion Hd.
    + subst n. rewrite Hself. cbn [v_reset collective v_done_envs].
      destruct (CollectiveDone.reset_done_envs_spec
                  (global_of <$> Collective.done_envs t) s1)
        as (Hn & _ & _ & _ & Hlook).
      rewrite Hn. apply Hlook. apply list_elem_of_fmap. exists d. auto.
Qed.

Lemma episode_completion_amended_witness :
  let row := make_row (mkObs 0 0) (one_shot_env 0 0) in
  (done row = true ∧
   ∃ s' t',
     MultiAgent.process_lane 0 row (fresh_store 1 1, MultiAgent.empty_tick)
       = Ok (s', t') ∧
     MultiAgent.done_envs t' = [(0, 0, 0%Z)] ∧
     completion_recorded 1 0 row
       (done_agents_per_env (fresh_store 1 1)) (done_agents_per_env s')
       [] (MultiAgent.done_envs t') ∧
     1 ≤ length (MultiAgent.experience_to_save t')) ∧
  (∃ (L' : Loop multi_agent) lg brk,
     iterate multi_agent one_shot_env None (Some 1%Z) 0
       (@mkLoop multi_agent (fresh_store 1 1) [mkObs 0 0] [0] 0 0 None)
       = Ok (L', lg, brk) ∧
     MultiAgent.done_envs (lg_tick lg) = [(0, 0, 0%Z)] ∧
     done_agents_per_env (self L') !! 0 = Some []) ∧
  (∃ (L' : Loop (collective scenario_pos)) lg brk,
     iterate (collective scenario_pos) one_shot_env None (Some 1%Z) 0
       (@mkLoop (collective scenario_pos) (Collective.fresh 1 1) [mkObs 0 0]
          [0] 0 0 None)
       = Ok (L', lg, brk) ∧
     Collective.done_envs (lg_tick lg) = [(0, 0, 0%Z)] ∧
     done_agents_per_env (Collective.store (self L')) !! 0 = Some [] ∧
     Collective.ready (self L') !! 0
       = Some (Collective.empty_array
                 (agents_num (Collective.store (self L')))) ∧
     Collective.filling (self L') !! 0
       = Some (Collective.empty_array
                 (agents_num (Collective.store (self L'))))).
Proof.
  intros row. split; [|split].
  - split; [reflexivity|].
    assert (Hview :
      result_map (fun st : Store * MultiAgent.Tick => MultiAgent.done_envs st.2)
        (MultiAgent.process_lane 0 row
           (fresh_store 1 1, MultiAgent.empty_tick))
      = Ok [(0, 0, 0%Z)]) by (vm_compute; reflexivity).
    destruct (MultiAgent.process_lane 0 row
                (fresh_store 1 1, MultiAgent.empty_tick))
      as [[s' t']|e] eqn:E; [|discriminate Hview].
    cbn [result_map snd] in Hview. injection Hview as Hd.
    exists s', t'. split; [reflexivity|]. split; [exact Hd|]. split.
    + apply (proj1 episode_completion_amended 0 row (fresh_store 1 1)
               MultiAgent.empty_tick s' t' E).
    + apply (proj1 (proj2 (proj2 (proj2 (proj2 episode_completion_amended))))
               0 row (fresh_store 1 1) MultiAgent.empty_tick s' t' E).
      rewrite Hd. discriminate.
  - assert (Hview :
      result_map (fun x : Loop multi_agent * IterLog multi_agent * bool =>
                    MultiAgent.done_envs (lg_tick x.1.2))
        (iterate multi_agent one_shot_env None (Some 1%Z) 0
           (@mkLoop multi_agent (fresh_store 1 1) [mkObs 0 0] [0] 0 0 None))
      = Ok [(0, 0, 0%Z)]) by (vm_compute; reflexivity).
    destruct (iterate multi_agent one_shot_env None (Some 1%Z) 0
                (@mkLoop multi_agent (fresh_store 1 1) [mkObs 0 0] [0] 0 0
                   None)) as [[[L' lg] brk]|e] eqn:E; [|discriminate Hview].
    cbn [result_map fst snd] in Hview. injection Hview as Hd.
    exists L', lg, brk. split; [reflexivity|]. split; [exact Hd|].
    apply (proj1 (proj2 (proj2 episode_completion_amended)) one_shot_env None
             (Some 1%Z) 0 _ L' lg brk (0, 0, 0%Z) E).
    rewrite Hd. apply list_elem_of_here.
  - assert (Hview :
      result_map (fun x : Loop (collective scenario_pos)
                          * IterLog (collective scenario_pos) * bool =>
                    Collective.done_envs (lg_tick x.1.2))
        (iterate (collective scenario_pos) one_shot_env None (Some 1%Z) 0
           (@mkLoop (collective scenario_pos) (Collective.fresh 1 1)
              [mkObs 0 0] [0] 0 0 None))
      = Ok [(0, 0, 0%Z)]) by (vm_compute; reflexivity).
    destruct (iterate (collective scenario_pos) one_shot_env None (Some 1%Z) 0
                (@mkLoop (collective scenario_pos) (Collective.fresh 1 1)
                   [mkObs 0 0] [0] 0 0 None))
      as [[[L' lg] brk]|e] eqn:E; [|discriminate Hview].
    cbn [result_map fst snd] in Hview. injection Hview as Hd.
    exists L', lg, brk. split; [reflexivity|]. split; [exact Hd|].
    apply (proj1 (proj2 (proj2 (proj2 episode_completion_amended)))
             scenario_pos one_shot_env None (Some 1%Z) 0 _ L' lg brk
             (0, 0, 0%Z) E).
    rewrite Hd. apply list_elem_of_here.
Defined.

(** ** The pending store across resets *)

Lemma not_in_slots_of n row slot :
  slot ∉ slots_of n row →
  slot ≠ resolve n (env_id (info row)) (agent_id (obs row)) ∧
  slot ≠ resolve n (env_id (info row)) (agent_id (obs_next row)).
Proof.
  unfold slots_of. intros H. split; intros ->; apply H.
  - apply list_elem_of_here.
  - apply list_elem_of_further, list_elem_of_here.
Qed.

Lemma lane_update_frame (m : gmap nat Transition) b next row (w : bool) slot :
  slot ≠ b → slot ≠ next →
  (if w then <[b := row]> (delete next m) else delete next m) !! slot
  = m !! slot.
Proof.
  intros Hb Hn. destruct w.
  - rewrite lookup_insert_ne, lookup_delete_ne by congruence. reflexivity.
  - rewrite lookup_delete_ne by congruence. reflexivity.
Qed.

Lemma multi_agent_lanes_frame rows : ∀ k s t s' t' slot,
  MultiAgent.process_lanes k rows (s, t) = Ok (s', t') →
  (∀ row, row ∈ rows → slot ∉ slots_of (agents_num s) row) →
  temp_data s' !! slot = temp_data s !! slot.
Proof.
  induction rows as [|row rows IH]; intros k s t s' t' slot H Hslot;
    cbn in H.
  - inversion H; subst. reflexivity.
  - apply bind_Ok in H as ([s1 t1] & H1 & H).
    apply MultiAgentFacts.process_lane_spec in H1
      as (Hn1 & _ & _ & _ & w & _ & Ht1).
    destruct (not_in_slots_of _ _ _ (Hslot row (list_elem_of_here _ _)))
      as [Hb Hnx].
    rewrite (IH _ _ _ _ _ slot H).
    + rewrite Ht1. apply lane_update_frame; assumption.
    + intros r Hr. rewrite Hn1. apply Hslot. apply list_elem_of_further.
      exact Hr.
Qed.

Lemma collective_lanes_frame pos rows : ∀ k s t s' t' slot,
  Collective.process_lanes pos k rows (s, t) = Ok (s', t') →
  (∀ row, row ∈ rows →
     slot ∉ slots_of (agents_num (Collective.store s)) row) →
  temp_data (Collective.store s') !! slot
  = temp_data (Collective.store s) !! slot.
Proof.
  induction rows as [|row rows IH]; intros k s t s' t' slot H Hslot;
    cbn in H.
  - inversion H; subst. reflexivity.
  - apply bind_Ok in H as ([s1 t1] & H1 & H).
    pose proof (CollectiveDone.process_lane_done _ _ _ _ _ _ _ H1) as [Hn1 _].
    apply CollectivePending.process_lane_temp_data in H1 as (w & _ & Ht1).
    destruct (not_in_slots_of _ _ _ (Hslot row (list_elem_of_here _ _)))
      as [Hb Hnx].
    rewrite (IH _ _ _ _ _ slot H).
    + rewrite Ht1. apply lane_update_frame; assumption.
    + intros r Hr. rewrite Hn1. apply Hslot. apply list_elem_of_further.
      exact Hr.
Qed.

(** C10, the claim as stated fails on one point.  In the run
    [unflushed_reset_run] of the collective collector environment 1 ends
    its episode on the tick on which environment 0 hands over a round; the
    completion event of environment 1 is recorded and processed without
    raising, and afterwards the tracker, [ready] and [filling] of
    environment 1 are empty, but its accumulated slot ids and records are
    not. *)
Lemma pending_survives_reset_counterexample :
  raised unflushed_reset_run = None ∧
  (fun lg : IterLog (collective scenario_pos) =>
     Collective.done_envs (lg_tick lg)) <$> log unflushed_reset_run
    = [[(1, 1, 0%Z)]] ∧
  collective_ids unflushed_reset_run = [[0]] ∧
  final_view 1 1 unflushed_reset_run
    = Some (Some [], Some [(-1)%Z], Some [(-1)%Z], Some [1], Some 1, false).
Proof. repeat split; vm_compute; reflexivity. Qed.

(** C10, amended.  Processing the completion events of a tick empties the
    tracker of each completed environment and, in the collective variant,
    its [ready] and [filling] arrays; it changes nothing else: the pending
    store is left as it is for every slot, the trackers (and arrays) of the
    other environments keep their values, and so do the accumulated records
    and slot ids of every environment.  Within a [collect] call the pending
    store is never emptied: over a whole iteration only the slots of the
    acting and the next agents of the processed rows can change. *)
Theorem pending_survives_reset_amended :
  (∀ gl s,
     temp_data (MultiAgent.reset_done_envs gl s) = temp_data s ∧
     ∀ e,
       (e ∈ gl →
        done_agents_per_env (MultiAgent.reset_done_envs gl s) !! e
          = Some []) ∧
       (e ∉ gl →
        done_agents_per_env (MultiAgent.reset_done_envs gl s) !! e
          = done_agents_per_env s !! e)) ∧
  (∀ gl s,
     let s' := Collective.reset_done_envs gl s in
     temp_data (Collective.store s') = temp_data (Collective.store s) ∧
     Collective.exps_to_save s' = Collective.exps_to_save s ∧
     Collective.ids_to_save s' = Collective.ids_to_save s ∧
     ∀ e,
       (e ∈ gl →
        done_agents_per_env (Collective.store s') !! e = Some [] ∧
        Collective.ready s' !! e
          = Some (Collective.empty_array (agents_num (Collective.store s))) ∧
        Collective.filling s' !! e
          = Some (Collective.empty_array (agents_num (Collective.store s)))) ∧
       (e ∉ gl →
        done_agents_per_env (Collective.store s') !! e
          = done_agents_per_env (Collective.store s) !! e ∧
        Collective.ready s' !! e = Collective.ready s !! e ∧
        Collective.filling s' !! e = Collective.filling s !! e)) ∧
  (∀ env n_step n_episode tick (L L' : Loop multi_agent) lg brk slot,
     iterate multi_agent env n_step n_episode tick L = Ok (L', lg, brk) →
     (∀ row, row ∈ lg_rows lg → slot ∉ slots_of (agents_num (self L)) row) →
     temp_data (self L') !! slot = temp_data (self L) !! slot) ∧
  (∀ pos env n_step n_episode tick (L L' : Loop (collective pos)) lg brk slot,
     iterate (collective pos) env n_step n_episode tick L = Ok (L', lg, brk) →
     (∀ row, row ∈ lg_rows lg →
        slot ∉ slots_of (agents_num (Collective.store (self L))) row) →
     temp_data (Collective.store (self L')) !! slot
       = temp_data (Collective.store (self L)) !! slot).
Proof.
  split; [|split; [|split]].
  - intros gl s. destruct (multi_agent_reset_spec gl s) as (_ & Ht & Hl).
    auto.
  - intros gl s s'. subst s'.
    destruct (CollectiveDone.reset_done_envs_spec gl s)
      as (_ & Ht & He & Hi & Hl). auto.
  - intros env n_step n_episode tick L L' lg brk slot Hit Hslot.
    apply iterate_inv in Hit
      as (s1 & t & Hlanes & Hrows & _ & _ & _ & _ & _ & _ & _ & _ & Hcase).
    rewrite Hrows in Hslot. cbn in Hlanes.
    apply (multi_agent_lanes_frame _ _ _ _ _ _ slot) in Hlanes;
      [|exact Hslot].
    rewrite <- Hlanes.
    destruct Hcase as [(_ & -> & _)|(_ & -> & _)]; [reflexivity|].
    cbn [v_reset multi_agent].
    destruct (multi_agent_reset_spec
                (global_of <$> v_done_envs multi_agent t) s1) as (_ & -> & _).
    reflexivity.
  - intros pos env n_step n_episode tick L L' lg brk slot Hit Hslot.
    apply iterate_inv in Hit
      as (s1 & t & Hlanes & Hrows & _ & _ & _ & _ & _ & _ & _ & _ & Hcase).
    rewrite Hrows in Hslot. cbn in Hlanes.
    apply (collective_lanes_frame _ _ _ _ _ _ _ slot) in Hlanes;
      [|exact Hslot].
    rewrite <- Hlanes.
    destruct Hcase as [(_ & -> & _)|(_ & -> & _)]; [reflexivity|].
    cbn [v_reset collective].
    destruct (CollectiveDone.reset_done_envs_spec
                (global_of <$> v_done_envs (collective pos) t) s1)
      as (_ & -> & _).
    reflexivity.
Qed.

Lemma pending_survives_reset_amended_witness :
  (let old := make_row (mkObs 0 0) (overwrite_env 0 0) in
   ∃ L' lg brk,
     iterate multi_agent overwrite_env (Some 100%Z) None 1
       overwrite_second_tick = Ok (L', lg, brk) ∧
     MultiAgent.done_envs (lg_tick lg) = [(0, 0, 0%Z)] ∧
     temp_data (self overwrite_second_tick) !! 0 = Some old ∧
     temp_data (self L') !! 0 = Some old ∧
     done_agents_per_env (self L') !! 0 = Some []) ∧
  (let old := make_row (mkObs 0 0) (pending_reset_env 0 1) in
   ∃ L1 L' lg brk,
     run_outcome (pending_reset_run 1) = OutOfFuel L1 ∧
     iterate (collective scenario_pos) pending_reset_env (Some 100%Z) None 1
       L1 = Ok (L', lg, brk) ∧
     Collective.done_envs (lg_tick lg) = [(1, 1, 0%Z)] ∧
     temp_data (Collective.store (self L1)) !! 2 = Some old ∧
     temp_data (Collective.store (self L')) !! 2 = Some old ∧
     collective_view 1 2 (self L')
       = (Some [], Some [(-1)%Z; (-1)%Z], Some [(-1)%Z; (-1)%Z], Some [3],
          Some 1, true)).
Proof.
  split.
  - intros old.
    assert (Hview :
      result_map
        (fun x : Loop multi_agent * IterLog multi_agent * bool =>
           (lg_rows x.1.2, MultiAgent.done_envs (lg_tick x.1.2),
            done_agents_per_env (self x.1.1) !! 0))
        (iterate multi_agent overwrite_env (Some 100%Z) None 1
           overwrite_second_tick)
      = Ok ([make_row (mkObs 1 1) (overwrite_env 1 0)], [(0, 0, 0%Z)],
            Some [])) by (vm_compute; reflexivity).
    destruct (iterate multi_agent overwrite_env (Some 100%Z) None 1
                overwrite_second_tick) as [[[L' lg] brk]|e] eqn:E;
      [|discriminate Hview].
    cbn [result_map fst snd] in Hview.
    injection Hview as Hrows Hdone Htracker.
    exists L', lg, brk. split; [reflexivity|]. split; [exact Hdone|].
    assert (Hold : temp_data (self overwrite_second_tick) !! 0 = Some old)
      by reflexivity.
    split; [exact Hold|]. split; [|exact Htracker].
    rewrite <- Hold.
    apply (proj1 (proj2 (proj2 pending_survives_reset_amended)) overwrite_env
             (Some 100%Z) None 1 overwrite_second_tick L' lg brk 0 E).
    intros row Hrow. rewrite Hrows in Hrow.
    apply list_elem_of_singleton in Hrow. subst row.
    vm_compute. intros H.
    repeat (apply elem_of_cons in H as [H|H]; [discriminate H|]).
    inversion H.
  - intros old.
    assert (Hview :
      match run_outcome (pending_reset_run 1) with
      | OutOfFuel L1 =>
          result_map
            (fun x : Loop (collective scenario_pos)
                     * IterLog (collective scenario_pos) * bool =>
               (temp_data (Collective.store (self L1)) !! 2,
                lg_rows x.1.2, Collective.done_envs (lg_tick x.1.2),
                collective_view 1 2 (self x.1.1)))
            (iterate (collective scenario_pos) pending_reset_env
               (Some 100%Z) None 1 L1)
      | _ => Raise AssertionError
      end
      = Ok (Some old,
            [make_row (mkObs 0 1) (pending_reset_env 1 0);
             make_row (mkObs 1 1) (pending_reset_env 1 1)],
            [(1, 1, 0%Z)],
            (Some [], Some [(-1)%Z; (-1)%Z], Some [(-1)%Z; (-1)%Z],
             Some [3], Some 1, true))) by (vm_compute; reflexivity).
    destruct (run_outcome (pending_reset_run 1)) as [L|e|L1] eqn:E1;
      try discriminate Hview.
    destruct (iterate (collective scenario_pos) pending_reset_env
                (Some 100%Z) None 1 L1) as [[[L' lg] brk]|e] eqn:E;
      [|discriminate Hview].
    cbn [result_map fst snd] in Hview.
    injection Hview as Hold Hrows Hdone Htr Hrd Hfl Hids Hexps Hpend.
    exists L1, L', lg, brk. split; [reflexivity|]. split; [exact E|].
    split; [exact Hdone|]. split; [exact Hold|]. split;
      [|unfold collective_view;
        rewrite Htr, Hrd, Hfl, Hids, Hexps, Hpend; reflexivity].
    rewrite <- Hold.
    apply (proj2 (proj2 (proj2 pending_survives_reset_amended)) scenario_pos
             pending_reset_env (Some 100%Z) None 1 L1 L' lg brk 2 E).
    assert (Hn : agents_num (Collective.store (self L1)) = 2).
    { assert (Hv : match run_outcome (pending_reset_run 1) with
                   | OutOfFuel L1 => agents_num (Collective.store (self L1))
                   | _ => 0
                   end = 2) by (vm_compute; reflexivity).
      rewrite E1 in Hv. exact Hv. }
    intros row Hrow. rewrite Hrows in Hrow. rewrite Hn.
    apply elem_of_cons in Hrow as [->|Hrow];
      [|apply list_elem_of_singleton in Hrow; subst row];
      vm_compute; intros H;
      repeat (apply elem_of_cons in H as [H|H]; [discriminate H|]);
      inversion H.
Defined.

(** ** Joint rounds *)

Module CollectiveRounds.
Import Collective CollectiveFacts CollectiveFilling.

(** The comparison of line 292 does not depend on the order of either
    list. *)
Lemma sorted_eq_iff (l k : list Z) : sorted l = sorted k ↔ l ≡ₚ k.
Proof.
  unfold sorted. split.
  - intros H.
    rewrite <- (merge_sort_Permutation Z.le l),
            <- (merge_sort_Permutation Z.le k), H.
    reflexivity.
  - intros H. apply (Sorted_unique Z.le).
    + apply Sorted_merge_sort. apply _.
    + apply Sorted_merge_sort. apply _.
    + rewrite !merge_sort_Permutation. exact H.
Qed.

(** What one lane does to the tick lists, the step counter and the log of
    rounds: nothing, or exactly one joint round. *)
Lemma process_lane_rounds pos env_idx row s t s' t' :
  process_lane pos env_idx row (s, t) = Ok (s', t') →
  let env := env_id (info row) in
  (rounds t' = rounds t ∧
   buffer_ids_to_save t' = buffer_ids_to_save t ∧
   experience_to_save t' = experience_to_save t ∧
   step_count t' = step_count t) ∨
  (∃ r ids exps,
     rounds t' = rounds t ++ [mkRound env r ids] ∧
     buffer_ids_to_save t' = buffer_ids_to_save t ++ ids ∧
     experience_to_save t' = experience_to_save t ++ _add_extra_info pos r exps ∧
     step_count t' = step_count t + 1 ∧
     valid r ≠ [] ∧
     sorted (valid r) = sorted (Z.of_nat <$> ids) ∧
     (ready s !! env = Some r ∨
      ∃ arr v, filling s !! env = Some arr ∧
               r = <[agent_id (obs row) := v]> arr) ∧
     ready s' !! env = Some (empty_array (agents_num (store s))) ∧
     ids_to_save s' !! env = Some [] ∧
     exps_to_save s' !! env = Some []).
Proof.
  intros H env.
  apply process_lane_inv in H
    as (s1 & s2 & s3 & s4 & s5 & t5 & b6 & d6 & b7
        & H1 & H2 & H3 & H4 & H5 & _ & _ & -> & ->).
  fold env in H1, H2, H3, H4, H5.
  cbn [rounds buffer_ids_to_save experience_to_save step_count ready
         ids_to_save exps_to_save set_store].
  apply flush_round_spec in H5
    as [(-> & ->)|(r & ids & exps & Hr & Hi & He & Hv & Hs & -> & ->)].
  - left. auto.
  - right. exists r, ids, exps.
    cbn [rounds buffer_ids_to_save experience_to_save step_count ready
           ids_to_save exps_to_save set_ready set_ids set_exps store].
    repeat (split; [reflexivity || assumption|]).
    apply mark_filling_spec in H1 as (arr & l & Harr & _ & _ & ->).
    apply resolve_pending_filling in H3 as (_ & Hr3 & Hn3 & _).
    apply save_direct_filling in H4 as (_ & Hr4 & Hn4 & _).
    rewrite Hr4, Hr3 in Hr. rewrite Hn4, Hn3.
    split; [|split; [|split]].
    + apply snapshot_spec in H2
        as [(-> & _)|(_ & arr2 & Harr2 & _ & ->)];
        cbn [ready set_filling set_ready filling] in *.
      * left. exact Hr.
      * right. rewrite lookup_insert_eq in Harr2, Hr.
        inversion Harr2; subst arr2. inversion Hr; subst r.
        eexists _, _. split; [exact Harr|reflexivity].
    + assert (Hs2 : agents_num (store s2) = agents_num (store s)).
      { apply snapshot_spec in H2
          as [(-> & _)|(_ & arr2 & _ & _ & ->)]; reflexivity. }
      rewrite Hs2. apply lookup_insert_eq.
    + apply lookup_insert_eq.
    + apply lookup_insert_eq.
Qed.

(** Over the lane loop: the slot ids handed to [buffer.add] are the ids of
    the logged rounds, one after the other, and the step counter advanced by
    the number of rounds. *)
Lemma process_lanes_rounds pos rows : ∀ k s t s' t',
  process_lanes pos k rows (s, t) = Ok (s', t') →
  ∃ new,
    rounds t' = rounds t ++ new ∧
    buffer_ids_to_save t' = buffer_ids_to_save t ++ concat (round_ids <$> new) ∧
    step_count t' = step_count t + length new ∧
    Forall (fun r => valid (round_ready r) ≠ [] ∧
                     Z.of_nat <$> round_ids r ≡ₚ valid (round_ready r)) new.
Proof.
  induction rows as [|row rows IH]; intros k s t s' t' H; cbn in H.
  - inversion H; subst. exists []. cbn. rewrite !app_nil_r, Nat.add_0_r.
    auto.
  - apply bind_Ok in H as ([s1 t1] & H1 & H).
    apply IH in H as (new & Hr & Hi & Hc & HF).
    apply process_lane_rounds in H1
      as [(Hr1 & Hi1 & _ & Hc1)
         |(r & ids & exps & Hr1 & Hi1 & _ & Hc1 & Hv & Hs & _)].
    + exists new. rewrite Hr, Hi, Hc, Hr1, Hi1, Hc1. auto.
    + exists (mkRound (env_id (info row)) r ids :: new).
      rewrite Hr, Hi, Hc, Hr1, Hi1, Hc1. cbn [fmap list_fmap concat length
        round_ids]. rewrite <- !app_assoc. cbn [app].
      split; [reflexivity|]. split; [reflexivity|]. split; [lia|].
      constructor; [|exact HF]. cbn. split; [exact Hv|].
      symmetry. apply sorted_eq_iff. exact Hs.
Qed.

Lemma valid_nonempty_ids (r : Round) :
  valid (round_ready r) ≠ [] →
  Z.of_nat <$> round_ids r ≡ₚ valid (round_ready r) →
  1 ≤ length (round_ids r).
Proof.
  intros Hv Hp. apply Permutation_length in Hp. rewrite length_fmap in Hp.
  destruct (valid (round_ready r)); [congruence|]. cbn in Hp. lia.
Qed.

End CollectiveRounds.

Lemma iterate_break (V : Variant) env n_step n_episode tick (L L' : Loop V)
    (lg : IterLog V) (brk : bool) :
  iterate V env n_step n_episode tick L = Ok (L', lg, brk) →
  brk = reached n_step (step_count L') || reached n_episode (episode_count L').
Proof.
  intros H. unfold iterate in H.
  apply bind_Ok in H as ([s1 t] & _ & H).
  destruct (0 <? length (v_done_envs V t)).
  - apply bind_Ok in H as ([] & _ & H). inversion H; subst. reflexivity.
  - inversion H; subst. reflexivity.
Qed.

Lemma collective_iterate_rounds pos env n_step n_episode tick
    (L L' : Loop (collective pos)) lg brk :
  iterate (collective pos) env n_step n_episode tick L = Ok (L', lg, brk) →
  step_count L' = step_count L + length (Collective.rounds (lg_tick lg)) ∧
  Collective.buffer_ids_to_save (lg_tick lg)
    = concat (Collective.round_ids <$> Collective.rounds (lg_tick lg)) ∧
  Forall (fun r => Collective.valid (Collective.round_ready r) ≠ [] ∧
                   Z.of_nat <$> Collective.round_ids r
                     ≡ₚ Collective.valid (Collective.round_ready r))
         (Collective.rounds (lg_tick lg)).
Proof.
  intros H. apply iterate_inv in H
    as (s1 & t & Hlanes & _ & Htick & _ & _ & Hsteps & _).
  cbn in Hlanes. apply CollectiveRounds.process_lanes_rounds in Hlanes
    as (new & Hr & Hi & Hc & HF).
  cbn in Hr, Hi, Hc. rewrite Htick, Hsteps, Hr, Hi.
  cbn [v_step_count collective]. rewrite Hc. auto.
Qed.

(** C2, the claim as stated fails.  In the run [two_rounds_run] two
    environments complete a joint round on the same tick; the single
    [buffer.add] call of that tick receives the slot ids of both rounds,
    which are not the [ready] set of either environment. *)
Lemma joint_round_counterexample :
  raised two_rounds_run = None ∧
  collective_ids two_rounds_run = [[0; 2]] ∧
  collective_rounds two_rounds_run
    = [[Collective.mkRound 0 [0%Z; (-1)%Z] [0];
        Collective.mkRound 1 [2%Z; (-1)%Z] [2]]] ∧
  ¬ (Z.of_nat <$> [0; 2] ≡ₚ Collective.valid [0%Z; (-1)%Z]) ∧
  ¬ (Z.of_nat <$> [0; 2] ≡ₚ Collective.valid [2%Z; (-1)%Z]).
Proof.
  repeat split; try (vm_compute; reflexivity);
    intros H; apply Permutation_length in H; vm_compute in H; discriminate.
Qed.

(** C2, amended.  In [CollectiveExperienceCollector.collect] the slot ids
    passed to the [buffer.add] call of a tick are the concatenation of the
    joint rounds handed over by the lanes of that tick, at most one per
    lane and so one per environment; each round is the whole list of slot
    ids accumulated for its environment and is a permutation of the
    non-empty set of valid entries of that environment's [ready] array (the
    comparison of the two sorted lists holds exactly when they are
    permutations of each other), which is either the array held when the
    lane started or the snapshot of [filling] taken in that lane; after the
    hand-over the environment's accumulated records, its slot-id list and
    its [ready] array are empty. *)
Theorem joint_round_amended :
  (∀ l k : list Z, Collective.sorted l = Collective.sorted k ↔ l ≡ₚ k) ∧
  (∀ pos env n_step n_episode tick (L L' : Loop (collective pos)) lg brk,
     iterate (collective pos) env n_step n_episode tick L = Ok (L', lg, brk) →
     Collective.buffer_ids_to_save (lg_tick lg)
       = concat (Collective.round_ids <$> Collective.rounds (lg_tick lg)) ∧
     Forall (fun r => Collective.valid (Collective.round_ready r) ≠ [] ∧
                      Z.of_nat <$> Collective.round_ids r
                        ≡ₚ Collective.valid (Collective.round_ready r))
            (Collective.rounds (lg_tick lg))) ∧
  (∀ pos env_idx row s t s' t',
     Collective.process_lane pos env_idx row (s, t) = Ok (s', t') →
     let env := env_id (info row) in
     (Collective.rounds t' = Collective.rounds t ∧
      Collective.buffer_ids_to_save t' = Collective.buffer_ids_to_save t) ∨
     (∃ r ids,
        Collective.rounds t'
          = Collective.rounds t ++ [Collective.mkRound env r ids] ∧
        Collective.buffer_ids_to_save t'
          = Collective.buffer_ids_to_save t ++ ids ∧
        Collective.valid r ≠ [] ∧
        Z.of_nat <$> ids ≡ₚ Collective.valid r ∧
        (Collective.ready s !! env = Some r ∨
         ∃ arr v, Collective.filling s !! env = Some arr ∧
                  r = <[agent_id (obs row) := v]> arr) ∧
        Collective.ready s' !! env
          = Some (Collective.empty_array (agents_num (Collective.store s))) ∧
        Collective.ids_to_save s' !! env = Some [] ∧
        Collective.exps_to_save s' !! env = Some [])).
Proof.
  split; [exact CollectiveRounds.sorted_eq_iff|]. split.
  - intros pos env n_step n_episode tick L L' lg brk H.
    apply collective_iterate_rounds in H as (_ & Hi & HF). auto.
  - intros pos env_idx row s t s' t' H env.
    apply CollectiveRounds.process_lane_rounds in H
      as [(Hr & Hi & _)
         |(r & ids & exps & Hr & Hi & _ & _ & Hv & Hs & Hp & Hr' & Hi' & He')].
    + left. auto.
    + right. exists r, ids. fold env in Hr, Hp, Hr', Hi', He'.
      repeat (split; [assumption|]).
      split; [symmetry; apply CollectiveRounds.sorted_eq_iff; exact Hs|].
      auto.
Qed.

Lemma joint_round_amended_witness :
  ∃ s' t',
    Collective.process_lane (scenario_pos 0) 0 lane_0_round
      (Collective.fresh 2 1, Collective.empty_tick 0) = Ok (s', t') ∧
    ((Collective.rounds t' = [] ∧ Collective.buffer_ids_to_save t' = []) ∨
     (∃ r ids,
        Collective.rounds t' = [] ++ [Collective.mkRound 0 r ids] ∧
        Collective.buffer_ids_to_save t' = [] ++ ids ∧
        Collective.valid r ≠ [] ∧
        Z.of_nat <$> ids ≡ₚ Collective.valid r ∧
        (Collective.ready (Collective.fresh 2 1) !! 0 = Some r ∨
         ∃ arr v, Collective.filling (Collective.fresh 2 1) !! 0 = Some arr ∧
                  r = <[0 := v]> arr) ∧
        Collective.ready s' !! 0 = Some (Collective.empty_array 2) ∧
        Collective.ids_to_save s' !! 0 = Some [] ∧
        Collective.exps_to_save s' !! 0 = Some [])).
Proof.
  assert (Hok : is_ok (Collective.process_lane (scenario_pos 0) 0 lane_0_round
                         (Collective.fresh 2 1, Collective.empty_tick 0))
                 = true) by (vm_compute; reflexivity).
  destruct (Collective.process_lane (scenario_pos 0) 0 lane_0_round
              (Collective.fresh 2 1, Collective.empty_tick 0))
    as [[s' t']|e] eqn:E; [|discriminate Hok].
  exists s', t'. split; [reflexivity|].
  exact (proj2 (proj2 joint_round_amended) (scenario_pos 0) 0 lane_0_round
           (Collective.fresh 2 1) (Collective.empty_tick 0) s' t' E).
Defined.

(** ** The step counter *)

Lemma reached_Some (n : Z) (count : nat) :
  reached (Some n) count = true ↔ (n ≠ 0 ∧ n ≤ Z.of_nat count)%Z.
Proof.
  cbn [reached]. rewrite andb_true_iff, negb_true_iff, Z.eqb_neq, Z.leb_le.
  reflexivity.
Qed.

Lemma removelast_cons_ne {A} (x : A) (l : list A) :
  l ≠ [] → removelast (x :: l) = x :: removelast l.
Proof. destruct l; [congruence|reflexivity]. Qed.

Lemma sum_list_fmap_cons {A} (m : A → nat) (x : A) (l : list A) :
  sum_list (m <$> x :: l) = m x + sum_list (m <$> l).
Proof. reflexivity. Qed.

(** A step-bounded loop whose iterations advance the counter by [m]: the
    counter is the sum of [m] over the iterations; the loop goes on while
    that sum is below the target and is left by the iteration that brings it
    to the target. *)
Lemma collect_loop_step_total (V : Variant) env (m : IterLog V → nat) (n : Z) :
  (0 < n)%Z →
  (∀ tick (L L' : Loop V) lg brk,
     iterate V env (Some n) None tick L = Ok (L', lg, brk) →
     step_count L' = step_count L + m lg) →
  ∀ fuel tick (L Lf : Loop V),
    (Z.of_nat (step_count L) < n)%Z →
    (run_outcome (collect_loop V env (Some n) None fuel tick L) = Returned Lf →
     log (collect_loop V env (Some n) None fuel tick L) ≠ [] ∧
     step_count Lf
       = step_count L
         + sum_list (m <$> log (collect_loop V env (Some n) None fuel tick L)) ∧
     (Z.of_nat
        (step_count L
         + sum_list (m <$> removelast
                      (log (collect_loop V env (Some n) None fuel tick L))))
      < n ≤ Z.of_nat (step_count Lf))%Z) ∧
    (run_outcome (collect_loop V env (Some n) None fuel tick L) = OutOfFuel Lf →
     step_count Lf
       = step_count L
         + sum_list (m <$> log (collect_loop V env (Some n) None fuel tick L)) ∧
     (Z.of_nat (step_count Lf) < n)%Z).
Proof.
  intros Hn Hstep fuel.
  induction fuel as [|fuel IH]; intros tick L Lf Hlt.
  - cbn. split; [discriminate|]. intros H. inversion H; subst.
    split; [lia|exact Hlt].
  - cbn [collect_loop].
    destruct (negb (length (data_obs L) =? length (ready_env_ids L)));
      cbn [run_outcome]; [split; discriminate|].
    destruct (iterate V env (Some n) None tick L)
      as [[[L' lg] brk]|e] eqn:Hit; cbn [run_outcome]; [|split; discriminate].
    pose proof (iterate_break _ _ _ _ _ _ _ _ _ Hit) as Hbrk.
    pose proof (Hstep _ _ _ _ _ Hit) as Hs.
    change (reached None (episode_count L')) with false in Hbrk.
    rewrite orb_false_r in Hbrk.
    destruct brk; cbn [run_outcome log].
    + split; [|discriminate]. intros H. inversion H; subst Lf.
      symmetry in Hbrk. apply reached_Some in Hbrk as [_ Hle].
      split; [discriminate|]. cbn [removelast].
      rewrite sum_list_fmap_cons. cbn. split; lia.
    + assert (Hlt' : (Z.of_nat (step_count L') < n)%Z).
      { destruct (Z.le_gt_cases n (Z.of_nat (step_count L'))) as [Hle|]; [|lia].
        assert (reached (Some n) (step_count L') = true)
          by (apply reached_Some; lia).
        congruence. }
      destruct (IH (S tick) L' Lf Hlt') as [Hret Hout]. split.
      * intros H. destruct (Hret H) as (Hne & Hsum & Hb).
        split; [discriminate|].
        rewrite removelast_cons_ne by exact Hne.
        rewrite !sum_list_fmap_cons. split; lia.
      * intros H. destruct (Hout H) as (Hsum & Hb).
        rewrite !sum_list_fmap_cons. split; lia.
Qed.

Lemma collect_step_total (V : Variant) env (m : IterLog V → nat) is_async
    env_num (n : Z) fuel (s : vSelf V) data (Lf : Loop V) :
  (∀ tick (L L' : Loop V) lg brk,
     iterate V env (Some n) None tick L = Ok (L', lg, brk) →
     step_count L' = step_count L + m lg) →
  let r := collect V env is_async env_num (Some n) None fuel s data in
  (run_outcome r = Returned Lf →
   step_count Lf = sum_list (m <$> log r) ∧
   (Z.of_nat (sum_list (m <$> removelast (log r)))
    < n ≤ Z.of_nat (sum_list (m <$> log r)))%Z) ∧
  (run_outcome r = OutOfFuel Lf →
   step_count Lf = sum_list (m <$> log r) ∧
   (Z.of_nat (sum_list (m <$> log r)) < n)%Z).
Proof.
  intros Hstep. cbv zeta. unfold collect.
  destruct (check_targets is_async env_num (Some n) None data)
    as [[[ready data'] w]|e] eqn:Hc; cbn [run_outcome log];
    [|split; discriminate].
  assert (Hn : (0 < n)%Z).
  { unfold check_targets in Hc. destruct is_async; [discriminate|].
    cbn in Hc. destruct (0 <? n)%Z eqn:Hn; [|discriminate].
    apply Z.ltb_lt in Hn. exact Hn. }
  destruct (collect_loop_step_total V env m n Hn Hstep fuel 0
              (mkLoop s data' ready 0 0 None) Lf) as [Hret Hout];
    [cbn [step_count]; lia|].
  cbn [step_count] in Hret, Hout. split.
  - intros H. destruct (Hret H) as (_ & Hsum & Hb).
    rewrite Hsum in *. cbn [Nat.add] in *. split; [reflexivity|lia].
  - intros H. destruct (Hout H) as (Hsum & Hb).
    rewrite Hsum in *. cbn [Nat.add] in *. split; [reflexivity|lia].
Qed.

(** C9.  In both variants an iteration ends the loop on the step target
    exactly when [n_step] is non-zero and [step_count] has reached it, but
    the counter advances differently.  In [MultiAgentCollector.collect] an
    iteration adds the number of transitions it hands to [buffer.add], so a
    step-bounded call returns on the first tick at which the transitions
    handed over so far number at least [n_step]; in
    [CollectiveExperienceCollector.collect] it adds one per joint round
    handed over, whatever the number (at least one) of transitions in the
    round, so the call returns on the first tick at which the joint rounds
    handed over so far number at least [n_step].  On the same stream of two
    alternating agents and [n_step = 2] the first returns after three ticks
    with 2 steps while the second is still running with 1 step, both having
    handed over 2 transitions; with [n_step = 1] the second returns on its
    third tick having handed over 2 transitions. *)
Theorem step_count_semantics :
  (∀ env n_step n_episode tick (L L' : Loop multi_agent) lg brk,
     iterate multi_agent env n_step n_episode tick L = Ok (L', lg, brk) →
     step_count L'
       = step_count L + length (MultiAgent.buffer_ids_to_save (lg_tick lg)) ∧
     brk = reached n_step (step_count L')
           || reached n_episode (episode_count L')) ∧
  (∀ pos env n_step n_episode tick (L L' : Loop (collective pos)) lg brk,
     iterate (collective pos) env n_step n_episode tick L = Ok (L', lg, brk) →
     step_count L' = step_count L + length (Collective.rounds (lg_tick lg)) ∧
     Collective.buffer_ids_to_save (lg_tick lg)
       = concat (Collective.round_ids <$> Collective.rounds (lg_tick lg)) ∧
     Forall (fun r => 1 ≤ length (Collective.round_ids r))
            (Collective.rounds (lg_tick lg)) ∧
     brk = reached n_step (step_count L')
           || reached n_episode (episode_count L')) ∧
  ((∀ n count,
      reached (Some n) count = true ↔ (n ≠ 0 ∧ n ≤ Z.of_nat count)%Z) ∧
   (∀ count, reached None count = false)) ∧
  (∀ env n tick (L L' : Loop multi_agent) lg brk,
     (0 < n)%Z →
     iterate multi_agent env (Some n) None tick L = Ok (L', lg, brk) →
     (brk = true ↔
      (n ≤ Z.of_nat (step_count L
                     + length (MultiAgent.buffer_ids_to_save (lg_tick lg))))%Z))
  ∧
  (∀ pos env n tick (L L' : Loop (collective pos)) lg brk,
     (0 < n)%Z →
     iterate (collective pos) env (Some n) None tick L = Ok (L', lg, brk) →
     (brk = true ↔
      (n ≤ Z.of_nat (step_count L
                     + length (Collective.rounds (lg_tick lg))))%Z)) ∧
  (∀ env is_async env_num (n : Z) fuel s data L,
     (run_outcome (collect multi_agent env is_async env_num (Some n) None
                     fuel s data) = Returned L →
      step_count L
        = total_flushed (log (collect multi_agent env is_async env_num
                                (Some n) None fuel s data)) ∧
      (Z.of_nat (total_flushed
                   (removelast (log (collect multi_agent env is_async env_num
                                       (Some n) None fuel s data))))
       < n ≤ Z.of_nat (total_flushed
                         (log (collect multi_agent env is_async env_num
                                 (Some n) None fuel s data))))%Z) ∧
     (run_outcome (collect multi_agent env is_async env_num (Some n) None
                     fuel s data) = OutOfFuel L →
      step_count L
        = total_flushed (log (collect multi_agent env is_async env_num
                                (Some n) None fuel s data)) ∧
      (Z.of_nat (total_flushed
                   (log (collect multi_agent env is_async env_num
                           (Some n) None fuel s data))) < n)%Z)) ∧
  (∀ pos env is_async env_num (n : Z) fuel s data L,
     (run_outcome (collect (collective pos) env is_async env_num (Some n) None
                     fuel s data) = Returned L →
      step_count L
        = total_rounds (log (collect (collective pos) env is_async env_num
                               (Some n) None fuel s data)) ∧
      (Z.of_nat (total_rounds
                   (removelast (log (collect (collective pos) env is_async
                                       env_num (Some n) None fuel s data))))
       < n ≤ Z.of_nat (total_rounds
                         (log (collect (collective pos) env is_async env_num
                                 (Some n) None fuel s data))))%Z) ∧
     (run_outcome (collect (collective pos) env is_async env_num (Some n) None
                     fuel s data) = OutOfFuel L →
      step_count L
        = total_rounds (log (collect (collective pos) env is_async env_num
                               (Some n) None fuel s data)) ∧
      (Z.of_nat (total_rounds
                   (log (collect (collective pos) env is_async env_num
                           (Some n) None fuel s data))) < n)%Z)) ∧
  (steps alternating_multi = Some 2 ∧
   total_flushed (log alternating_multi) = 2 ∧
   steps alternating_collective = Some 1 ∧
   total_flushed (log alternating_collective) = 2 ∧
   returned (alternating_multi_until 2) = true ∧
   env_steps (alternating_multi_until 2) = 3 ∧
   steps (alternating_multi_until 2) = Some 2 ∧
   flushed_in <$> log (alternating_multi_until 2) = [0; 1; 1] ∧
   returned (alternating_collective_until 2) = false ∧
   env_steps (alternating_collective_until 2) = 3 ∧
   steps (alternating_collective_until 2) = Some 1 ∧
   flushed_in <$> log (alternating_collective_until 2) = [0; 0; 2] ∧
   returned (alternating_collective_until 1) = true ∧
   env_steps (alternating_collective_until 1) = 3 ∧
   steps (alternating_collective_until 1) = Some 1 ∧
   flushed_in <$> log (alternating_collective_until 1) = [0; 0; 2]).
Proof.
  assert (Hm : ∀ env n_step n_episode tick (L L' : Loop multi_agent) lg brk,
    iterate multi_agent env n_step n_episode tick L = Ok (L', lg, brk) →
    step_count L'
    = step_count L + length (MultiAgent.buffer_ids_to_save (lg_tick lg))).
  { intros env n_step n_episode tick L L' lg brk H.
    apply iterate_inv in H as (s1 & t & _ & _ & Htick & _ & _ & Hsteps & _).
    rewrite Hsteps, Htick. cbn [v_step_count multi_agent].
    destruct (MultiAgent.buffer_ids_to_save t); cbn [length Nat.ltb Nat.leb];
      [lia|reflexivity]. }
  assert (Hbrk : ∀ V env n tick (L L' : Loop V) lg brk k,
    (0 < n)%Z →
    iterate V env (Some n) None tick L = Ok (L', lg, brk) →
    step_count L' = k →
    (brk = true ↔ (n ≤ Z.of_nat k)%Z)).
  { intros V env n tick L L' lg brk k Hn H <-.
    apply iterate_break in H.
    change (reached None (episode_count L')) with false in H.
    rewrite orb_false_r in H. rewrite H, reached_Some. lia. }
  split; [|split; [|split; [|split; [|split; [|split; [|split]]]]]].
  - intros env n_step n_episode tick L L' lg brk H.
    split; [eapply Hm; exact H|eapply iterate_break; exact H].
  - intros pos env n_step n_episode tick L L' lg brk H.
    pose proof (iterate_break _ _ _ _ _ _ _ _ _ H) as Hb.
    apply collective_iterate_rounds in H as (Hs & Hi & HF).
    split; [exact Hs|]. split; [exact Hi|]. split; [|exact Hb].
    eapply Forall_impl; [exact HF|].
    intros r [Hv Hp]. apply CollectiveRounds.valid_nonempty_ids; assumption.
  - split; [exact reached_Some|reflexivity].
  - intros env n tick L L' lg brk Hn H.
    eapply Hbrk; [exact Hn|exact H|]. eapply Hm; exact H.
  - intros pos env n tick L L' lg brk Hn H.
    eapply Hbrk; [exact Hn|exact H|].
    apply collective_iterate_rounds in H as (Hs & _). exact Hs.
  - intros env is_async env_num n fuel s data L.
    apply (collect_step_total multi_agent env flushed_in).
    intros tick L0 L' lg brk H. eapply Hm; exact H.
  - intros pos env is_async env_num n fuel s data L.
    apply (collect_step_total (collective pos) env
             (fun lg : IterLog (collective pos) =>
                length (Collective.rounds (lg_tick lg)))).
    intros tick L0 L' lg brk H.
    apply collective_iterate_rounds in H as (Hs & _). exact Hs.
  - repeat split; vm_compute; reflexivity.
Qed.

Lemma step_count_semantics_witness :
  (∃ (L' : Loop multi_agent) lg brk,
     iterate multi_agent one_shot_env (Some 1%Z) None 0 one_shot_start
       = Ok (L', lg, brk) ∧
     MultiAgent.buffer_ids_to_save (lg_tick lg) = [0] ∧
     step_count L' = 1 ∧ brk = true) ∧
  (∃ L, run_outcome (alternating_multi_until 2) = Returned L ∧
        step_count L = 2 ∧
        total_flushed (removelast (log (alternating_multi_until 2))) = 1 ∧
        total_flushed (log (alternating_multi_until 2)) = 2) ∧
  (∃ L, run_outcome (alternating_collective_until 2) = OutOfFuel L ∧
        step_count L = 1 ∧
        total_rounds (log (alternating_collective_until 2)) = 1 ∧
        total_flushed (log (alternating_collective_until 2)) = 2).
Proof.
  split; [|split].
  - assert (Hview : result_map
              (fun x : Loop multi_agent * IterLog multi_agent * bool =>
                 MultiAgent.buffer_ids_to_save (lg_tick x.1.2))
              (iterate multi_agent one_shot_env (Some 1%Z) None 0
                 one_shot_start) = Ok [0]) by (vm_compute; reflexivity).
    destruct (iterate multi_agent one_shot_env (Some 1%Z) None 0
                one_shot_start) as [[[L' lg] brk]|e] eqn:E;
      [|discriminate Hview].
    cbn [result_map fst snd] in Hview. injection Hview as Hids.
    exists L', lg, brk. split; [reflexivity|]. split; [exact Hids|].
    pose proof (proj1 step_count_semantics one_shot_env (Some 1%Z) None 0
                  one_shot_start L' lg brk E) as [Hs _].
    pose proof (proj1 (proj2 (proj2 (proj2 step_count_semantics)))
                  one_shot_env 1%Z 0 one_shot_start L' lg brk
                  ltac:(lia) E) as Hb.
    rewrite Hids in Hs, Hb. cbn in Hs, Hb.
    split; [exact Hs|]. apply Hb. lia.
  - assert (Hret : returned (alternating_multi_until 2) = true)
      by (vm_compute; reflexivity).
    unfold returned in Hret.
    destruct (run_outcome (alternating_multi_until 2)) as [L| |] eqn:E;
      try discriminate Hret.
    exists L. split; [reflexivity|].
    destruct (proj1 (proj1 (proj2 (proj2 (proj2 (proj2 (proj2
                step_count_semantics)))))
                alternating_env false 1 2%Z 3 (fresh_store 2 1) [mkObs 0 0] L)
                E) as [Hs _].
    fold (alternating_multi_until 2) in Hs. rewrite Hs.
    repeat split; vm_compute; reflexivity.
  - assert (Hout : bool_decide (is_Some (final_loop
                     (alternating_collective_until 2)))
                   && negb (returned (alternating_collective_until 2)) = true)
      by (vm_compute; reflexivity).
    unfold final_loop, returned in Hout.
    destruct (run_outcome (alternating_collective_until 2)) as [L| |L]
      eqn:E; try discriminate Hout.
    exists L. split; [reflexivity|].
    destruct (proj2 (proj1 (proj2 (proj2 (proj2 (proj2 (proj2 (proj2
                step_count_semantics))))))
                scenario_pos alternating_env false 1 2%Z 3
                (Collective.fresh 2 1) [mkObs 0 0] L)
                E) as [Hs _].
    fold (alternating_collective_until 2) in Hs. rewrite Hs.
    repeat split; vm_compute; reflexivity.
Defined.

(** ** Trimming of surplus environments *)

Lemma mask_out_nil {A} (l : list A) : mask_out [] l = l.
Proof.
  unfold mask_out.
  assert (H : ∀ (f : nat → A → nat * A) (k : list A),
             (∀ i x, (f i x).2 = x) →
             (fun p : nat * A => p.2)
               <$> filter (fun p : nat * A => p.1 ∉ []) (imap f k) = k).
  { intros f k. revert f. induction k as [|x k IH]; intros f Hf;
      [reflexivity|].
    rewrite imap_cons, filter_cons_True by apply not_elem_of_nil.
    cbn [fmap list_fmap]. rewrite Hf. f_equal. apply IH.
    intros i y. apply Hf. }
  apply H. reflexivity.
Qed.

Lemma filter_fst_length {A} (idxs : list nat) (l : list (nat * A)) :
  length (filter (fun p : nat * A => p.1 ∉ idxs) l)
  = length (filter (fun i : nat => i ∉ idxs) (l.*1)).
Proof.
  induction l as [|[i x] l IH]; [reflexivity|].
  cbn [fmap list_fmap fst]. rewrite !filter_cons. cbn [fst].
  destruct (decide (i ∉ idxs)); cbn [length]; rewrite IH; reflexivity.
Qed.

Lemma imap_pair_fst {A} (l : list A) : (imap pair l).*1 = seq 0 (length l).
Proof.
  rewrite fmap_imap.
  rewrite (imap_ext _ (fun j _ => id j)) by reflexivity.
  rewrite (imap_seq_0 l id). apply list_fmap_id.
Qed.

Lemma filter_not_in_seq (idxs : list nat) (n : nat) :
  NoDup idxs → Forall (fun i => i < n) idxs →
  length (filter (fun i => i ∉ idxs) (seq 0 n)) + length idxs = n.
Proof.
  intros Hnd Hlt.
  pose proof (filter_app_complement (fun i => i ∉ idxs) (seq 0 n)) as Hperm.
  apply Permutation_length in Hperm. rewrite length_app, length_seq in Hperm.
  assert (Hin : filter (fun i : nat => ¬ (i ∉ idxs)) (seq 0 n) ≡ₚ idxs).
  { apply NoDup_Permutation.
    - apply NoDup_filter, NoDup_seq.
    - exact Hnd.
    - intros i. rewrite list_elem_of_filter, elem_of_seq. split.
      + intros [Hi _]. destruct (decide (i ∈ idxs)); [assumption|].
        contradiction.
      + intros Hi. split; [intros Hn; contradiction|].
        rewrite Forall_forall in Hlt. specialize (Hlt i Hi). lia. }
  apply Permutation_length in Hin. lia.
Qed.

Lemma mask_out_length {A} (idxs : list nat) (l : list A) :
  NoDup idxs → Forall (fun i => i < length l) idxs →
  length (mask_out idxs l) + length idxs = length l.
Proof.
  intros Hnd Hlt. unfold mask_out. rewrite length_fmap.
  transitivity (length (filter (fun i => i ∉ idxs) ((imap pair l).*1))
                + length idxs).
  - f_equal. apply filter_fst_length.
  - rewrite imap_pair_fst. apply filter_not_in_seq; assumption.
Qed.

Lemma StronglySorted_lt_NoDup (l : list nat) : StronglySorted lt l → NoDup l.
Proof.
  induction 1 as [|x l _ IH Hx]; constructor; [|exact IH].
  intros Hin. rewrite Forall_forall in Hx. specialize (Hx x Hin). lia.
Qed.

Lemma StronglySorted_lt_le (l : list nat) :
  StronglySorted lt l → StronglySorted le l.
Proof.
  induction 1 as [|x l _ IH Hx]; constructor; [exact IH|].
  eapply Forall_impl; [exact Hx|]. intros y Hy. lia.
Qed.

(** Sorting a list that is already ascending changes nothing. *)
Lemma merge_sort_ascending (l : list nat) :
  StronglySorted lt l → merge_sort Nat.le l = l.
Proof.
  intros H. apply (StronglySorted_unique Nat.le).
  - apply StronglySorted_merge_sort; apply _.
  - apply StronglySorted_lt_le. exact H.
  - apply merge_sort_Permutation.
Qed.

Lemma take_ascending (k : nat) (l : list nat) (n : nat) :
  StronglySorted lt l → Forall (fun i => i < n) l →
  NoDup (take k l) ∧ Forall (fun i => i < n) (take k l).
Proof.
  intros Hs Hlt. split.
  - eapply sublist_NoDup; [|apply sublist_take].
    apply StronglySorted_lt_NoDup. exact Hs.
  - apply Forall_take. exact Hlt.
Qed.

Lemma completion_recorded_local n env_idx row tr tr' d d' :
  completion_recorded n env_idx row tr tr' d d' →
  ∃ l, d' = d ++ l ∧ Forall (fun x => local_of x = env_idx) l ∧ length l ≤ 1.
Proof.
  unfold completion_recorded. destruct (done row).
  - intros (l & k & _ & _ & ->). eexists. split; [reflexivity|].
    destruct (_ || _); cbn; split; auto.
  - intros (_ & ->). exists []. rewrite app_nil_r. cbn. auto.
Qed.

Lemma ascending_block k (l new : list (nat * nat * Z)) n :
  Forall (fun x => local_of x = k) l → length l ≤ 1 →
  StronglySorted lt (local_of <$> new) →
  Forall (fun i => S k ≤ i < S k + n) (local_of <$> new) →
  StronglySorted lt (local_of <$> (l ++ new)) ∧
  Forall (fun i => k ≤ i < k + S n) (local_of <$> (l ++ new)).
Proof.
  intros Hl Hlen Hs Hb.
  assert (Hb' : Forall (fun i => k ≤ i < k + S n) (local_of <$> new))
    by (eapply Forall_impl; [exact Hb|]; cbn; intros; lia).
  destruct l as [|x [|y l]]; cbn in Hlen; [auto| |lia].
  apply Forall_cons in Hl as [Hx _]. cbn [app fmap list_fmap]. rewrite Hx.
  split.
  - constructor; [exact Hs|].
    eapply Forall_impl; [exact Hb|]. cbn. intros; lia.
  - constructor; [lia|exact Hb'].
Qed.

Lemma multi_agent_done_envs_ascending rows : ∀ k s t s' t',
  MultiAgent.process_lanes k rows (s, t) = Ok (s', t') →
  ∃ new,
    MultiAgent.done_envs t' = MultiAgent.done_envs t ++ new ∧
    StronglySorted lt (local_of <$> new) ∧
    Forall (fun i => k ≤ i < k + length rows) (local_of <$> new).
Proof.
  induction rows as [|row rows IH]; intros k s t s' t' H; cbn in H.
  - inversion H; subst. exists []. rewrite app_nil_r.
    repeat split; constructor.
  - apply bind_Ok in H as ([s1 t1] & H1 & H).
    apply IH in H as (new & Hd & Hs & Hb).
    apply MultiAgentFacts.process_lane_spec in H1 as (_ & _ & _ & Hm & _).
    assert (Hrec : completion_recorded (agents_num s) k row
                     (done_agents_per_env s) (done_agents_per_env s1)
                     (MultiAgent.done_envs t) (MultiAgent.done_envs t1)).
    { unfold completion_recorded.
      destruct Hm as [(-> & Htr & Hd1)|(-> & l & Hl & Htr & Hd1)]; [auto|].
      exists l. eexists. eauto. }
    apply completion_recorded_local in Hrec as (l & Hl & HF & Hlen).
    exists (l ++ new). rewrite Hd, Hl, app_assoc. split; [reflexivity|].
    cbn [length]. apply ascending_block; assumption.
Qed.

Lemma collective_done_envs_ascending pos rows : ∀ k s t s' t',
  Collective.process_lanes pos k rows (s, t) = Ok (s', t') →
  ∃ new,
    Collective.done_envs t' = Collective.done_envs t ++ new ∧
    StronglySorted lt (local_of <$> new) ∧
    Forall (fun i => k ≤ i < k + length rows) (local_of <$> new).
Proof.
  induction rows as [|row rows IH]; intros k s t s' t' H; cbn in H.
  - inversion H; subst. exists []. rewrite app_nil_r.
    repeat split; constructor.
  - apply bind_Ok in H as ([s1 t1] & H1 & H).
    apply IH in H as (new & Hd & Hs & Hb).
    apply CollectiveDone.process_lane_done in H1 as [_ Hrec].
    apply completion_recorded_local in Hrec as (l & Hl & HF & Hlen).
    exists (l ++ new). rewrite Hd, Hl, app_assoc. split; [reflexivity|].
    cbn [length]. apply ascending_block; assumption.
Qed.

Section Trimming.

Variable V : Variant.
Variable env : nat → nat → StepOut.

(** What the two variants have in common here: the completed lanes come
    out of the lane loop in ascending order of their position, and
    [env_ind_local] is that list. *)
Hypothesis lanes_ascending :
  ∀ tick rows s steps s' t,
    v_lanes V tick rows s steps = Ok (s', t) →
    StronglySorted lt (local_of <$> v_done_envs V t) ∧
    Forall (fun i => i < length rows) (local_of <$> v_done_envs V t).
Hypothesis local_as_built :
  ∀ l, StronglySorted lt l → v_local V l = l.

Lemma iterate_trimmed (n : Z) n_step tick (L L' : Loop V) lg brk :
  (0 < n)%Z →
  (Z.of_nat (length (ready_env_ids L)) ≤ n - Z.of_nat (episode_count L))%Z →
  length (data_obs L) = length (ready_env_ids L) →
  iterate V env n_step (Some n) tick L = Ok (L', lg, brk) →
  (Z.of_nat (length (ready_env_ids L')) ≤ n - Z.of_nat (episode_count L'))%Z ∧
  trimmed_ascending lg.
Proof.
  intros Hn Hinv Hlen H.
  apply iterate_inv in H
    as (s1 & t & Hlanes & _ & _ & _ & _ & _ & _ & Hrb & Hra & Hep & Hcase).
  apply lanes_ascending in Hlanes as [Hsorted Hbound].
  rewrite length_zip_with, length_fmap, Hlen, Nat.min_id in Hbound.
  unfold trimmed_ascending. rewrite Hrb, Hra.
  destruct Hcase as [(Hnil & _ & _ & Hr & Hloc & Hsur)
                    |(_ & _ & Hloc & Hsur & Hr & _)].
  - rewrite Hloc, Hsur, Hr, Hep, Hnil. cbn [length].
    split; [lia|]. split; [constructor|]. split; [constructor|reflexivity].
  - rewrite local_as_built in Hloc by exact Hsorted.
    assert (Hnz : truthy (Some n) = true).
    { cbn. destruct (n =? 0)%Z eqn:E; [|reflexivity].
      apply Z.eqb_eq in E. lia. }
    rewrite Hnz in Hsur.
    cbn zeta in Hr. rewrite Hsur, Hloc in Hr. rewrite Hsur, Hloc, Hr, Hep.
    set (z := (Z.of_nat (length (ready_env_ids L))
               - (n - Z.of_nat (episode_count L
                                + length (v_done_envs V t))))%Z) in *.
    assert (Hzle : (z ≤ Z.of_nat (length (v_done_envs V t)))%Z)
      by (unfold z; lia).
    destruct (0 <? z)%Z eqn:Hz.
    + apply Z.ltb_lt in Hz.
      destruct (take_ascending (Z.to_nat z) _ _ Hsorted Hbound) as [Hnd Hlt].
      pose proof (mask_out_length _ (ready_env_ids L) Hnd Hlt) as Hm.
      rewrite length_take, !length_fmap in *.
      split; [unfold z in *; lia|].
      split; [exact Hsorted|]. split; [exact Hbound|].
      split; [exact Hzle|]. split; [reflexivity|]. lia.
    + apply Z.ltb_ge in Hz. rewrite mask_out_nil.
      split; [unfold z in *; lia|].
      split; [exact Hsorted|]. split; [exact Hbound|]. reflexivity.
Qed.

Lemma collect_trimmed is_async env_num (n : Z) fuel (s : vSelf V) data :
  Forall trimmed_ascending
    (log (collect V env is_async env_num None (Some n) fuel s data)).
Proof.
  apply (collect_log_Forall V env is_async env_num None (Some n)
           (fun L => (0 < n)%Z ∧
                     (Z.of_nat (length (ready_env_ids L))
                      ≤ n - Z.of_nat (episode_count L))%Z)).
  - intros tick L L' lg brk [Hn Hinv] Hlen Hit.
    destruct (iterate_trimmed n None tick L L' lg brk Hn Hinv Hlen Hit).
    auto.
  - intros ready data' w Hc. unfold check_targets in Hc.
    destruct is_async; [discriminate|]. cbn in Hc.
    destruct (0 <? n)%Z eqn:Hn; [|discriminate]. cbn in Hc.
    inversion Hc; subst. cbn [ready_env_ids episode_count].
    rewrite length_seq. apply Z.ltb_lt in Hn. lia.
Qed.

End Trimming.

(** C6.  In an [n_episode]-bounded [collect] call of either variant, on
    every iteration the local indices of the completed lanes are strictly
    ascending lane positions at trimming time (as built in the multi-agent
    variant, after the [sorted] call in the collective one); when the
    surplus is positive it never exceeds the number of completed lanes, the
    lanes masked out of the ready set are exactly the first [surplus] of
    them in that order, and the ready set shrinks by exactly [surplus]
    lanes.  With three environments and four episodes wanted, when lanes 0
    and 2 finish on the same tick the surplus is 1 and lane 0 is the one
    removed, in both variants. *)
Theorem trimming_is_ascending :
  (∀ env is_async env_num n fuel s data,
     Forall trimmed_ascending
       (log (collect multi_agent env is_async env_num None (Some n) fuel
               s data))) ∧
  (∀ pos env is_async env_num n fuel s data,
     Forall trimmed_ascending
       (log (collect (collective pos) env is_async env_num None (Some n) fuel
               s data))) ∧
  (raised tie_multi = None ∧
   trimming_of tie_multi = [([0; 2], Some 1%Z, [0; 1; 2], [1; 2])] ∧
   raised tie_collective = None ∧
   trimming_of tie_collective = [([0; 2], Some 1%Z, [0; 1; 2], [1; 2])]).
Proof.
  split; [|split].
  - intros env is_async env_num n fuel s data.
    apply collect_trimmed.
    + intros tick rows s0 steps s' t H. cbn in H.
      apply multi_agent_done_envs_ascending in H as (new & Hd & Hs & Hb).
      cbn in Hd. cbn [v_done_envs multi_agent]. rewrite Hd. split; [exact Hs|].
      eapply Forall_impl; [exact Hb|]. cbn. intros; lia.
    + reflexivity.
  - intros pos env is_async env_num n fuel s data.
    apply collect_trimmed.
    + intros tick rows s0 steps s' t H. cbn in H.
      apply collective_done_envs_ascending in H as (new & Hd & Hs & Hb).
      cbn in Hd. cbn [v_done_envs collective]. rewrite Hd. split; [exact Hs|].
      eapply Forall_impl; [exact Hb|]. cbn. intros; lia.
    + intros l Hl. apply merge_sort_ascending. exact Hl.
  - repeat split; vm_compute; reflexivity.
Qed.

(* ================================================================== *)
(** * Further properties of the collection loop *)

(** ** How a run ends *)

(** What holds when the loop is left: [Q] after the iteration that breaks,
    the invariant otherwise. *)
Lemma collect_loop_end (V : Variant) env n_step n_episode
    (Inv Q : Loop V → Prop) :
  (∀ tick L L' lg brk,
     Inv L → length (data_obs L) = length (ready_env_ids L) →
     iterate V env n_step n_episode tick L = Ok (L', lg, brk) →
     (brk = false → Inv L') ∧ (brk = true → Q L')) →
  ∀ fuel tick L Lf, Inv L →
    (run_outcome (collect_loop V env n_step n_episode fuel tick L)
       = Returned Lf → Q Lf) ∧
    (run_outcome (collect_loop V env n_step n_episode fuel tick L)
       = OutOfFuel Lf → Inv Lf).
Proof.
  intros Hstep fuel. induction fuel as [|fuel IH]; intros tick L Lf HI.
  - cbn. split; [discriminate|]. intros H. inversion H; subst. exact HI.
  - cbn [collect_loop].
    destruct (length (data_obs L) =? length (ready_env_ids L)) eqn:Hlen;
      cbn [negb run_outcome]; [|split; discriminate].
    apply Nat.eqb_eq in Hlen.
    destruct (iterate V env n_step n_episode tick L)
      as [[[L' lg] brk]|e] eqn:Hit; cbn [run_outcome]; [|split; discriminate].
    destruct (Hstep _ _ _ _ _ HI Hlen Hit) as [Hcont Hbrk].
    destruct brk; cbn [run_outcome].
    + split; [|discriminate]. intros H. inversion H; subst. auto.
    + apply IH. auto.
Qed.

Lemma collect_end (V : Variant) env is_async env_num n_step n_episode
    (Inv Q : Loop V → Prop) fuel (s : vSelf V) data Lf :
  (∀ tick L L' lg brk,
     Inv L → length (data_obs L) = length (ready_env_ids L) →
     iterate V env n_step n_episode tick L = Ok (L', lg, brk) →
     (brk = false → Inv L') ∧ (brk = true → Q L')) →
  (∀ ready data' w,
     check_targets is_async env_num n_step n_episode data
       = Ok (ready, data', w) →
     Inv (mkLoop s data' ready 0 0 None)) →
  (run_outcome (collect V env is_async env_num n_step n_episode fuel s data)
     = Returned Lf → Q Lf) ∧
  (run_outcome (collect V env is_async env_num n_step n_episode fuel s data)
     = OutOfFuel Lf → Inv Lf).
Proof.
  intros Hstep Hinit. unfold collect.
  destruct (check_targets is_async env_num n_step n_episode data)
    as [[[ready data'] w]|e] eqn:Hc; cbn [run_outcome];
    [|split; discriminate].
  eapply collect_loop_end; eauto.
Qed.

Lemma multi_agent_lanes_ascending tick rows s steps s' t :
  v_lanes multi_agent tick rows s steps = Ok (s', t) →
  StronglySorted lt (local_of <$> v_done_envs multi_agent t) ∧
  Forall (fun i => i < length rows) (local_of <$> v_done_envs multi_agent t).
Proof.
  intros H. cbn in H.
  apply multi_agent_done_envs_ascending in H as (new & Hd & Hs & Hb).
  cbn in Hd. cbn [v_done_envs multi_agent]. rewrite Hd. split; [exact Hs|].
  eapply Forall_impl; [exact Hb|]. cbn. intros; lia.
Qed.

Lemma collective_lanes_ascending pos tick rows s steps s' t :
  v_lanes (collective pos) tick rows s steps = Ok (s', t) →
  StronglySorted lt (local_of <$> v_done_envs (collective pos) t) ∧
  Forall (fun i => i < length rows)
         (local_of <$> v_done_envs (collective pos) t).
Proof.
  intros H. cbn in H.
  apply collective_done_envs_ascending in H as (new & Hd & Hs & Hb).
  cbn in Hd. cbn [v_done_envs collective]. rewrite Hd. split; [exact Hs|].
  eapply Forall_impl; [exact Hb|]. cbn. intros; lia.
Qed.

Lemma collective_local_as_built pos l :
  StronglySorted lt l → v_local (collective pos) l = l.
Proof. apply merge_sort_ascending. Qed.

Lemma reached_episodes (n : Z) (k : nat) :
  reached None 0 || reached (Some n) k = true → (n ≤ Z.of_nat k)%Z.
Proof.
  cbn. intros H. apply andb_true_iff in H as [_ H]. apply Z.leb_le. exact H.
Qed.

Section EpisodeTarget.

Variable V : Variant.
Variable env : nat → nat → StepOut.
Hypothesis lanes_ascending :
  ∀ tick rows s steps s' t,
    v_lanes V tick rows s steps = Ok (s', t) →
    StronglySorted lt (local_of <$> v_done_envs V t) ∧
    Forall (fun i => i < length rows) (local_of <$> v_done_envs V t).
Hypothesis local_as_built :
  ∀ l, StronglySorted lt l → v_local V l = l.

Lemma episode_target_generic is_async env_num (n : Z) fuel (s : vSelf V)
    data L :
  (run_outcome (collect V env is_async env_num None (Some n) fuel s data)
     = Returned L → Z.of_nat (episode_count L) = n) ∧
  (run_outcome (collect V env is_async env_num None (Some n) fuel s data)
     = OutOfFuel L → (Z.of_nat (episode_count L) ≤ n)%Z).
Proof.
  pose (Inv := fun L : Loop V =>
    (0 < n)%Z ∧
    (Z.of_nat (length (ready_env_ids L)) ≤ n - Z.of_nat (episode_count L))%Z).
  destruct (collect_end V env is_async env_num None (Some n) Inv
              (fun L => Z.of_nat (episode_count L) = n) fuel s data L)
    as [Hret Hout].
  - intros tick L0 L' lg brk [Hn Hinv] Hlen Hit.
    pose proof (iterate_break _ _ _ _ _ _ _ _ _ Hit) as Hbrk.
    destruct (iterate_trimmed V env lanes_ascending local_as_built
                n None tick L0 L' lg brk Hn Hinv Hlen Hit) as [Hinv' _].
    split; [intros _; split; assumption|].
    intros ->. symmetry in Hbrk.
    change (reached None (step_count L')) with false in Hbrk.
    cbn [orb reached] in Hbrk. apply andb_true_iff in Hbrk as [_ Hle].
    apply Z.leb_le in Hle. lia.
  - intros ready data' w Hc. unfold check_targets in Hc.
    destruct is_async; [discriminate|]. cbn in Hc.
    destruct (0 <? n)%Z eqn:Hn; [|discriminate]. cbn in Hc.
    inversion Hc; subst. unfold Inv. cbn [ready_env_ids episode_count].
    rewrite length_seq. apply Z.ltb_lt in Hn. lia.
  - split; [exact Hret|]. intros H. destruct (Hout H) as [_ Hle]. lia.
Qed.

End EpisodeTarget.

(** X1.  An episode-bounded [collect] call of either variant never counts
    more episodes than asked for: while the loop runs the count stays at or
    below [n_episode], and when the call returns it is exactly
    [n_episode]. *)
Theorem episode_target_met_exactly :
  (∀ env is_async env_num (n : Z) fuel s data L,
     (run_outcome (collect multi_agent env is_async env_num None (Some n)
                     fuel s data) = Returned L →
      Z.of_nat (episode_count L) = n) ∧
     (run_outcome (collect multi_agent env is_async env_num None (Some n)
                     fuel s data) = OutOfFuel L →
      (Z.of_nat (episode_count L) ≤ n)%Z)) ∧
  (∀ pos env is_async env_num (n : Z) fuel s data L,
     (run_outcome (collect (collective pos) env is_async env_num None
                     (Some n) fuel s data) = Returned L →
      Z.of_nat (episode_count L) = n) ∧
     (run_outcome (collect (collective pos) env is_async env_num None
                     (Some n) fuel s data) = OutOfFuel L →
      (Z.of_nat (episode_count L) ≤ n)%Z)).
Proof.
  split.
  - intros env is_async env_num n fuel s data L.
    apply (episode_target_generic multi_agent env).
    + apply multi_agent_lanes_ascending.
    + reflexivity.
  - intros pos env is_async env_num n fuel s data L.
    apply (episode_target_generic (collective pos) env).
    + apply collective_lanes_ascending.
    + apply collective_local_as_built.
Qed.

Lemma episode_target_met_exactly_witness :
  ∃ L, run_outcome one_shot_episode = Returned L ∧
       Z.of_nat (episode_count L) = 1%Z.
Proof.
  assert (Hret : returned one_shot_episode = true) by (vm_compute; reflexivity).
  unfold returned in Hret.
  destruct (run_outcome one_shot_episode) as [L| |] eqn:E;
    try discriminate Hret.
  exists L. split; [reflexivity|].
  exact (proj1 (proj1 episode_target_met_exactly one_shot_env false 1 1%Z 1
                  (fresh_store 1 1) [mkObs 0 0] L) E).
Defined.

(** ** The step target *)

Lemma multi_agent_lane_flush_bound env_idx row s t s' t' :
  MultiAgent.process_lane env_idx row (s, t) = Ok (s', t') →
  length (MultiAgent.buffer_ids_to_save t')
  ≤ length (MultiAgent.buffer_ids_to_save t) + 2.
Proof.
  intros H. apply MultiAgentFacts.process_lane_spec in H as (_ & _ & Hi & _).
  rewrite Hi, !length_app.
  destruct (temp_data s !! _), (decide _); cbn; lia.
Qed.

Lemma multi_agent_lanes_flush_bound rows : ∀ k s t s' t',
  MultiAgent.process_lanes k rows (s, t) = Ok (s', t') →
  length (MultiAgent.buffer_ids_to_save t')
  ≤ length (MultiAgent.buffer_ids_to_save t) + 2 * length rows.
Proof.
  induction rows as [|row rows IH]; intros k s t s' t' H; cbn in H.
  - inversion H; subst. cbn. lia.
  - apply bind_Ok in H as ([s1 t1] & H1 & H).
    apply multi_agent_lane_flush_bound in H1. apply IH in H.
    cbn [length]. lia.
Qed.

Lemma collective_lanes_step_bound pos rows : ∀ k s t s' t',
  Collective.process_lanes pos k rows (s, t) = Ok (s', t') →
  Collective.step_count t' ≤ Collective.step_count t + length rows.
Proof.
  induction rows as [|row rows IH]; intros k s t s' t' H; cbn in H.
  - inversion H; subst. cbn. lia.
  - apply bind_Ok in H as ([s1 t1] & H1 & H).
    apply IH in H.
    apply CollectiveRounds.process_lane_rounds in H1
      as [(_ & _ & _ & Hc)|(r & ids & exps & _ & _ & _ & Hc & _)];
      cbn [length]; lia.
Qed.

(** In step-bounded mode nothing is trimmed. *)
Lemma iterate_keeps_ready (V : Variant) env n_step tick (L L' : Loop V) lg brk :
  iterate V env n_step None tick L = Ok (L', lg, brk) →
  ready_env_ids L' = ready_env_ids L.
Proof.
  intros H. apply iterate_inv in H
    as (s1 & t & _ & _ & _ & _ & _ & _ & _ & _ & _ & _ & Hcase).
  destruct Hcase as [(_ & _ & _ & Hr & _)|(_ & _ & _ & Hsur & Hr & _)].
  - exact Hr.
  - cbn zeta in Hr. rewrite Hsur in Hr. rewrite Hr. apply mask_out_nil.
Qed.

Section StepTarget.

Variable V : Variant.
Variable env : nat → nat → StepOut.
Variable per_lane : nat.
Hypothesis lanes_step_bound :
  ∀ tick rows s steps s' t,
    v_lanes V tick rows s steps = Ok (s', t) →
    v_step_count V steps t ≤ steps + per_lane * length rows.

Lemma step_target_generic is_async env_num (n : Z) fuel (s : vSelf V) data L :
  run_outcome (collect V env is_async env_num (Some n) None fuel s data)
    = Returned L →
  (n ≤ Z.of_nat (step_count L) < n + Z.of_nat (per_lane * env_num))%Z.
Proof.
  pose (Inv := fun L : Loop V =>
    (Z.of_nat (step_count L) < n)%Z ∧ length (ready_env_ids L) = env_num).
  destruct (collect_end V env is_async env_num (Some n) None Inv
              (fun L => (n ≤ Z.of_nat (step_count L)
                         < n + Z.of_nat (per_lane * env_num))%Z)
              fuel s data L) as [Hret _]; [| |exact Hret].
  - intros tick L0 L' lg brk [Hlt Hready] Hlen Hit.
    pose proof (iterate_break _ _ _ _ _ _ _ _ _ Hit) as Hbrk.
    pose proof (iterate_keeps_ready _ _ _ _ _ _ _ _ Hit) as Hr.
    apply iterate_inv in Hit as (s1 & t & Hlanes & _ & _ & _ & _ & Hs & _).
    apply lanes_step_bound in Hlanes.
    rewrite length_zip_with, length_fmap, Hlen, Nat.min_id, Hready in Hlanes.
    rewrite <- Hs in Hlanes.
    change (reached None (episode_count L')) with false in Hbrk.
    rewrite orb_false_r in Hbrk. cbn [reached] in Hbrk.
    assert (Hnz : negb (n =? 0)%Z = true).
    { destruct (n =? 0)%Z eqn:E; [|reflexivity]. apply Z.eqb_eq in E. lia. }
    rewrite Hnz in Hbrk. cbn [andb] in Hbrk. split.
    + intros ->. symmetry in Hbrk. apply Z.leb_gt in Hbrk.
      split; [exact Hbrk|]. rewrite Hr. exact Hready.
    + intros ->. symmetry in Hbrk. apply Z.leb_le in Hbrk. lia.
  - intros ready data' w Hc. unfold check_targets in Hc.
    destruct is_async; [discriminate|]. cbn in Hc.
    destruct (0 <? n)%Z eqn:Hn; [|discriminate]. cbn in Hc.
    destruct (env_num =? 0); [discriminate|].
    inversion Hc; subst. unfold Inv. cbn [step_count ready_env_ids].
    rewrite length_seq. apply Z.ltb_lt in Hn. split; [lia|reflexivity].
Qed.

End StepTarget.

(** X2.  A step-bounded [collect] call returns as soon as [step_count]
    reaches [n_step], so the overshoot is less than what one tick can add:
    two transitions per environment in [MultiAgentCollector.collect], one
    joint round per environment in
    [CollectiveExperienceCollector.collect]. *)
Theorem step_target_overshoot :
  (∀ env is_async env_num (n : Z) fuel s data L,
     run_outcome (collect multi_agent env is_async env_num (Some n) None
                    fuel s data) = Returned L →
     (n ≤ Z.of_nat (step_count L) < n + Z.of_nat (2 * env_num))%Z) ∧
  (∀ pos env is_async env_num (n : Z) fuel s data L,
     run_outcome (collect (collective pos) env is_async env_num (Some n) None
                    fuel s data) = Returned L →
     (n ≤ Z.of_nat (step_count L) < n + Z.of_nat (1 * env_num))%Z).
Proof.
  split.
  - intros env is_async env_num n fuel s data L.
    apply (step_target_generic multi_agent env 2).
    intros tick rows s0 steps s' t H. cbn in H.
    apply multi_agent_lanes_flush_bound in H. cbn in H.
    cbn [v_step_count multi_agent].
    destruct (0 <? _); lia.
  - intros pos env is_async env_num n fuel s data L.
    apply (step_target_generic (collective pos) env 1).
    intros tick rows s0 steps s' t H. cbn in H.
    apply collective_lanes_step_bound in H. cbn in H.
    cbn [v_step_count collective]. lia.
Qed.

Lemma step_target_overshoot_witness :
  ∃ L, run_outcome one_shot_step = Returned L ∧
       (1 ≤ Z.of_nat (step_count L) < 1 + Z.of_nat (2 * 1))%Z.
Proof.
  assert (Hret : returned one_shot_step = true) by (vm_compute; reflexivity).
  unfold returned in Hret.
  destruct (run_outcome one_shot_step) as [L| |] eqn:E;
    try discriminate Hret.
  exists L. split; [reflexivity|].
  exact (proj1 step_target_overshoot one_shot_env false 1 1%Z 1
           (fresh_store 1 1) [mkObs 0 0] L E).
Defined.

(** ** Lanes of the multi-agent loop that succeed or raise *)

Lemma collect_loop_raised (V : Variant) env n_step n_episode
    (Inv : Loop V → Prop) (E : exn → Prop) :
  (∀ L, Inv L → length (data_obs L) = length (ready_env_ids L)) →
  (∀ tick L L' lg brk,
     Inv L → iterate V env n_step n_episode tick L = Ok (L', lg, brk) →
     Inv L') →
  (∀ tick L e,
     Inv L → iterate V env n_step n_episode tick L = Raise e → E e) →
  ∀ fuel tick L e, Inv L →
    run_outcome (collect_loop V env n_step n_episode fuel tick L) = Raised e →
    E e.
Proof.
  intros Hlen Hok Herr fuel.
  induction fuel as [|fuel IH]; intros tick L e HI; [discriminate|].
  cbn [collect_loop]. rewrite (Hlen L HI), Nat.eqb_refl. cbn [negb].
  destruct (iterate V env n_step n_episode tick L)
    as [[[L' lg] brk]|e'] eqn:Hit.
  - destruct brk; cbn [run_outcome]; [discriminate|].
    apply IH. eapply Hok; eauto.
  - cbn [run_outcome]. intros H. inversion H; subst. eapply Herr; eauto.
Qed.

Lemma mask_out_length_same {A B} (idxs : list nat) (l : list A) (k : list B) :
  length l = length k → length (mask_out idxs l) = length (mask_out idxs k).
Proof.
  intros H. unfold mask_out.
  rewrite !length_fmap, !filter_fst_length, !imap_pair_fst, H. reflexivity.
Qed.

Lemma reset_env_with_ids_length env tick loc glob : ∀ l,
  length (_reset_env_with_ids env tick loc glob l) = length l.
Proof.
  unfold _reset_env_with_ids. generalize (zip loc glob) as ps.
  induction ps as [|p ps IH]; intros l; cbn [foldl]; [reflexivity|].
  rewrite IH. apply length_insert.
Qed.

(** The assertion of line 151 (167) is an invariant of the loop. *)
Lemma iterate_lengths (V : Variant) env n_step n_episode tick (L L' : Loop V)
    lg brk :
  length (data_obs L) = length (ready_env_ids L) →
  iterate V env n_step n_episode tick L = Ok (L', lg, brk) →
  length (data_obs L') = length (ready_env_ids L').
Proof.
  intros Hlen H. apply iterate_inv in H
    as (s1 & t & _ & _ & _ & _ & _ & _ & _ & _ & _ & _ & Hcase).
  assert (Hrows : length (obs_next <$> zip_with make_row (data_obs L)
                            (env tick <$> ready_env_ids L))
                  = length (ready_env_ids L)).
  { rewrite length_fmap, length_zip_with, length_fmap, Hlen. apply Nat.min_id. }
  destruct Hcase as [(_ & _ & -> & -> & _)|(_ & _ & _ & _ & Hr)].
  - exact Hrows.
  - cbn zeta in Hr. destruct Hr as [-> ->].
    apply mask_out_length_same. rewrite reset_env_with_ids_length.
    exact Hrows.
Qed.

Module MultiAgentSafety.
Import MultiAgent MultiAgentFacts MultiAgentTicks.

Lemma process_lane_keeps_keys env_idx row s t s' t' e :
  process_lane env_idx row (s, t) = Ok (s', t') →
  is_Some (done_agents_per_env s !! e) →
  is_Some (done_agents_per_env s' !! e).
Proof.
  intros H Hkey. apply process_lane_spec in H as (_ & _ & _ & Hm & _).
  destruct Hm as [(_ & -> & _)|(_ & l & _ & -> & _)]; [exact Hkey|].
  destruct (decide (env_id (info row) = e)) as [->|Hne].
  - rewrite lookup_insert_eq. eauto.
  - rewrite lookup_insert_ne by exact Hne. exact Hkey.
Qed.

Lemma process_lanes_ok_or_type_error rows : ∀ k s t,
  Forall (fun row => is_Some (done_agents_per_env s !! env_id (info row)))
         rows →
  (∃ s' t', process_lanes k rows (s, t) = Ok (s', t')) ∨
  process_lanes k rows (s, t) = Raise TypeError.
Proof.
  induction rows as [|row rows IH]; intros k s t Hkeys; cbn.
  - left. eauto.
  - apply Forall_cons in Hkeys as [Hrow Hkeys].
    destruct (multi_agent_lane_outcome k row s t Hrow)
      as [(s1 & t1 & H1)|[H1 _]]; rewrite H1; cbn [mbind result_bind];
      [|right; reflexivity].
    apply IH.
    eapply Forall_impl; [exact Hkeys|]. cbn. intros r Hr.
    eapply process_lane_keeps_keys; eauto.
Qed.

Lemma process_lanes_keep_keys rows : ∀ k s t s' t' e,
  process_lanes k rows (s, t) = Ok (s', t') →
  is_Some (done_agents_per_env s !! e) →
  is_Some (done_agents_per_env s' !! e).
Proof.
  induction rows as [|row rows IH]; intros k s t s' t' e H Hkey; cbn in H.
  - inversion H; subst. exact Hkey.
  - apply bind_Ok in H as ([s1 t1] & H1 & H).
    eapply IH; [exact H|]. eapply process_lane_keeps_keys; eauto.
Qed.

(** The third component of a [done_envs] entry is below the length of the
    tick's final [experience_to_save]. *)
Lemma process_lanes_exp_index rows : ∀ k s t s' t',
  process_lanes k rows (s, t) = Ok (s', t') →
  Forall (fun d => (-1 ≤ exp_index_of d
                    < Z.of_nat (length (experience_to_save t)))%Z)
         (done_envs t) →
  Forall (fun d => (-1 ≤ exp_index_of d
                    < Z.of_nat (length (experience_to_save t')))%Z)
         (done_envs t').
Proof.
  induction rows as [|row rows IH]; intros k s t s' t' H HF; cbn in H.
  - inversion H; subst. exact HF.
  - apply bind_Ok in H as ([s1 t1] & H1 & H).
    apply (IH _ _ _ _ _ H).
    apply process_lane_spec in H1 as (_ & He & _ & Hm & _).
    assert (Hgrow : length (experience_to_save t)
                    ≤ length (experience_to_save t1))
      by (rewrite He, length_app; lia).
    assert (HF' : Forall (fun d => (-1 ≤ exp_index_of d
                            < Z.of_nat (length (experience_to_save t1)))%Z)
                    (done_envs t)).
    { eapply Forall_impl; [exact HF|]. cbn. intros d Hd. lia. }
    destruct Hm as [(_ & _ & ->)|(_ & l & _ & _ & ->)]; [exact HF'|].
    apply Forall_app. split; [exact HF'|].
    destruct (_ || _); constructor; [|constructor].
    unfold exp_index_of. cbn [snd]. rewrite <- He. lia.
Qed.

Lemma index_ok_of_bounds (n : nat) (i : Z) :
  1 ≤ n → (-1 ≤ i < Z.of_nat n)%Z → index_ok n i = true.
Proof.
  intros Hn Hi. unfold index_ok. apply andb_true_iff. split.
  - apply Z.leb_le. lia.
  - apply Z.ltb_lt. lia.
Qed.

End MultiAgentSafety.

Lemma check_targets_lengths is_async env_num n_step n_episode data ready
    data' w :
  length data = env_num →
  check_targets is_async env_num n_step n_episode data = Ok (ready, data', w) →
  length data' = length ready.
Proof.
  intros Hlen H. unfold check_targets in H.
  destruct is_async; [discriminate|]. cbn [negb py_assert mbind result_bind] in H.
  destruct n_step as [n|].
  - apply bind_Ok in H as ([] & _ & H). apply bind_Ok in H as ([] & _ & H).
    destruct (env_num =? 0); [discriminate|]. inversion H; subst.
    rewrite length_seq. reflexivity.
  - destruct n_episode as [n|]; [|discriminate].
    apply bind_Ok in H as ([] & _ & H). inversion H; subst.
    rewrite length_seq, length_take. lia.
Qed.

(** ** The ready set *)

Lemma imap_snd {A} (l : list A) : ∀ f : nat → A → nat * A,
  (∀ i x, (f i x).2 = x) → (imap f l).*2 = l.
Proof.
  induction l as [|x l IH]; intros f Hf; [reflexivity|].
  rewrite imap_cons. cbn [fmap list_fmap]. rewrite Hf. f_equal.
  apply IH. intros i y. apply Hf.
Qed.

Lemma mask_out_sublist {A} (idxs : list nat) (l : list A) :
  mask_out idxs l `sublist_of` l.
Proof.
  unfold mask_out.
  rewrite <- (imap_snd l pair) at 2 by reflexivity.
  apply fmap_sublist. apply sublist_filter.
Qed.

Lemma check_targets_ready is_async env_num n_step n_episode data ready
    data' w :
  check_targets is_async env_num n_step n_episode data = Ok (ready, data', w) →
  ready `sublist_of` seq 0 env_num.
Proof.
  intros H. unfold check_targets in H.
  destruct is_async; [discriminate|]. cbn [negb py_assert mbind result_bind] in H.
  destruct n_step as [n|].
  - apply bind_Ok in H as ([] & _ & H). apply bind_Ok in H as ([] & _ & H).
    destruct (env_num =? 0); [discriminate|]. inversion H; subst. reflexivity.
  - destruct n_episode as [n|]; [|discriminate].
    apply bind_Ok in H as ([] & _ & H). inversion H; subst.
    set (k := Z.to_nat (Z.min (Z.of_nat env_num) n)).
    replace (seq 0 k) with (take k (seq 0 env_num)).
    + apply sublist_take.
    + rewrite take_seq. f_equal. unfold k. lia.
Qed.

(** X4.  In every iteration of either variant (of any instance of the
    loop), the environment ids passed to [env.step] form a sub-list of
    [arange(env_num)]: they are distinct, in ascending order and below
    [env_num], before and after the trimming. *)
Theorem ready_ids_stay_valid (V : Variant) env is_async env_num n_step
    n_episode fuel (s : vSelf V) data :
  Forall (fun lg : IterLog V =>
            lg_ready_before lg `sublist_of` seq 0 env_num ∧
            lg_ready_after lg `sublist_of` lg_ready_before lg ∧
            NoDup (lg_ready_before lg) ∧
            Forall (fun g => g < env_num) (lg_ready_before lg))
         (log (collect V env is_async env_num n_step n_episode fuel s data)).
Proof.
  apply (collect_log_Forall V env is_async env_num n_step n_episode
           (fun L => ready_env_ids L `sublist_of` seq 0 env_num)).
  - intros tick L L' lg brk Hsub _ Hit.
    apply iterate_inv in Hit
      as (s1 & t & _ & _ & _ & _ & _ & _ & _ & Hrb & Hra & _ & Hcase).
    assert (Hafter : ready_env_ids L' `sublist_of` ready_env_ids L).
    { destruct Hcase as [(_ & _ & _ & -> & _)|(_ & _ & _ & _ & Hr)].
      - reflexivity.
      - cbn zeta in Hr. destruct Hr as [-> _]. apply mask_out_sublist. }
    split; [etransitivity; eassumption|].
    rewrite Hrb, Hra. split; [exact Hsub|]. split; [exact Hafter|]. split.
    + eapply sublist_NoDup; [apply NoDup_seq|exact Hsub].
    + apply Forall_forall. intros g Hg.
      eapply elem_of_sublist in Hg; [|exact Hsub].
      apply elem_of_seq in Hg. lia.
  - intros ready data' w Hc. cbn. eapply check_targets_ready; eauto.
Qed.

(** ** The shape of the collective collector's structures *)

Module CollectiveShape.
Import Collective CollectiveFacts.

Lemma insert_keeps {V} (m : gmap nat V) i x j :
  is_Some (m !! j) → is_Some (<[i := x]> m !! j).
Proof.
  intros H. apply lookup_insert_is_Some.
  destruct (decide (i = j)); auto.
Qed.

Lemma step_keeps_refl s : step_keeps s s.
Proof. unfold step_keeps. auto. Qed.

Lemma step_keeps_trans s1 s2 s3 :
  step_keeps s1 s2 → step_keeps s2 s3 → step_keeps s1 s3.
Proof.
  intros (Hn1 & He1 & Hs1) (Hn2 & He2 & Hs2).
  split; [congruence|]. split; auto.
Qed.

(** A change of the pending store or of the tracker's lists touches neither
    the shape nor the entries. *)
Lemma set_store_keeps s b :
  agents_num b = agents_num (store s) →
  (∀ e, is_Some (done_agents_per_env (store s) !! e) →
        is_Some (done_agents_per_env b !! e)) →
  step_keeps s (set_store (fun _ => b) s).
Proof.
  intros Hn Hk. split; [exact Hn|]. split.
  - intros e (H1 & H2 & H3 & H4 & H5). repeat split; auto.
  - intros (Hr & Hf & Hp & Hd). repeat split; cbn [set_store store ready
      filling exps_to_save ids_to_save]; try rewrite Hn; auto.
Qed.

Lemma set_temp_data_keeps f s : step_keeps s (set_store (set_temp_data f) s).
Proof.
  split; [reflexivity|]. split.
  - intros e H. exact H.
  - intros H. exact H.
Qed.

Lemma mark_filling_keeps env agent b s s' :
  mark_filling env agent b s = Ok s' → step_keeps s s'.
Proof.
  intros H. apply mark_filling_spec in H as (arr & l & Harr & _ & _ & ->).
  split; [reflexivity|]. split.
  - intros e (H1 & H2 & H3 & H4 & H5). repeat split; auto.
    cbn [set_filling filling]. apply insert_keeps. exact H3.
  - intros (Hr & Hf & Hp & Hd). repeat split; auto.
    intros e a. cbn [set_filling filling store].
    destruct (decide (env = e)) as [->|Hne].
    + rewrite lookup_insert_eq. intros [= <-]. rewrite length_insert. eauto.
    + rewrite lookup_insert_ne by exact Hne. apply Hf.
Qed.

Lemma snapshot_keeps env row s s' : snapshot env row s = Ok s' → step_keeps s s'.
Proof.
  intros H. apply snapshot_spec in H
    as [(-> & _)|(_ & arr & Harr & _ & ->)]; [apply step_keeps_refl|].
  split; [reflexivity|]. split.
  - intros e (H1 & H2 & H3 & H4 & H5). repeat split; auto;
      cbn [set_filling set_ready filling ready]; apply insert_keeps; assumption.
  - intros (Hr & Hf & Hp & Hd). repeat split; auto;
      intros e a; cbn [set_filling set_ready filling ready store].
    + destruct (decide (env = e)) as [->|Hne].
      * rewrite lookup_insert_eq. intros [= <-]. eauto.
      * rewrite lookup_insert_ne by exact Hne. apply Hr.
    + destruct (decide (env = e)) as [->|Hne].
      * rewrite lookup_insert_eq. intros [= <-]. apply length_replicate.
      * rewrite lookup_insert_ne by exact Hne. apply Hf.
Qed.

Lemma accumulate_keeps env x b s s' :
  accumulate env x b s = Ok s' → step_keeps s s'.
Proof.
  intros H. apply accumulate_spec in H as (exps & ids & He & Hi & Hb & ->).
  split; [reflexivity|]. split.
  - intros e (H1 & H2 & H3 & H4 & H5). repeat split; auto;
      cbn [set_ids set_exps exps_to_save ids_to_save];
      apply insert_keeps; assumption.
  - intros (Hr & Hf & Hp & Hd). repeat split; auto.
    + intros e xs js. cbn [set_ids set_exps exps_to_save ids_to_save].
      destruct (decide (env = e)) as [->|Hne].
      * rewrite !lookup_insert_eq. intros [= <-] [= <-].
        rewrite !length_app. cbn [length]. f_equal. eauto.
      * rewrite !lookup_insert_ne by exact Hne. apply Hp.
    + intros e js. cbn [set_ids set_exps exps_to_save ids_to_save].
      destruct (decide (env = e)) as [->|Hne].
      * rewrite lookup_insert_eq. intros [= <-].
        apply NoDup_app. split; [eauto|]. split; [|apply NoDup_singleton].
        intros y Hy Hy'. apply list_elem_of_singleton in Hy'. subst y.
        exact (Hb Hy).
      * rewrite lookup_insert_ne by exact Hne. apply Hd.
Qed.

Lemma resolve_pending_keeps env next row s s' :
  resolve_pending env next row s = Ok s' → step_keeps s s'.
Proof.
  intros H. apply resolve_pending_spec in H
    as [(_ & ->)|(p & s1 & _ & Hacc & ->)]; [apply step_keeps_refl|].
  eapply step_keeps_trans; [eapply accumulate_keeps; exact Hacc|].
  apply set_temp_data_keeps.
Qed.

Lemma save_direct_keeps env b next row s s' :
  save_direct env b next row s = Ok s' → step_keeps s s'.
Proof.
  intros H. apply save_direct_spec in H
    as [(_ & ->)|(_ & s2 & Hacc & ->)]; [apply step_keeps_refl|].
  eapply step_keeps_trans; [apply (set_temp_data_keeps (<[b := row]>))|].
  eapply step_keeps_trans; [eapply accumulate_keeps; exact Hacc|].
  apply set_temp_data_keeps.
Qed.

Lemma flush_round_keeps pos env s t s' t' :
  flush_round pos env (s, t) = Ok (s', t') → step_keeps s s'.
Proof.
  intros H. apply flush_round_spec in H
    as [(-> & _)|(r & ids & exps & _ & _ & _ & _ & _ & -> & _)];
    [apply step_keeps_refl|].
  split; [reflexivity|]. split.
  - intros e (H1 & H2 & H3 & H4 & H5). repeat split; auto;
      cbn [set_ready set_ids set_exps ready exps_to_save ids_to_save];
      apply insert_keeps; assumption.
  - intros (Hr & Hf & Hp & Hd). repeat split; auto.
    + intros e a. cbn [set_ready set_ids set_exps ready store].
      destruct (decide (env = e)) as [->|Hne].
      * rewrite lookup_insert_eq. intros [= <-]. apply length_replicate.
      * rewrite lookup_insert_ne by exact Hne. apply Hr.
    + intros e xs js. cbn [set_ready set_ids set_exps exps_to_save ids_to_save].
      destruct (decide (env = e)) as [->|Hne].
      * rewrite !lookup_insert_eq. intros [= <-] [= <-]. reflexivity.
      * rewrite !lookup_insert_ne by exact Hne. apply Hp.
    + intros e js. cbn [set_ready set_ids set_exps ids_to_save].
      destruct (decide (env = e)) as [->|Hne].
      * rewrite lookup_insert_eq. intros [= <-]. apply NoDup_nil_2.
      * rewrite lookup_insert_ne by exact Hne. apply Hd.
Qed.

Lemma process_lane_keeps pos env_idx row s t s' t' :
  process_lane pos env_idx row (s, t) = Ok (s', t') → step_keeps s s'.
Proof.
  intros H. apply process_lane_inv in H
    as (s1 & s2 & s3 & s4 & s5 & t5 & b6 & d6 & b7
        & H1 & H2 & H3 & H4 & H5 & H6 & H7 & -> & _).
  cbn zeta in *.
  apply mark_filling_keeps in H1. apply snapshot_keeps in H2.
  apply resolve_pending_keeps in H3. apply save_direct_keeps in H4.
  apply flush_round_keeps in H5.
  apply mark_done_spec in H6 as (Hn6 & _ & Hm).
  apply store_pending_spec in H7 as (w & _ & Hn7 & Hd7 & _).
  repeat (eapply step_keeps_trans; [eassumption|]).
  apply set_store_keeps; [congruence|].
  intros e He. rewrite Hd7.
  destruct Hm as [(_ & -> & _)|(_ & l & _ & -> & _)]; [exact He|].
  apply insert_keeps. exact He.
Qed.

Lemma process_lanes_keeps pos rows : ∀ k s t s' t',
  process_lanes pos k rows (s, t) = Ok (s', t') → step_keeps s s'.
Proof.
  induction rows as [|row rows IH]; intros k s t s' t' H; cbn in H.
  - inversion H; subst. apply step_keeps_refl.
  - apply bind_Ok in H as ([s1 t1] & H1 & H).
    eapply step_keeps_trans; [eapply process_lane_keeps; exact H1|].
    eapply IH; exact H.
Qed.

Lemma reset_env_keeps s e : step_keeps s (reset_env s e).
Proof.
  split; [reflexivity|]. split.
  - intros e' (H1 & H2 & H3 & H4 & H5). repeat split; auto;
      cbn [reset_env set_filling set_ready set_store set_done_agents store
           done_agents_per_env ready filling];
      apply insert_keeps; assumption.
  - intros (Hr & Hf & Hp & Hd). repeat split; auto;
      intros e' a;
      cbn [reset_env set_filling set_ready set_store set_done_agents store
           agents_num ready filling];
      (destruct (decide (e = e')) as [->|Hne];
       [rewrite lookup_insert_eq; intros [= <-]; apply length_replicate
       |rewrite lookup_insert_ne by exact Hne; eauto]).
Qed.

Lemma reset_done_envs_keeps gl : ∀ s, step_keeps s (reset_done_envs gl s).
Proof.
  unfold reset_done_envs.
  induction gl as [|g gl IH]; intros s; cbn [foldl].
  - apply step_keeps_refl.
  - eapply step_keeps_trans; [apply reset_env_keeps|apply IH].
Qed.

(** The state after [reset]. *)
Lemma fresh_lookup {V} (v : V) env_num e (x : V) :
  (list_to_map ((fun i => (i, v)) <$> seq 0 env_num) : gmap nat V) !! e
    = Some x → x = v.
Proof.
  intros H. apply elem_of_list_to_map_2 in H.
  apply list_elem_of_fmap in H as (i & [= -> ->] & _). reflexivity.
Qed.

Lemma fresh_shaped agents env_num : collective_shaped (fresh agents env_num).
Proof.
  unfold collective_shaped, fresh.
  cbn [ready filling exps_to_save ids_to_save store agents_num].
  repeat split.
  - intros e arr H. apply fresh_lookup in H as ->. apply length_replicate.
  - intros e arr H. apply fresh_lookup in H as ->. apply length_replicate.
  - intros e exps ids H1 H2.
    apply fresh_lookup in H1 as ->. apply fresh_lookup in H2 as ->.
    reflexivity.
  - intros e ids H. apply fresh_lookup in H as ->. apply NoDup_nil_2.
Qed.

End CollectiveShape.

Module CollectiveTicks.
Import Collective CollectiveFacts CollectiveShape.

Lemma add_extra_info_length pos r exps :
  length (_add_extra_info pos r exps) = length exps.
Proof. unfold _add_extra_info. apply length_fmap. Qed.

Lemma add_extra_info_indices pos r exps :
  Forall (fun x => length (indices (info x)) = length r)
         (_add_extra_info pos r exps).
Proof.
  unfold _add_extra_info. apply Forall_fmap, Forall_forall.
  intros x _. cbn. apply length_fmap.
Qed.

Lemma valid_length arr : length (valid arr) ≤ length arr.
Proof. unfold valid. apply length_filter. Qed.

Lemma flush_round_tick pos env s t s' t' n :
  flush_round pos env (s, t) = Ok (s', t') →
  collective_shaped s → agents_num (store s) = n →
  length (experience_to_save t) = length (buffer_ids_to_save t) →
  collective_tick_shaped n t →
  length (experience_to_save t') = length (buffer_ids_to_save t') ∧
  collective_tick_shaped n t'.
Proof.
  intros H (Hr & _ & Hp & Hd) Hn Hlen (Hix & Hrd).
  apply flush_round_spec in H
    as [(-> & ->)|(r & ids & exps & Hrr & Hi & He & Hv & Hs & -> & ->)].
  - split; [exact Hlen|]. split; assumption.
  - assert (Hrn : length r = n) by (rewrite <- Hn; eauto).
    assert (Hperm : valid r ≡ₚ Z.of_nat <$> ids)
      by (apply CollectiveRounds.sorted_eq_iff; exact Hs).
    assert (Hil : length ids = length (valid r)).
    { apply Permutation_length in Hperm. rewrite length_fmap in Hperm.
      symmetry. exact Hperm. }
    cbn [experience_to_save buffer_ids_to_save]. split.
    + rewrite !length_app, add_extra_info_length. f_equal; eauto.
    + split; cbn [experience_to_save rounds].
      * apply Forall_app. split; [exact Hix|].
        rewrite <- Hrn. apply add_extra_info_indices.
      * apply Forall_app. split; [exact Hrd|].
        constructor; [|constructor]. cbn [round_ids round_ready].
        split; [eauto|]. split; [|exact Hrn].
        rewrite Hil. pose proof (valid_length r).
        destruct (valid r); [congruence|]. cbn [length] in *. lia.
Qed.

Lemma process_lane_tick pos env_idx row s t s' t' n :
  process_lane pos env_idx row (s, t) = Ok (s', t') →
  collective_shaped s → agents_num (store s) = n →
  length (experience_to_save t) = length (buffer_ids_to_save t) →
  collective_tick_shaped n t →
  length (experience_to_save t') = length (buffer_ids_to_save t') ∧
  collective_tick_shaped n t'.
Proof.
  intros H Hs Hn Hlen Ht. apply process_lane_inv in H
    as (s1 & s2 & s3 & s4 & s5 & t5 & b6 & d6 & b7
        & H1 & H2 & H3 & H4 & H5 & _ & _ & _ & ->).
  cbn zeta in *.
  apply mark_filling_keeps in H1. apply snapshot_keeps in H2.
  apply resolve_pending_keeps in H3. apply save_direct_keeps in H4.
  assert (H04 : step_keeps s s4)
    by (repeat (eapply step_keeps_trans; [eassumption|]);
        apply step_keeps_refl).
  destruct H04 as (Hn4 & _ & Hs4).
  assert (Hn4' : agents_num (store s4) = n) by congruence.
  exact (flush_round_tick _ _ _ _ _ _ _ H5 (Hs4 Hs) Hn4' Hlen Ht).
Qed.

Lemma process_lanes_tick pos rows n : ∀ k s t s' t',
  process_lanes pos k rows (s, t) = Ok (s', t') →
  collective_shaped s → agents_num (store s) = n →
  length (experience_to_save t) = length (buffer_ids_to_save t) →
  collective_tick_shaped n t →
  length (experience_to_save t') = length (buffer_ids_to_save t') ∧
  collective_tick_shaped n t'.
Proof.
  induction rows as [|row rows IH]; intros k s t s' t' H Hs Hn Hlen Ht;
    cbn in H.
  - inversion H; subst. auto.
  - apply bind_Ok in H as ([s1 t1] & H1 & H).
    pose proof (process_lane_keeps _ _ _ _ _ _ _ H1) as (Hn1 & _ & Hs1).
    eapply process_lane_tick in H1 as [Hlen1 Ht1]; eauto.
    eapply IH; eauto. congruence.
Qed.

End CollectiveTicks.

(** One iteration of the collective loop keeps the shape and hands over
    shaped lists. *)
Lemma collective_iterate_shaped pos env n_step n_episode tick
    (L L' : Loop (collective pos)) lg brk :
  iterate (collective pos) env n_step n_episode tick L = Ok (L', lg, brk) →
  step_keeps (self L) (self L') ∧
  (collective_shaped (self L) →
   length (Collective.experience_to_save (lg_tick lg))
     = length (Collective.buffer_ids_to_save (lg_tick lg)) ∧
   collective_tick_shaped (agents_num (Collective.store (self L)))
     (lg_tick lg)).
Proof.
  intros H. apply iterate_inv in H
    as (s1 & t & Hlanes & _ & Htick & _ & _ & _ & _ & _ & _ & _ & Hcase).
  cbn in Hlanes.
  pose proof (CollectiveShape.process_lanes_keeps _ _ _ _ _ _ _ Hlanes)
    as Hk.
  split.
  - destruct Hcase as [(_ & -> & _)|(_ & -> & _)]; [exact Hk|].
    eapply CollectiveShape.step_keeps_trans; [exact Hk|].
    apply CollectiveShape.reset_done_envs_keeps.
  - intros Hs. rewrite Htick.
    eapply CollectiveTicks.process_lanes_tick; eauto.
    split; constructor.
Qed.

(** ** What [buffer.add] receives *)

(** X5.  Whenever either collector calls [buffer.add], the batch of
    experiences and the list of slot ids it passes have the same length:
    always for [MultiAgentCollector], and for
    [CollectiveExperienceCollector] when it starts in the shape that
    [reset] leaves. *)
Theorem buffer_add_lists_parallel :
  (∀ env is_async env_num n_step n_episode fuel (s : Store) data,
     Forall (fun lg : IterLog multi_agent =>
               length (MultiAgent.experience_to_save (lg_tick lg))
               = length (MultiAgent.buffer_ids_to_save (lg_tick lg)))
            (log (collect multi_agent env is_async env_num n_step n_episode
                    fuel s data))) ∧
  (∀ pos env is_async env_num n_step n_episode fuel (s : Collective.Self)
     data,
     collective_shaped s →
     Forall (fun lg : IterLog (collective pos) =>
               length (Collective.experience_to_save (lg_tick lg))
               = length (Collective.buffer_ids_to_save (lg_tick lg)))
            (log (collect (collective pos) env is_async env_num n_step
                    n_episode fuel s data))).
Proof.
  split.
  - intros env is_async env_num n_step n_episode fuel s data.
    apply (collect_log_Forall multi_agent env is_async env_num n_step
             n_episode (fun _ => True)); [|auto].
    intros tick L L' lg brk _ _ Hit. split; [exact I|].
    apply iterate_inv in Hit as (s1 & t & Hlanes & _ & -> & _).
    cbn in Hlanes.
    apply MultiAgentTicks.process_lanes_grows in Hlanes
      as (_ & e & i & Hl & -> & ->).
    cbn. exact Hl.
  - intros pos env is_async env_num n_step n_episode fuel s data Hs.
    apply (collect_log_Forall (collective pos) env is_async env_num n_step
             n_episode (fun L => collective_shaped (self L))); [|auto].
    intros tick L L' lg brk HI _ Hit.
    apply collective_iterate_shaped in Hit as ((_ & _ & Hk) & Ht).
    split; [auto|]. apply Ht. exact HI.
Qed.

Lemma buffer_add_lists_parallel_witness :
  collective_shaped (Collective.fresh 2 2) ∧
  Forall (fun lg : IterLog (collective scenario_pos) =>
            length (Collective.experience_to_save (lg_tick lg))
            = length (Collective.buffer_ids_to_save (lg_tick lg)))
         (log two_rounds_run).
Proof.
  split; [apply CollectiveShape.fresh_shaped|].
  apply (proj2 buffer_add_lists_parallel).
  apply CollectiveShape.fresh_shaped.
Defined.

(** X6.  Started in the shape [reset] leaves, the collective collector
    hands to [buffer.add] only experiences whose [indices] vector has one
    entry per agent, and every joint round it hands over consists of at
    least one and at most [agents_num] distinct slot ids, compared against
    a [ready] array of [agents_num] entries. *)
Theorem collective_rounds_shaped pos env is_async env_num n_step n_episode
    fuel (s : Collective.Self) data :
  collective_shaped s →
  Forall (fun lg : IterLog (collective pos) =>
            collective_tick_shaped (agents_num (Collective.store s))
              (lg_tick lg))
         (log (collect (collective pos) env is_async env_num n_step
                 n_episode fuel s data)).
Proof.
  intros Hs.
  apply (collect_log_Forall (collective pos) env is_async env_num n_step
           n_episode
           (fun L => collective_shaped (self L) ∧
                     agents_num (Collective.store (self L))
                     = agents_num (Collective.store s))); [|auto].
  intros tick L L' lg brk [HI Hn] _ Hit.
  apply collective_iterate_shaped in Hit as ((Hn' & _ & Hk) & Ht).
  split; [split; [auto|congruence]|].
  rewrite <- Hn. apply Ht. exact HI.
Qed.

Lemma collective_rounds_shaped_witness :
  collective_shaped (Collective.fresh 2 2) ∧
  Forall (fun lg : IterLog (collective scenario_pos) =>
            collective_tick_shaped 2 (lg_tick lg))
         (log two_rounds_run).
Proof.
  split; [apply CollectiveShape.fresh_shaped|].
  apply (collective_rounds_shaped scenario_pos _ false 2 (Some 100%Z) None 1
           (Collective.fresh 2 2)).
  apply CollectiveShape.fresh_shaped.
Defined.

(** ** Lanes of the collective loop that succeed or raise *)



Module CollectiveSafety.
Import Collective CollectiveFacts CollectiveShape.












End CollectiveSafety.

Lemma fresh_lookup_Some {V} (v : V) env_num e :
  e < env_num →
  (list_to_map ((fun i => (i, v)) <$> seq 0 env_num) : gmap nat V) !! e
    = Some v.
Proof.
  intros H. apply elem_of_list_to_map_1.
  - rewrite <- list_fmap_compose.
    apply (NoDup_fmap_2 (fst ∘ (fun i : nat => (i, v))));
      first [apply NoDup_seq|intros x y Hxy; exact Hxy].
  - apply list_elem_of_fmap. exists e. split; [reflexivity|].
    apply elem_of_seq. lia.
Qed.

Lemma fresh_has_entries agents env_num e :
  e < env_num → has_entries e (Collective.fresh agents env_num).
Proof.
  intros H. unfold has_entries, Collective.fresh.
  cbn [Collective.store Collective.ready Collective.filling
       Collective.exps_to_save Collective.ids_to_save done_agents_per_env].
  rewrite !fresh_lookup_Some by exact H. repeat split; eauto.
Qed.

(** ** The buffer and its slots *)

Lemma resolve_bound n env_num e a :
  e < env_num → a < n → resolve n e a < env_num * n.
Proof. unfold resolve. intros He Ha. nia. Qed.

(** X8.  Whatever buffer [_assign_buffer] accepts has a sub-buffer for
    every slot id the collectors can compute: for an environment below
    [env_num] and an agent below [agents_num], [env_id * agents_num +
    agent_id] is below the manager's [buffer_num] (and below
    [cached_buffer_num] for a cached buffer), and a plain buffer is only
    accepted when there is a single slot.  With more than one slot a plain
    buffer is refused: by the assertion on [maxsize] or else by the
    [TypeError]. *)
Theorem assigned_buffer_has_every_slot env_num n :
  (∀ buffer b e a,
     _assign_buffer env_num n buffer = Ok b →
     e < env_num → a < n → resolve n e a < slots b) ∧
  (∀ p m,
     1 < env_num * n →
     _assign_buffer env_num n (Some (Plain p m))
       = Raise (if (0 <? m)%Z then TypeError else AssertionError)).
Proof.
  split.
  - intros buffer b e a H He Ha.
    pose proof (resolve_bound n env_num e a He Ha) as Hb.
    destruct buffer as [[k c|p m]|]; unfold _assign_buffer in H.
    + apply bind_Ok in H as ([] & H1 & H).
      apply CollectiveFacts.py_assert_Ok, Nat.leb_le in H1.
      apply bind_Ok in H as ([] & H2 & H). inversion H; subst b.
      destruct c as [c|]; cbn [slots]; [|lia].
      apply CollectiveFacts.py_assert_Ok, Nat.leb_le in H2. lia.
    + apply bind_Ok in H as ([] & _ & H).
      destruct (1 <? env_num * n) eqn:E; [discriminate|].
      apply Nat.ltb_ge in E. inversion H; subst b. cbn [slots]. lia.
    + inversion H; subst b. cbn [slots]. exact Hb.
  - intros p m Hn. unfold _assign_buffer.
    destruct (0 <? m)%Z; cbn [py_assert mbind result_bind]; [|reflexivity].
    rewrite (proj2 (Nat.ltb_lt _ _) Hn). reflexivity.
Qed.

Lemma assigned_buffer_has_every_slot_witness :
  resolve 2 2 1 < slots (Manager 8 (Some 6)) ∧
  _assign_buffer 3 2 (Some (Plain true 100%Z)) = Raise TypeError.
Proof.
  split.
  - apply (proj1 (assigned_buffer_has_every_slot 3 2)
             (Some (Manager 8 (Some 6)))); [reflexivity|lia|lia].
  - apply (proj2 (assigned_buffer_has_every_slot 3 2) true 100%Z). cbn. lia.
Defined.

(** ** The fused logger statistics *)

Lemma append_stats_lookup {V} (key : string) (items : list (string * V)) :
  ∀ fused : gmap string (list V),
  default [] (foldl append_stat fused items !! key)
  = default [] (fused !! key)
    ++ (filter (fun kv : string * V => kv.1 = key) items).*2.
Proof.
  induction items as [|[k v] items IH]; intros fused; cbn [foldl].
  - rewrite filter_nil. cbn. rewrite app_nil_r. reflexivity.
  - rewrite IH. unfold append_stat. cbn [fst snd].
    rewrite filter_cons. cbn [fst].
    destruct (decide (k = key)) as [->|Hne].
    + rewrite lookup_insert_eq. simpl.
      rewrite <- app_assoc. reflexivity.
    + rewrite lookup_insert_ne by exact Hne. reflexivity.
Qed.

Lemma append_stats_nonempty {V} (key : string) (items : list (string * V)) :
  ∀ fused : gmap string (list V),
  (∀ l, fused !! key = Some l → l ≠ []) →
  ∀ l, foldl append_stat fused items !! key = Some l → l ≠ [].
Proof.
  induction items as [|[k v] items IH]; intros fused Hf; cbn [foldl];
    [exact Hf|].
  apply IH. intros l. unfold append_stat. cbn [fst snd].
  destruct (decide (k = key)) as [->|Hne].
  - rewrite lookup_insert_eq. intros [= <-]. intros E.
    apply app_eq_nil in E as [_ E]. discriminate.
  - rewrite lookup_insert_ne by exact Hne. apply Hf.
Qed.

Lemma fuse_logger_stats_from {V} (key : string)
    (episode_info : list (option (list (string * V)))) :
  ∀ fused : gmap string (list V),
  let out := foldl (fun fused d => foldl append_stat fused (default [] d))
                   fused episode_info in
  default [] (out !! key) = default [] (fused !! key)
                            ++ values_of key episode_info ∧
  ((∀ l, fused !! key = Some l → l ≠ []) →
   ∀ l, out !! key = Some l → l ≠ []).
Proof.
  induction episode_info as [|d ds IH]; intros fused; cbn [foldl].
  - cbn. rewrite app_nil_r. auto.
  - destruct (IH (foldl append_stat fused (default [] d))) as [IH1 IH2].
    cbv zeta. split.
    + rewrite IH1, append_stats_lookup. unfold values_of.
      cbn [mbind list_bind]. rewrite <- app_assoc. reflexivity.
    + intros Hf. apply IH2. apply append_stats_nonempty. exact Hf.
Qed.

(** X9.  The fused logger statistics hold, under every key, the values
    that the ['logger_stats'] entries of the collected info dictionaries
    give to that key, in collection order; a key that no entry mentions is
    absent (no empty list is ever created), and info dictionaries without
    ['logger_stats'] contribute nothing. *)
Theorem fused_logger_stats_by_key {V} (key : string)
    (episode_info : list (option (list (string * V)))) :
  fuse_logger_stats episode_info !! key
  = match values_of key episode_info with
    | [] => None
    | vs => Some vs
    end.
Proof.
  destruct (fuse_logger_stats_from key episode_info ∅) as [Hv Hne].
  cbv zeta in Hv, Hne. fold (fuse_logger_stats episode_info) in Hv, Hne.
  rewrite lookup_empty in Hv. cbn [default app] in Hv.
  destruct (fuse_logger_stats episode_info !! key) as [l|] eqn:E;
    cbn [default] in Hv.
  - rewrite <- Hv. destruct l; [|reflexivity].
    exfalso. eapply Hne; [|reflexivity|reflexivity].
    intros l'. rewrite lookup_empty. discriminate.
  - rewrite <- Hv. reflexivity.
Qed.

(** ** Records are filed under their own slots *)

Lemma resolve_inj n e a e' a' :
  a < n → a' < n → resolve n e a = resolve n e' a' → e = e' ∧ a = a'.
Proof.
  unfold resolve. intros Ha Ha' H.
  assert (He : e = e') by nia. subst e'. split; [reflexivity|lia].
Qed.

Lemma rows_in_range (env : nat → nat → StepOut) n tick ready : ∀ data,
  agents_in_range env n → Forall (fun o => agent_id o < n) data →
  Forall (row_in_range n) (zip_with make_row data (env tick <$> ready)).
Proof.
  induction ready as [|g gs IH]; intros os Hrange Hos.
  - destruct os; constructor.
  - destruct os as [|o os]; [constructor|].
    apply Forall_cons in Hos as [Ho Hos].
    cbn [fmap list_fmap zip_with]. constructor; [|apply IH; assumption].
    split; [exact Ho|]. cbn. apply Hrange.
Qed.

Lemma reset_env_with_ids_in_range (env : nat → nat → StepOut)
    (P : Obs → Prop) tick loc glob : ∀ l,
  (∀ g, P (so_reset_obs (env tick g))) → Forall P l →
  Forall P (_reset_env_with_ids env tick loc glob l).
Proof.
  unfold _reset_env_with_ids. generalize (zip loc glob) as ps.
  induction ps as [|p ps IH]; intros l HP Hl; cbn [foldl]; [exact Hl|].
  apply IH; [exact HP|]. apply Forall_insert; [exact Hl|apply HP].
Qed.

(** After an iteration every observation of the batch comes from the
    environment. *)
Lemma iterate_data_in_range (V : Variant) env n_step n_episode tick
    (L L' : Loop V) lg brk n :
  agents_in_range env n →
  iterate V env n_step n_episode tick L = Ok (L', lg, brk) →
  Forall (fun o => agent_id o < n) (data_obs L').
Proof.
  intros Hrange H. apply iterate_inv in H
    as (s1 & t & _ & _ & _ & _ & _ & _ & _ & _ & _ & _ & Hcase).
  assert (Hnext : Forall (fun o => agent_id o < n)
            (obs_next <$> zip_with make_row (data_obs L)
                            (env tick <$> ready_env_ids L))).
  { apply Forall_fmap, Forall_forall. intros row Hrow.
    apply list_elem_of_lookup in Hrow as [i Hi].
    apply lookup_zip_with_Some in Hi as (o & so & -> & _ & Hso).
    rewrite list_lookup_fmap in Hso.
    destruct (ready_env_ids L !! i) as [g|]; [|discriminate].
    inversion Hso; subst so. cbn. apply Hrange. }
  destruct Hcase as [(_ & _ & -> & _)|(_ & _ & _ & _ & Hr)]; [exact Hnext|].
  cbn zeta in Hr. destruct Hr as [_ ->].
  apply Forall_forall. intros o Ho.
  eapply elem_of_sublist in Ho; [|apply mask_out_sublist].
  revert o Ho. apply Forall_forall.
  apply reset_env_with_ids_in_range; [|exact Hnext].
  intros g. apply Hrange.
Qed.

Module MultiAgentSlots.
Import MultiAgent MultiAgentFacts.

Lemma process_lane_keyed env_idx row s t s' t' :
  process_lane env_idx row (s, t) = Ok (s', t') →
  row_in_range (agents_num s) row → pending_keyed s →
  Forall2 (fun x b => b = slot_of (agents_num s) x)
          (experience_to_save t) (buffer_ids_to_save t) →
  pending_keyed s' ∧
  Forall2 (fun x b => b = slot_of (agents_num s) x)
          (experience_to_save t') (buffer_ids_to_save t').
Proof.
  intros H [Ha Hnx] Hk Ht.
  apply process_lane_spec in H as (Hn & He & Hi & _ & w & _ & Htd).
  cbn zeta in *.
  set (n := agents_num s) in *. set (env := env_id (info row)) in *.
  set (b := resolve n env (agent_id (obs row))) in *.
  set (next := resolve n env (agent_id (obs_next row))) in *.
  split.
  - intros k p. rewrite Hn, Htd. fold n.
    assert (Hdel : delete next (temp_data s) !! k = Some p →
                   agent_id (obs p) < n ∧ k = slot_of n p).
    { destruct (decide (next = k)) as [->|Hne].
      - rewrite lookup_delete_eq. discriminate.
      - rewrite lookup_delete_ne by exact Hne. apply Hk. }
    destruct w; [|exact Hdel].
    destruct (decide (b = k)) as [<-|Hne].
    + rewrite lookup_insert_eq. intros [= <-]. split; [exact Ha|reflexivity].
    + rewrite lookup_insert_ne by exact Hne. exact Hdel.
  - rewrite He, Hi. apply Forall2_app; [exact Ht|]. apply Forall2_app.
    + destruct (temp_data s !! next) as [p|] eqn:Hp; cbn; [|constructor].
      constructor; [|constructor].
      destruct (Hk _ _ Hp) as [Hpa Hpk]. fold n in Hpa, Hpk.
      unfold slot_of in *. cbn [complete obs info].
      unfold next in Hpk. apply resolve_inj in Hpk as [He' Ha']; try assumption.
      unfold next. rewrite Ha'. reflexivity.
    + destruct (decide (b = next)); constructor; [reflexivity|constructor].
Qed.

Lemma process_lanes_keyed rows : ∀ k s t s' t',
  process_lanes k rows (s, t) = Ok (s', t') →
  Forall (row_in_range (agents_num s)) rows → pending_keyed s →
  Forall2 (fun x b => b = slot_of (agents_num s) x)
          (experience_to_save t) (buffer_ids_to_save t) →
  agents_num s' = agents_num s ∧ pending_keyed s' ∧
  Forall2 (fun x b => b = slot_of (agents_num s) x)
          (experience_to_save t') (buffer_ids_to_save t').
Proof.
  induction rows as [|row rows IH]; intros k s t s' t' H Hrows Hk Ht;
    cbn in H.
  - inversion H; subst. auto.
  - apply Forall_cons in Hrows as [Hrow Hrows].
    apply bind_Ok in H as ([s1 t1] & H1 & H).
    pose proof (process_lane_spec _ _ _ _ _ _ H1) as (Hn1 & _).
    cbn zeta in Hn1.
    destruct (process_lane_keyed _ _ _ _ _ _ H1 Hrow Hk Ht) as [Hk1 Ht1].
    rewrite <- Hn1 in Hrows, Ht1.
    destruct (IH _ _ _ _ _ H Hrows Hk1 Ht1) as (Hn & Hk' & Ht').
    rewrite Hn1 in Hn, Ht'. auto.
Qed.

End MultiAgentSlots.

Module CollectiveSlots.
Import Collective CollectiveFacts.

Lemma keyed_intro s :
  pending_keyed (store s) →
  arrays_keyed (agents_num (store s)) (ready s) →
  arrays_keyed (agents_num (store s)) (filling s) →
  accumulators_keyed (agents_num (store s)) (exps_to_save s)
    (ids_to_save s) →
  collective_keyed s.
Proof. unfold collective_keyed. auto. Qed.

Lemma arrays_keyed_insert n m e arr :
  arrays_keyed n m →
  (∀ a x, arr !! a = Some x → x = (-1)%Z ∨ x = Z.of_nat (resolve n e a)) →
  arrays_keyed n (<[e := arr]> m).
Proof.
  intros Hm Harr e' arr' a x.
  destruct (decide (e = e')) as [->|Hne].
  - rewrite lookup_insert_eq. intros [= <-]. apply Harr.
  - rewrite lookup_insert_ne by exact Hne. apply Hm.
Qed.

Lemma empty_array_keyed n k e a x :
  empty_array k !! a = Some x → x = (-1)%Z ∨ x = Z.of_nat (resolve n e a).
Proof.
  unfold empty_array. intros H. apply lookup_replicate in H as [-> _].
  left. reflexivity.
Qed.

Lemma pending_keyed_delete s k :
  pending_keyed s → pending_keyed (set_temp_data (delete k) s).
Proof.
  intros H k' p. cbn [set_temp_data temp_data agents_num].
  destruct (decide (k = k')) as [->|Hne].
  - rewrite lookup_delete_eq. discriminate.
  - rewrite lookup_delete_ne by exact Hne. apply H.
Qed.

Lemma pending_keyed_insert s row :
  pending_keyed s → agent_id (obs row) < agents_num s →
  pending_keyed (set_temp_data (<[slot_of (agents_num s) row := row]>) s).
Proof.
  intros H Ha k' p. cbn [set_temp_data temp_data agents_num].
  destruct (decide (slot_of (agents_num s) row = k')) as [<-|Hne].
  - rewrite lookup_insert_eq. intros [= <-]. auto.
  - rewrite lookup_insert_ne by exact Hne. apply H.
Qed.

Lemma mark_filling_keyed env agent s s' :
  mark_filling env agent (resolve (agents_num (store s)) env agent) s = Ok s' →
  collective_keyed s → collective_keyed s'.
Proof.
  intros H (Hp & Hr & Hf & Ha).
  apply mark_filling_spec in H as (arr & l & Harr & _ & _ & ->).
  apply keyed_intro; [exact Hp|exact Hr| |exact Ha].
  cbn [set_filling filling store].
  apply arrays_keyed_insert; [exact Hf|].
  intros a x. destruct (decide (agent = a)) as [->|Hne].
  - intros Hx. apply list_lookup_insert_Some in Hx
      as [(_ & <- & _)|(Hne & _)]; [|congruence].
    destruct (bool_decide _); auto.
  - rewrite list_lookup_insert_ne by exact Hne. eapply Hf. exact Harr.
Qed.

Lemma snapshot_keyed env row s s' :
  snapshot env row s = Ok s' → collective_keyed s → collective_keyed s'.
Proof.
  intros H (Hp & Hr & Hf & Ha).
  apply snapshot_spec in H
    as [(-> & _)|(_ & arr & Harr & _ & ->)];
    [apply keyed_intro; assumption|].
  apply keyed_intro; [exact Hp| | |exact Ha];
    cbn [set_filling set_ready ready filling store].
  - apply arrays_keyed_insert; [exact Hr|]. intros a x. eapply Hf. exact Harr.
  - apply arrays_keyed_insert; [exact Hf|]. intros a x.
    apply empty_array_keyed.
Qed.

Lemma accumulate_keyed env x s s' :
  accumulate env x (slot_of (agents_num (store s)) x) s = Ok s' →
  env_id (info x) = env →
  collective_keyed s → collective_keyed s'.
Proof.
  intros H Henv (Hp & Hr & Hf & Ha).
  apply accumulate_spec in H as (exps & ids & He & Hi & _ & ->).
  apply keyed_intro; [exact Hp|exact Hr|exact Hf|].
  cbn [set_ids set_exps exps_to_save ids_to_save store].
  intros e xs bs. destruct (decide (env = e)) as [->|Hne].
  - rewrite !lookup_insert_eq. intros [= <-] [= <-].
    apply Forall2_app; [eapply Ha; eauto|].
    constructor; [auto|constructor].
  - rewrite !lookup_insert_ne by exact Hne. apply Ha.
Qed.

Lemma set_temp_data_keyed f s :
  pending_keyed (set_temp_data f (store s)) → collective_keyed s →
  collective_keyed (set_store (set_temp_data f) s).
Proof.
  intros Hp' (Hp & Hr & Hf & Ha). apply keyed_intro; assumption.
Qed.

Lemma resolve_pending_keyed row s s' :
  let n := agents_num (store s) in
  let env := env_id (info row) in
  resolve_pending env (resolve n env (agent_id (obs_next row))) row s = Ok s' →
  agent_id (obs_next row) < n →
  collective_keyed s → collective_keyed s'.
Proof.
  intros n env H Hnx Hk.
  apply resolve_pending_spec in H
    as [(_ & ->)|(p & s1 & Hp & Hacc & ->)]; [exact Hk|].
  pose proof Hk as (Hpk & _).
  destruct (Hpk _ _ Hp) as [Hpa Hkey]. fold n in Hpa, Hkey.
  assert (Hslot : resolve n env (agent_id (obs_next row))
                  = slot_of n (complete p row)).
  { unfold slot_of in *. cbn [complete obs info]. fold env.
    apply resolve_inj in Hkey as [_ ->]; auto. }
  rewrite Hslot in Hacc.
  pose proof (accumulate_keyed _ _ _ _ Hacc eq_refl Hk) as Hk1.
  apply CollectiveShape.accumulate_keeps in Hacc as (Hn1 & _).
  apply set_temp_data_keyed; [|exact Hk1].
  apply pending_keyed_delete. apply Hk1.
Qed.

Lemma save_direct_keyed row s s' :
  let n := agents_num (store s) in
  let env := env_id (info row) in
  save_direct env (resolve n env (agent_id (obs row)))
    (resolve n env (agent_id (obs_next row))) row s = Ok s' →
  agent_id (obs row) < n →
  collective_keyed s → collective_keyed s'.
Proof.
  intros n env H Ha Hk.
  apply save_direct_spec in H as [(_ & ->)|(_ & s2 & Hacc & ->)];
    [exact Hk|].
  assert (Hk0 : collective_keyed
            (set_store (set_temp_data
                          (<[resolve n env (agent_id (obs row)) := row]>)) s)).
  { apply set_temp_data_keyed; [|exact Hk].
    apply (pending_keyed_insert (store s) row); [apply Hk|exact Ha]. }
  pose proof (accumulate_keyed env row _ _ Hacc eq_refl Hk0) as Hk2.
  apply set_temp_data_keyed; [|exact Hk2].
  apply pending_keyed_delete. apply Hk2.
Qed.

Lemma add_extra_info_keyed pos n env r exps ids :
  (∀ a x, r !! a = Some x → x = (-1)%Z ∨ x = Z.of_nat (resolve n env a)) →
  Forall2 (fun x b => b = slot_of n x ∧ env_id (info x) = env) exps ids →
  Forall2 (fun x b => b = slot_of n x) (_add_extra_info pos r exps) ids ∧
  Forall (indices_by_agent n pos) (_add_extra_info pos r exps).
Proof.
  intros Hr Hacc. unfold _add_extra_info. split.
  - apply Forall2_fmap_l. eapply Forall2_impl; [exact Hacc|].
    cbn. intros x b [Hb _]. exact Hb.
  - apply Forall_fmap, Forall_forall. intros x Hx.
    apply (Forall2_Forall_l _ (fun x => env_id (info x) = env)) in Hacc.
    + rewrite Forall_forall in Hacc. specialize (Hacc x Hx).
      intros a i. cbn [set_indices info indices env_id]. rewrite Hacc.
      rewrite list_lookup_fmap.
      destruct (r !! a) as [y|] eqn:Hy; [|discriminate].
      cbn. intros [= <-].
      destruct (Hr _ _ Hy) as [->| ->].
      * left. reflexivity.
      * destruct (decide _); [|auto]. right. rewrite Nat2Z.id. reflexivity.
    + apply Forall_forall. intros b _ y [_ Hy]. exact Hy.
Qed.

Lemma flush_round_keyed pos env s t s' t' :
  flush_round pos env (s, t) = Ok (s', t') →
  collective_keyed s →
  Forall2 (fun x b => b = slot_of (agents_num (store s)) x)
          (experience_to_save t) (buffer_ids_to_save t) →
  Forall (indices_by_agent (agents_num (store s)) pos)
         (experience_to_save t) →
  collective_keyed s' ∧
  Forall2 (fun x b => b = slot_of (agents_num (store s)) x)
          (experience_to_save t') (buffer_ids_to_save t') ∧
  Forall (indices_by_agent (agents_num (store s)) pos)
         (experience_to_save t').
Proof.
  intros H Hk Ht Hix. pose proof Hk as (Hp & Hr & Hf & Ha).
  apply flush_round_spec in H
    as [(-> & ->)|(r & ids & exps & Hrr & Hi & He & _ & _ & -> & ->)];
    [auto|].
  destruct (add_extra_info_keyed pos (agents_num (store s)) env r exps ids)
    as [H2 HF]; [intros a x; eapply Hr; exact Hrr|eapply Ha; eauto|].
  split; [|split].
  - apply keyed_intro; [exact Hp| |exact Hf|];
      cbn [set_ready set_ids set_exps ready exps_to_save ids_to_save store].
    + apply arrays_keyed_insert; [exact Hr|]. intros a x.
      apply empty_array_keyed.
    + intros e xs bs. destruct (decide (env = e)) as [->|Hne].
      * rewrite !lookup_insert_eq. intros [= <-] [= <-]. constructor.
      * rewrite !lookup_insert_ne by exact Hne. apply Ha.
  - cbn [experience_to_save buffer_ids_to_save].
    apply Forall2_app; assumption.
  - cbn [experience_to_save]. apply Forall_app. auto.
Qed.

Lemma store_keyed s b :
  agents_num b = agents_num (store s) → pending_keyed b →
  collective_keyed s → collective_keyed (set_store (fun _ => b) s).
Proof.
  intros Hn Hb (Hp & Hr & Hf & Ha). unfold collective_keyed.
  cbn [set_store store ready filling exps_to_save ids_to_save].
  rewrite Hn. auto.
Qed.

Lemma collective_lane_keyed pos env_idx row s t s' t' :
  process_lane pos env_idx row (s, t) = Ok (s', t') →
  row_in_range (agents_num (store s)) row → collective_keyed s →
  Forall2 (fun x b => b = slot_of (agents_num (store s)) x)
          (experience_to_save t) (buffer_ids_to_save t) →
  Forall (indices_by_agent (agents_num (store s)) pos)
         (experience_to_save t) →
  collective_keyed s' ∧
  Forall2 (fun x b => b = slot_of (agents_num (store s)) x)
          (experience_to_save t') (buffer_ids_to_save t') ∧
  Forall (indices_by_agent (agents_num (store s)) pos)
         (experience_to_save t').
Proof.
  intros H [Ha Hnx] Hk Ht Hix. apply process_lane_inv in H
    as (s1 & s2 & s3 & s4 & s5 & t5 & b6 & d6 & b7
        & H1 & H2 & H3 & H4 & H5 & H6 & H7 & -> & ->).
  cbn zeta in *.
  pose proof (CollectiveShape.mark_filling_keeps _ _ _ _ _ H1) as (Hn1 & _).
  pose proof (CollectiveShape.snapshot_keeps _ _ _ _ H2) as (Hn2 & _).
  pose proof (CollectiveShape.resolve_pending_keeps _ _ _ _ _ H3) as (Hn3 & _).
  pose proof (CollectiveShape.save_direct_keeps _ _ _ _ _ _ H4) as (Hn4 & _).
  pose proof (CollectiveShape.flush_round_keeps _ _ _ _ _ _ H5) as (Hn5 & _).
  apply mark_filling_keyed in H1; [|exact Hk].
  apply snapshot_keyed in H2; [|exact H1].
  assert (E2 : agents_num (store s2) = agents_num (store s)) by congruence.
  assert (E3 : agents_num (store s3) = agents_num (store s)) by congruence.
  assert (E4 : agents_num (store s4) = agents_num (store s)) by congruence.
  assert (E5 : agents_num (store s5) = agents_num (store s)) by congruence.
  rewrite <- E2 in H3.
  apply resolve_pending_keyed in H3; [|rewrite E2; exact Hnx|exact H2].
  rewrite <- E3 in H4.
  apply save_direct_keyed in H4; [|rewrite E3; exact Ha|exact H3].
  rewrite <- E4 in Ht, Hix.
  destruct (flush_round_keyed _ _ _ _ _ _ H5 H4 Ht Hix) as (Hk5 & Ht5 & Hix5).
  rewrite E4 in Ht5, Hix5.
  cbn [experience_to_save buffer_ids_to_save].
  split; [|split; assumption].
  apply mark_done_spec in H6 as (Hn6 & Htd6 & _).
  apply store_pending_spec in H7 as (w & _ & Hn7 & _ & Htd7).
  apply store_keyed; [congruence| |exact Hk5].
  intros k p. rewrite Htd7, Htd6, Hn7, Hn6, E5.
  destruct Hk5 as (Hp5 & _). rewrite <- E5.
  destruct w; [|apply Hp5].
  rewrite E5.
  destruct (decide (resolve (agents_num (store s)) (env_id (info row))
                      (agent_id (obs row)) = k)) as [<-|Hne].
  - rewrite lookup_insert_eq. intros [= <-]. split; [exact Ha|reflexivity].
  - rewrite lookup_insert_ne by exact Hne. rewrite <- E5. apply Hp5.
Qed.

Lemma collective_lanes_keyed pos rows : ∀ k s t s' t',
  process_lanes pos k rows (s, t) = Ok (s', t') →
  Forall (row_in_range (agents_num (store s))) rows → collective_keyed s →
  Forall2 (fun x b => b = slot_of (agents_num (store s)) x)
          (experience_to_save t) (buffer_ids_to_save t) →
  Forall (indices_by_agent (agents_num (store s)) pos)
         (experience_to_save t) →
  collective_keyed s' ∧
  Forall2 (fun x b => b = slot_of (agents_num (store s)) x)
          (experience_to_save t') (buffer_ids_to_save t') ∧
  Forall (indices_by_agent (agents_num (store s)) pos)
         (experience_to_save t').
Proof.
  induction rows as [|row rows IH]; intros k s t s' t' H Hrows Hk Ht Hix;
    cbn in H.
  - inversion H; subst. auto.
  - apply Forall_cons in Hrows as [Hrow Hrows].
    apply bind_Ok in H as ([s1 t1] & H1 & H).
    pose proof (CollectiveShape.process_lane_keeps _ _ _ _ _ _ _ H1)
      as (Hn1 & _).
    destruct (collective_lane_keyed _ _ _ _ _ _ _ H1 Hrow Hk Ht Hix)
      as (Hk1 & Ht1 & Hix1).
    rewrite <- Hn1 in Hrows, Ht1, Hix1.
    destruct (IH _ _ _ _ _ H Hrows Hk1 Ht1 Hix1) as (Hk' & Ht' & Hix').
    rewrite Hn1 in Ht', Hix'. auto.
Qed.

Lemma reset_env_keyed s e : collective_keyed s → collective_keyed (reset_env s e).
Proof.
  intros (Hp & Hr & Hf & Ha). unfold collective_keyed, reset_env.
  cbn [set_filling set_ready set_store set_done_agents store agents_num
       ready filling exps_to_save ids_to_save].
  split; [exact Hp|].
  split; [apply arrays_keyed_insert; [exact Hr|];
          intros a x; apply empty_array_keyed|].
  split; [apply arrays_keyed_insert; [exact Hf|];
          intros a x; apply empty_array_keyed|].
  exact Ha.
Qed.

Lemma reset_done_envs_keyed gl : ∀ s,
  collective_keyed s → collective_keyed (reset_done_envs gl s).
Proof.
  unfold reset_done_envs.
  induction gl as [|g gl IH]; intros s Hk; cbn [foldl]; [exact Hk|].
  apply IH. apply reset_env_keyed. exact Hk.
Qed.

Lemma fresh_keyed agents env_num : collective_keyed (fresh agents env_num).
Proof.
  apply keyed_intro; unfold fresh;
    cbn [ready filling exps_to_save ids_to_save store agents_num].
  - intros k p H. cbn in H. rewrite lookup_empty in H. discriminate.
  - intros e arr a x H. apply CollectiveShape.fresh_lookup in H as ->.
    apply empty_array_keyed.
  - intros e arr a x H. apply CollectiveShape.fresh_lookup in H as ->.
    apply empty_array_keyed.
  - intros e xs bs H1 H2. apply CollectiveShape.fresh_lookup in H1 as ->.
    apply CollectiveShape.fresh_lookup in H2 as ->. constructor.
Qed.

End CollectiveSlots.

Lemma multi_agent_iterate_keyed env n_step n_episode tick
    (L L' : Loop multi_agent) lg brk n :
  agents_in_range env n →
  pending_keyed (self L) → agents_num (self L) = n →
  Forall (fun o => agent_id o < n) (data_obs L) →
  iterate multi_agent env n_step n_episode tick L = Ok (L', lg, brk) →
  (pending_keyed (self L') ∧ agents_num (self L') = n ∧
   Forall (fun o => agent_id o < n) (data_obs L')) ∧
  Forall2 (fun x b => b = slot_of n x)
          (MultiAgent.experience_to_save (lg_tick lg))
          (MultiAgent.buffer_ids_to_save (lg_tick lg)).
Proof.
  intros Hrange Hk Hn Hdata H.
  pose proof (iterate_data_in_range _ _ _ _ _ _ _ _ _ n Hrange H) as Hdata'.
  apply iterate_inv in H
    as (s1 & t & Hlanes & _ & -> & _ & _ & _ & _ & _ & _ & _ & Hcase).
  cbn in Hlanes.
  apply MultiAgentSlots.process_lanes_keyed in Hlanes
    as (Hn1 & Hk1 & Ht1);
    [|rewrite Hn; apply rows_in_range; assumption|exact Hk|constructor].
  rewrite Hn in Ht1, Hn1. split; [|exact Ht1].
  destruct Hcase as [(_ & -> & _)|(_ & -> & _)]; [auto|].
  cbn [v_reset multi_agent].
  destruct (multi_agent_reset_spec
              (global_of <$> v_done_envs multi_agent t) s1)
    as (Hn2 & Ht2 & _).
  split; [|split; [congruence|exact Hdata']].
  intros k p. rewrite Ht2, Hn2. apply Hk1.
Qed.

Lemma collective_iterate_keyed pos env n_step n_episode tick
    (L L' : Loop (collective pos)) lg brk n :
  agents_in_range env n →
  collective_keyed (self L) → agents_num (Collective.store (self L)) = n →
  Forall (fun o => agent_id o < n) (data_obs L) →
  iterate (collective pos) env n_step n_episode tick L = Ok (L', lg, brk) →
  (collective_keyed (self L') ∧ agents_num (Collective.store (self L')) = n ∧
   Forall (fun o => agent_id o < n) (data_obs L')) ∧
  Forall2 (fun x b => b = slot_of n x)
          (Collective.experience_to_save (lg_tick lg))
          (Collective.buffer_ids_to_save (lg_tick lg)) ∧
  Forall (indices_by_agent n (pos tick))
         (Collective.experience_to_save (lg_tick lg)).
Proof.
  intros Hrange Hk Hn Hdata H.
  pose proof (iterate_data_in_range _ _ _ _ _ _ _ _ _ n Hrange H) as Hdata'.
  pose proof (collective_iterate_shaped _ _ _ _ _ _ _ _ _ H)
    as ((Hn' & _) & _).
  apply iterate_inv in H
    as (s1 & t & Hlanes & _ & -> & _ & _ & _ & _ & _ & _ & _ & Hcase).
  cbn in Hlanes.
  apply CollectiveSlots.collective_lanes_keyed in Hlanes
    as (Hk1 & Ht1 & Hix1);
    [|rewrite Hn; apply rows_in_range; assumption|exact Hk
     |constructor|constructor].
  rewrite Hn in Ht1, Hix1. split; [|split; assumption].
  split; [|split; [congruence|exact Hdata']].
  destruct Hcase as [(_ & -> & _)|(_ & -> & _)]; [exact Hk1|].
  apply CollectiveSlots.reset_done_envs_keyed. exact Hk1.
Qed.

Lemma check_targets_data is_async env_num n_step n_episode data ready data'
    w (P : Obs → Prop) :
  check_targets is_async env_num n_step n_episode data = Ok (ready, data', w) →
  Forall P data → Forall P data'.
Proof.
  intros Hc HP. unfold check_targets in Hc.
  destruct is_async; [discriminate|].
  cbn [negb py_assert mbind result_bind] in Hc.
  destruct n_step as [k|].
  - apply bind_Ok in Hc as ([] & _ & Hc).
    apply bind_Ok in Hc as ([] & _ & Hc).
    destruct (env_num =? 0); [discriminate|]. inversion Hc; subst.
    exact HP.
  - destruct n_episode as [k|]; [|discriminate].
    apply bind_Ok in Hc as ([] & _ & Hc). inversion Hc; subst.
    apply Forall_take. exact HP.
Qed.

(** X10.  When every agent id is below [agents_num] and every pending
    record waits under its own slot (and the arrays and accumulators of the
    collective collector hold own slots only, as after [reset]), each
    record that either collector passes to [buffer.add] is paired with the
    slot [env_id * agents_num + agent_id] of the environment named in the
    record's info and of the agent whose observation and action the record
    holds: a record completed after waiting in [temp_data] is filed under
    the agent that acted, not under the agent whose turn completed it. *)
Theorem records_filed_under_own_slot :
  (∀ env is_async env_num n_step n_episode fuel (s : Store) data,
     agents_in_range env (agents_num s) →
     Forall (fun o => agent_id o < agents_num s) data →
     pending_keyed s →
     Forall (fun lg : IterLog multi_agent =>
               Forall2 (fun x b => b = slot_of (agents_num s) x)
                       (MultiAgent.experience_to_save (lg_tick lg))
                       (MultiAgent.buffer_ids_to_save (lg_tick lg)))
            (log (collect multi_agent env is_async env_num n_step n_episode
                    fuel s data))) ∧
  (∀ pos env is_async env_num n_step n_episode fuel (s : Collective.Self)
     data,
     agents_in_range env (agents_num (Collective.store s)) →
     Forall (fun o => agent_id o < agents_num (Collective.store s)) data →
     collective_keyed s →
     Forall (fun lg : IterLog (collective pos) =>
               Forall2 (fun x b =>
                          b = slot_of (agents_num (Collective.store s)) x)
                       (Collective.experience_to_save (lg_tick lg))
                       (Collective.buffer_ids_to_save (lg_tick lg)))
            (log (collect (collective pos) env is_async env_num n_step
                    n_episode fuel s data))).
Proof.
  split.
  - intros env is_async env_num n_step n_episode fuel s data Hrange Hdata Hk.
    apply (collect_log_Forall multi_agent env is_async env_num n_step
             n_episode
             (fun L => pending_keyed (self L) ∧
                       agents_num (self L) = agents_num s ∧
                       Forall (fun o => agent_id o < agents_num s)
                              (data_obs L))).
    + intros tick L L' lg brk (HkL & HnL & HdL) _ Hit.
      eapply multi_agent_iterate_keyed; eauto.
    + intros ready data' w Hc. cbn [self data_obs].
      split; [exact Hk|]. split; [reflexivity|].
      eapply check_targets_data; eauto.
  - intros pos env is_async env_num n_step n_episode fuel s data Hrange Hdata
      Hk.
    apply (collect_log_Forall (collective pos) env is_async env_num n_step
             n_episode
             (fun L => collective_keyed (self L) ∧
                       agents_num (Collective.store (self L))
                       = agents_num (Collective.store s) ∧
                       Forall (fun o => agent_id o
                                        < agents_num (Collective.store s))
                              (data_obs L))).
    + intros tick L L' lg brk (HkL & HnL & HdL) _ Hit.
      destruct (collective_iterate_keyed _ _ _ _ _ _ _ _ _ _ Hrange HkL HnL
                  HdL Hit) as (HI & Ht & _).
      split; assumption.
    + intros ready data' w Hc. cbn [self data_obs].
      split; [exact Hk|]. split; [reflexivity|].
      eapply check_targets_data; eauto.
Qed.

Lemma records_filed_under_own_slot_witness :
  handed_over_ids (aaaab_run 5) = [[0]; [0]; [0]; []; [0]] ∧
  Forall (fun lg : IterLog multi_agent =>
            Forall2 (fun x b => b = slot_of 2 x)
                    (MultiAgent.experience_to_save (lg_tick lg))
                    (MultiAgent.buffer_ids_to_save (lg_tick lg)))
         (log (aaaab_run 5)).
Proof.
  split; [vm_compute; reflexivity|].
  apply (proj1 records_filed_under_own_slot (scripted_env aaaab 1) false 1
           (Some 100%Z) None 5 (fresh_store 2 1) [turn_obs aaaab 1 0]).
  - intros tick g. cbn. unfold aaaab. split; [|lia].
    do 11 (destruct tick as [|tick]; [cbn; lia|]). cbn. lia.
  - repeat constructor.
  - intros k p H. cbn in H. rewrite lookup_empty in H. discriminate.
Defined.

(** ** The columns of the [indices] vector *)

Lemma collect_loop_log_indexed (V : Variant) env n_step n_episode
    (Inv : Loop V → Prop) (P : nat → IterLog V → Prop) :
  (∀ tick L L' lg brk,
     Inv L → length (data_obs L) = length (ready_env_ids L) →
     iterate V env n_step n_episode tick L = Ok (L', lg, brk) →
     Inv L' ∧ P tick lg) →
  ∀ fuel tick L, Inv L →
    ∀ k lg, log (collect_loop V env n_step n_episode fuel tick L) !! k
            = Some lg → P (tick + k) lg.
Proof.
  intros Hstep fuel. induction fuel as [|fuel IH]; intros tick L HI k lg.
  - intros Hk. apply lookup_lt_Some in Hk. cbn in Hk. lia.
  - cbn [collect_loop].
    destruct (length (data_obs L) =? length (ready_env_ids L)) eqn:Hlen;
      cbn [negb];
      [|intros Hk; apply lookup_lt_Some in Hk; cbn in Hk; lia].
    apply Nat.eqb_eq in Hlen.
    destruct (iterate V env n_step n_episode tick L)
      as [[[L' lg'] brk]|e] eqn:Hit;
      [|intros Hk; apply lookup_lt_Some in Hk; cbn in Hk; lia].
    destruct (Hstep _ _ _ _ _ HI Hlen Hit) as [HI' HP].
    destruct brk; cbn [log].
    + destruct k as [|k].
      * intros [= <-]. rewrite Nat.add_0_r. exact HP.
      * intros Hk. apply lookup_lt_Some in Hk. cbn in Hk. lia.
    + destruct k as [|k].
      * intros [= <-]. rewrite Nat.add_0_r. exact HP.
      * intros Hk. replace (tick + S k) with (S tick + k) by lia.
        eapply IH; eauto.
Qed.

(** X11.  In the collective collector, column [a] of the [indices] vector
    that [_add_extra_info] attaches to a record handed over on tick [k] is
    [-1] or the buffer position, read on that tick, of the slot of agent
    [a] in the record's own environment: the columns are indexed by agent,
    whichever agent the record itself belongs to. *)
Theorem indices_columns_by_agent pos env is_async env_num n_step n_episode
    fuel (s : Collective.Self) data k (lg : IterLog (collective pos)) :
  agents_in_range env (agents_num (Collective.store s)) →
  Forall (fun o => agent_id o < agents_num (Collective.store s)) data →
  collective_keyed s →
  log (collect (collective pos) env is_async env_num n_step n_episode fuel s
         data) !! k = Some lg →
  Forall (indices_by_agent (agents_num (Collective.store s)) (pos k))
         (Collective.experience_to_save (lg_tick lg)).
Proof.
  intros Hrange Hdata Hk. unfold collect.
  destruct (check_targets is_async env_num n_step n_episode data)
    as [[[ready data'] w]|e] eqn:Hc; cbn [log];
    [|intros Hlg; apply lookup_lt_Some in Hlg; cbn in Hlg; lia].
  intros Hlg.
  apply (collect_loop_log_indexed (collective pos) env n_step n_episode
           (fun L => collective_keyed (self L) ∧
                     agents_num (Collective.store (self L))
                     = agents_num (Collective.store s) ∧
                     Forall (fun o => agent_id o
                                      < agents_num (Collective.store s))
                            (data_obs L))
           (fun tick lg =>
              Forall (indices_by_agent (agents_num (Collective.store s))
                        (pos tick))
                     (Collective.experience_to_save (lg_tick lg))))
    in Hlg; [exact Hlg| |].
  - intros tick L L' lg0 brk (HkL & HnL & HdL) _ Hit.
    destruct (collective_iterate_keyed _ _ _ _ _ _ _ _ _ _ Hrange HkL HnL
                HdL Hit) as (HI & _ & Hix).
    split; assumption.
  - cbn [self data_obs]. split; [exact Hk|]. split; [reflexivity|].
    eapply check_targets_data; eauto.
Qed.

Lemma indices_columns_by_agent_witness :
  ∃ lg, log two_rounds_run !! 0 = Some lg ∧
        Forall (indices_by_agent 2 (scenario_pos 0))
               (Collective.experience_to_save (lg_tick lg)).
Proof.
  assert (Hlen : length (log two_rounds_run) = 1)
    by (vm_compute; reflexivity).
  destruct (lookup_lt_is_Some_2 (log two_rounds_run) 0) as [lg E];
    [rewrite Hlen; lia|].
  exists lg. split; [exact E|].
  apply (indices_columns_by_agent scenario_pos
           (table_env [[step 0 0 false 1 (true, false);
                        step 1 0 false 1 (true, false)]] idle_step)
           false 2 (Some 100%Z) None 1 (Collective.fresh 2 2)
           [mkObs 0 0; mkObs 0 0] 0 lg).
  - intros tick g.
    destruct tick as [|[|tick]]; destruct g as [|[|[|g]]]; cbn; lia.
  - repeat constructor.
  - apply CollectiveSlots.fresh_keyed.
  - exact E.
Defined.

(** ** The batch stays aligned with the ready environments *)

Lemma completion_recorded_entry n env_idx row tr tr' d d' :
  completion_recorded n env_idx row tr tr' d d' →
  ∃ l, d' = d ++ l ∧
       Forall (fun x => local_of x = env_idx ∧
                        global_of x = env_id (info row)) l.
Proof.
  unfold completion_recorded. destruct (done row).
  - intros (l & k & _ & _ & ->). eexists. split; [reflexivity|].
    destruct (_ || _); repeat constructor.
  - intros (_ & ->). exists []. rewrite app_nil_r. split; constructor.
Qed.

Lemma done_entries_step k (row : Transition) rows
    (l new : list (nat * nat * Z)) :
  Forall (fun x => local_of x = k ∧ global_of x = env_id (info row)) l →
  Forall (fun x => ∃ r, S k ≤ local_of x ∧
                        rows !! (local_of x - S k) = Some r ∧
                        global_of x = env_id (info r)) new →
  Forall (fun x => ∃ r, k ≤ local_of x ∧
                        (row :: rows) !! (local_of x - k) = Some r ∧
                        global_of x = env_id (info r)) (l ++ new).
Proof.
  intros Hl Hnew. apply Forall_app. split.
  - eapply Forall_impl; [exact Hl|]. cbn. intros x [Hx Hg].
    exists row. rewrite Hx, Nat.sub_diag. auto.
  - eapply Forall_impl; [exact Hnew|]. cbn. intros x (r & Hk & Hr & Hg).
    exists r. split; [lia|]. split; [|exact Hg].
    replace (local_of x - k) with (S (local_of x - S k)) by lia. exact Hr.
Qed.

Lemma multi_agent_done_envs_rows rows : ∀ k s t s' t',
  MultiAgent.process_lanes k rows (s, t) = Ok (s', t') →
  ∃ new,
    MultiAgent.done_envs t' = MultiAgent.done_envs t ++ new ∧
    Forall (fun x => ∃ r, k ≤ local_of x ∧
                          rows !! (local_of x - k) = Some r ∧
                          global_of x = env_id (info r)) new.
Proof.
  induction rows as [|row rows IH]; intros k s t s' t' H; cbn in H.
  - inversion H; subst. exists []. rewrite app_nil_r. split; constructor.
  - apply bind_Ok in H as ([s1 t1] & H1 & H).
    apply IH in H as (new & Hd & Hnew).
    apply MultiAgentFacts.process_lane_spec in H1 as (_ & _ & _ & Hm & _).
    assert (Hrec : completion_recorded (agents_num s) k row
                     (done_agents_per_env s) (done_agents_per_env s1)
                     (MultiAgent.done_envs t) (MultiAgent.done_envs t1)).
    { unfold completion_recorded.
      destruct Hm as [(-> & Htr & Hd1)|(-> & l & Hl & Htr & Hd1)]; [auto|].
      exists l. eexists. eauto. }
    apply completion_recorded_entry in Hrec as (l & Hl & HF).
    exists (l ++ new). rewrite Hd, Hl, app_assoc. split; [reflexivity|].
    apply done_entries_step; assumption.
Qed.

Lemma collective_done_envs_rows pos rows : ∀ k s t s' t',
  Collective.process_lanes pos k rows (s, t) = Ok (s', t') →
  ∃ new,
    Collective.done_envs t' = Collective.done_envs t ++ new ∧
    Forall (fun x => ∃ r, k ≤ local_of x ∧
                          rows !! (local_of x - k) = Some r ∧
                          global_of x = env_id (info r)) new.
Proof.
  induction rows as [|row rows IH]; intros k s t s' t' H; cbn in H.
  - inversion H; subst. exists []. rewrite app_nil_r. split; constructor.
  - apply bind_Ok in H as ([s1 t1] & H1 & H).
    apply IH in H as (new & Hd & Hnew).
    apply CollectiveDone.process_lane_done in H1 as [_ Hrec].
    apply completion_recorded_entry in Hrec as (l & Hl & HF).
    exists (l ++ new). rewrite Hd, Hl, app_assoc. split; [reflexivity|].
    apply done_entries_step; assumption.
Qed.

Lemma mask_out_fmap {A B} (f : A → B) (idxs : list nat) (l : list A) :
  mask_out idxs (f <$> l) = f <$> mask_out idxs l.
Proof.
  unfold mask_out.
  assert (H : ∀ (h : nat → nat) (k : list A),
             (fun p : nat * B => p.2)
               <$> filter (fun p : nat * B => p.1 ∉ idxs)
                          (imap (fun i x => (h i, x)) (f <$> k))
             = f <$> ((fun p : nat * A => p.2)
                        <$> filter (fun p : nat * A => p.1 ∉ idxs)
                                   (imap (fun i x => (h i, x)) k))).
  { intros h k. revert h. induction k as [|x k IH]; intros h; [reflexivity|].
    cbn [fmap list_fmap]. rewrite !imap_cons, !filter_cons. cbn [fst].
    specialize (IH (h ∘ S)).
    destruct (decide (h 0 ∉ idxs)); cbn [fmap list_fmap snd];
      [f_equal|]; exact IH. }
  exact (H id l).
Qed.

Section AlignedLanes.

Variable V : Variant.
Variable env : nat → nat → StepOut.

Hypothesis lanes_ascending :
  ∀ tick rows s steps s' t,
    v_lanes V tick rows s steps = Ok (s', t) →
    StronglySorted lt (local_of <$> v_done_envs V t) ∧
    Forall (fun i => i < length rows) (local_of <$> v_done_envs V t).
Hypothesis local_as_built :
  ∀ l, StronglySorted lt l → v_local V l = l.
Hypothesis lanes_entries :
  ∀ tick rows s steps s' t,
    v_lanes V tick rows s steps = Ok (s', t) →
    Forall (fun x => ∃ r, rows !! local_of x = Some r ∧
                          global_of x = env_id (info r))
           (v_done_envs V t).

Lemma obs_next_rows tick ready : ∀ data,
  length data = length ready →
  obs_next <$> zip_with make_row data (env tick <$> ready)
  = (fun g => so_obs_next (env tick g)) <$> ready.
Proof.
  induction ready as [|g gs IH]; intros [|o os] Hlen; try discriminate;
    [reflexivity|].
  cbn [fmap list_fmap zip_with]. f_equal. apply IH.
  cbn in Hlen. lia.
Qed.

Lemma rows_env_id tick ready : ∀ data i r,
  env_reports_own_id env tick ready →
  zip_with make_row data (env tick <$> ready) !! i = Some r →
  ready !! i = Some (env_id (info r)).
Proof.
  intros data i r Hown Hr.
  apply lookup_zip_with_Some in Hr as (o & so & -> & _ & Hso).
  rewrite list_lookup_fmap in Hso.
  destruct (ready !! i) as [g|] eqn:Hg; [|discriminate].
  inversion Hso; subst so. cbn. rewrite Hown; [reflexivity|].
  eapply list_elem_of_lookup_2. exact Hg.
Qed.

Lemma reset_lookup tick (ready : list nat) (d : list (nat * nat * Z)) :
  ∀ (l : list Obs) (D : list nat),
  Forall (fun x => ready !! local_of x = Some (global_of x)) d →
  (∀ i g, ready !! i = Some g →
     l !! i = Some (if bool_decide (i ∈ D) then so_reset_obs (env tick g)
                    else so_obs_next (env tick g))) →
  ∀ i g, ready !! i = Some g →
    _reset_env_with_ids env tick (local_of <$> d) (global_of <$> d) l !! i
    = Some (if bool_decide (i ∈ D ++ (local_of <$> d))
            then so_reset_obs (env tick g)
            else so_obs_next (env tick g)).
Proof.
  unfold _reset_env_with_ids.
  induction d as [|x d IH]; intros l D Hd Hl i g Hg.
  - cbn. rewrite app_nil_r. apply Hl. exact Hg.
  - apply Forall_cons in Hd as [Hx Hd].
    cbn [fmap list_fmap zip zip_with foldl fst snd].
    replace (D ++ local_of x :: (local_of <$> d))
      with ((D ++ [local_of x]) ++ (local_of <$> d))
      by (rewrite <- app_assoc; reflexivity).
    apply IH; [exact Hd| |exact Hg].
    intros j h Hh. destruct (decide (local_of x = j)) as [<-|Hne].
    + rewrite Hx in Hh. inversion Hh; subst h.
      rewrite list_lookup_insert_eq.
      * rewrite bool_decide_eq_true_2; [reflexivity|].
        apply elem_of_app. right. apply list_elem_of_singleton. reflexivity.
      * apply lookup_lt_is_Some. rewrite (Hl _ _ Hx). eauto.
    + rewrite list_lookup_insert_ne by exact Hne. rewrite (Hl _ _ Hh).
      rewrite (bool_decide_ext (j ∈ D ++ [local_of x]) (j ∈ D));
        [reflexivity|].
      rewrite elem_of_app, list_elem_of_singleton. split; [|auto].
      intros [H|H]; [exact H|]. exfalso. apply Hne. symmetry. exact H.
Qed.

Lemma iterate_aligned n_step n_episode tick (L L' : Loop V) lg brk :
  env_reports_own_id env tick (ready_env_ids L) →
  NoDup (ready_env_ids L) →
  length (data_obs L) = length (ready_env_ids L) →
  iterate V env n_step n_episode tick L = Ok (L', lg, brk) →
  data_obs L'
  = carried_obs env tick (global_of <$> v_done_envs V (lg_tick lg))
      <$> ready_env_ids L'.
Proof.
  intros Hown Hnd Hlen H. apply iterate_inv in H
    as (s1 & t & Hlanes & _ & -> & _ & _ & _ & _ & _ & _ & _ & Hcase).
  cbn zeta in Hlanes.
  pose proof (obs_next_rows tick (ready_env_ids L) (data_obs L) Hlen) as Hnext.
  destruct Hcase as [(Hnil & _ & -> & -> & _)|(_ & _ & Hloc & _ & Hr)].
  - rewrite Hnext, Hnil. apply list_fmap_ext. intros i g _.
    unfold carried_obs. cbn. rewrite bool_decide_eq_false_2; [reflexivity|].
    apply not_elem_of_nil.
  - cbn zeta in Hr. destruct Hr as [-> ->].
    destruct (lanes_ascending _ _ _ _ _ _ Hlanes) as [Hasc _].
    pose proof (lanes_entries _ _ _ _ _ _ Hlanes) as Hent.
    rewrite local_as_built in Hloc by exact Hasc. rewrite Hloc.
    rewrite <- mask_out_fmap. f_equal.
    assert (Hd : Forall (fun x => ready_env_ids L !! local_of x
                                  = Some (global_of x)) (v_done_envs V t)).
    { eapply Forall_impl; [exact Hent|]. cbn. intros x (r & Hr & ->).
      eapply rows_env_id; eauto. }
    assert (Hlook : ∀ i g, ready_env_ids L !! i = Some g →
              _reset_env_with_ids env tick (local_of <$> v_done_envs V t)
                (global_of <$> v_done_envs V t)
                (obs_next <$> zip_with make_row (data_obs L)
                                (env tick <$> ready_env_ids L)) !! i
              = Some (if bool_decide (i ∈ [] ++ (local_of <$> v_done_envs V t))
                      then so_reset_obs (env tick g)
                      else so_obs_next (env tick g))).
    { apply reset_lookup; [exact Hd|]. intros i g Hg.
      rewrite Hnext, list_lookup_fmap, Hg. cbn.
      rewrite bool_decide_eq_false_2; [reflexivity|apply not_elem_of_nil]. }
    apply list_eq. intros i. rewrite list_lookup_fmap.
    destruct (ready_env_ids L !! i) as [g|] eqn:Hg.
    + rewrite (Hlook _ _ Hg). cbn [app fmap option_fmap option_map].
      unfold carried_obs. f_equal.
      rewrite (bool_decide_ext (i ∈ local_of <$> v_done_envs V t)
                 (g ∈ global_of <$> v_done_envs V t)); [reflexivity|].
      rewrite !list_elem_of_fmap. split.
      * intros (x & -> & Hx). exists x. split; [|exact Hx].
        rewrite Forall_forall in Hd. specialize (Hd x Hx). congruence.
      * intros (x & -> & Hx). exists x. split; [|exact Hx].
        rewrite Forall_forall in Hd. specialize (Hd x Hx).
        eapply NoDup_lookup; eauto.
    + cbn. apply lookup_ge_None.
      rewrite reset_env_with_ids_length, length_fmap, length_zip_with,
        length_fmap, Hlen, Nat.min_id.
      apply lookup_ge_None. exact Hg.
Qed.

End AlignedLanes.

Lemma multi_agent_lanes_entries tick rows s steps s' t :
  v_lanes multi_agent tick rows s steps = Ok (s', t) →
  Forall (fun x => ∃ r, rows !! local_of x = Some r ∧
                        global_of x = env_id (info r))
         (v_done_envs multi_agent t).
Proof.
  intros H. cbn in H.
  apply multi_agent_done_envs_rows in H as (new & Hd & HF).
  cbn in Hd. cbn [v_done_envs multi_agent]. rewrite Hd.
  eapply Forall_impl; [exact HF|]. cbn. intros x (r & _ & Hr & Hg).
  rewrite Nat.sub_0_r in Hr. eauto.
Qed.

Lemma collective_lanes_entries pos tick rows s steps s' t :
  v_lanes (collective pos) tick rows s steps = Ok (s', t) →
  Forall (fun x => ∃ r, rows !! local_of x = Some r ∧
                        global_of x = env_id (info r))
         (v_done_envs (collective pos) t).
Proof.
  intros H. cbn in H.
  apply collective_done_envs_rows in H as (new & Hd & HF).
  cbn in Hd. cbn [v_done_envs collective]. rewrite Hd.
  eapply Forall_impl; [exact HF|]. cbn. intros x (r & _ & Hr & Hg).
  rewrite Nat.sub_0_r in Hr. eauto.
Qed.

(** X12.  One iteration of the loop of either collector keeps the batch
    aligned with the ready environments: when every ready environment
    reports its own id and the ready ids are distinct, the observation that
    lane [i] carries into the next tick is the one produced by the
    environment that is then at position [i] of [ready_env_ids]: its reset
    observation if it finished on this tick, its [obs_next] otherwise.  The
    reset of the finished lanes and the masking of the surplus lanes never
    shift an observation to another environment. *)
Theorem batch_stays_aligned :
  (∀ env n_step n_episode tick (L L' : Loop multi_agent) lg brk,
     env_reports_own_id env tick (ready_env_ids L) →
     NoDup (ready_env_ids L) →
     length (data_obs L) = length (ready_env_ids L) →
     iterate multi_agent env n_step n_episode tick L = Ok (L', lg, brk) →
     data_obs L'
     = carried_obs env tick
         (global_of <$> MultiAgent.done_envs (lg_tick lg))
         <$> ready_env_ids L') ∧
  (∀ pos env n_step n_episode tick (L L' : Loop (collective pos)) lg brk,
     env_reports_own_id env tick (ready_env_ids L) →
     NoDup (ready_env_ids L) →
     length (data_obs L) = length (ready_env_ids L) →
     iterate (collective pos) env n_step n_episode tick L = Ok (L', lg, brk) →
     data_obs L'
     = carried_obs env tick
         (global_of <$> Collective.done_envs (lg_tick lg))
         <$> ready_env_ids L').
Proof.
  split.
  - intros env n_step n_episode tick L L' lg brk.
    apply (iterate_aligned multi_agent env).
    + apply multi_agent_lanes_ascending.
    + intros l _. reflexivity.
    + apply multi_agent_lanes_entries.
  - intros pos env n_step n_episode tick L L' lg brk.
    apply (iterate_aligned (collective pos) env).
    + apply collective_lanes_ascending.
    + apply collective_local_as_built.
    + apply collective_lanes_entries.
Qed.

Lemma batch_stays_aligned_witness :
  let L := @mkLoop multi_agent (fresh_store 1 3)
             [mkObs 0 0; mkObs 0 0; mkObs 0 0] [0; 1; 2] 0 0 None in
  ∃ L' lg brk,
    iterate multi_agent tie_env None (Some 4%Z) 0 L = Ok (L', lg, brk) ∧
    data_obs L'
    = carried_obs tie_env 0 (global_of <$> MultiAgent.done_envs (lg_tick lg))
        <$> ready_env_ids L'.
Proof.
  intros L.
  assert (Hok : is_ok (iterate multi_agent tie_env None (Some 4%Z) 0 L)
                = true) by (vm_compute; reflexivity).
  destruct (iterate multi_agent tie_env None (Some 4%Z) 0 L)
    as [[[L' lg] brk]|e] eqn:E; [|discriminate Hok].
  exists L', lg, brk. split; [reflexivity|].
  apply (proj1 batch_stays_aligned tie_env None (Some 4%Z) 0 L L' lg brk).
  - intros g Hg. cbn in Hg.
    repeat (apply elem_of_cons in Hg as [->|Hg]; [reflexivity|]).
    inversion Hg.
  - exact (NoDup_seq 0 3).
  - reflexivity.
  - exact E.
Defined.

(** ** Lanes of an environment without entries *)

Lemma resolve_same_env n e a a' : resolve n e a = resolve n e a' ↔ a = a'.
Proof. unfold resolve. split; [lia|intros ->; reflexivity]. Qed.

(** X13.  A lane whose [info.env_id] has no tracker entry (an environment
    id outside [range(env_num)]): [MultiAgentCollector] raises [KeyError]
    exactly when the lane is done or the next agent differs from the acting
    one, and otherwise saves the row as if nothing were wrong;
    [CollectiveExperienceCollector] raises [KeyError] in every case, on the
    [filling] dictionary; and an agent id beyond the [filling] array of its
    environment makes it raise [IndexError]. *)
Theorem lane_without_entries :
  (∀ env_idx row s t,
     done_agents_per_env s !! env_id (info row) = None →
     if done row || negb (agent_id (obs row) =? agent_id (obs_next row))
     then MultiAgent.process_lane env_idx row (s, t) = Raise KeyError
     else is_ok (MultiAgent.process_lane env_idx row (s, t)) = true) ∧
  (∀ pos env_idx row s t,
     Collective.filling s !! env_id (info row) = None →
     Collective.process_lane pos env_idx row (s, t) = Raise KeyError) ∧
  (∀ pos env_idx row s t arr,
     Collective.filling s !! env_id (info row) = Some arr →
     length arr ≤ agent_id (obs row) →
     Collective.process_lane pos env_idx row (s, t) = Raise IndexError).
Proof.
  split; [|split].
  - intros env_idx row s t Hkey.
    unfold MultiAgent.process_lane. cbn [fst snd].
    rewrite MultiAgentFacts.resolve_pending_eq,
      MultiAgentFacts.save_direct_eq.
    cbn [fst snd MultiAgent.done_envs MultiAgent.experience_to_save
           MultiAgent.buffer_ids_to_save].
    unfold mark_done. cbn [fst snd set_temp_data done_agents_per_env].
    destruct (done row); cbn [orb].
    + unfold getitem. rewrite Hkey. reflexivity.
    + cbn [mbind result_bind]. unfold store_pending, must_wait.
      cbn [set_temp_data done_agents_per_env agents_num].
      destruct (decide (resolve (agents_num s) (env_id (info row))
                          (agent_id (obs row))
                        = resolve (agents_num s) (env_id (info row))
                            (agent_id (obs_next row)))) as [Heq|Hne].
      * apply resolve_same_env in Heq.
        rewrite (proj2 (Nat.eqb_eq _ _) Heq). reflexivity.
      * rewrite (proj2 (Nat.eqb_neq _ _))
          by (intros H; apply Hne, resolve_same_env; exact H).
        unfold getitem. rewrite Hkey. reflexivity.
  - intros pos env_idx row s t Hkey.
    unfold Collective.process_lane, Collective.mark_filling, getitem.
    cbn [fst snd]. rewrite Hkey. reflexivity.
  - intros pos env_idx row s t arr Harr Hlen.
    unfold Collective.process_lane, Collective.mark_filling, getitem,
      Collective.array_get.
    cbn [fst snd]. rewrite Harr. cbn [mbind result_bind].
    rewrite (proj2 (lookup_ge_None arr _) Hlen). reflexivity.
Qed.

Lemma lane_without_entries_witness :
  MultiAgent.process_lane 0 lane_0_to_1 (fresh_store 2 0, MultiAgent.empty_tick)
    = Raise KeyError ∧
  is_ok (MultiAgent.process_lane 0 lane_0_round
           (fresh_store 2 0, MultiAgent.empty_tick)) = true ∧
  Collective.process_lane (scenario_pos 0) 0 lane_0_round
    (Collective.fresh 2 0, Collective.empty_tick 0) = Raise KeyError ∧
  Collective.process_lane (scenario_pos 0) 0
    (make_row (mkObs 2 0) (step 0 0 false 1 (false, false)))
    (Collective.fresh 2 1, Collective.empty_tick 0) = Raise IndexError.
Proof.
  split; [|split; [|split]].
  - apply (proj1 lane_without_entries 0 lane_0_to_1 (fresh_store 2 0)
             MultiAgent.empty_tick). reflexivity.
  - apply (proj1 lane_without_entries 0 lane_0_round (fresh_store 2 0)
             MultiAgent.empty_tick). reflexivity.
  - apply (proj1 (proj2 lane_without_entries)). reflexivity.
  - apply (proj2 (proj2 lane_without_entries) _ _ _ _ _
             (Collective.empty_array 2)); [reflexivity|cbn; lia].
Defined.

(** ** A step target never trims *)

(** X14.  With a step target no environment is ever dropped: on every
    tick of either collector [env.step] is called for all of
    [arange(env_num)], the batch has [env_num] rows, and the ready set is
    left as it is, however many environments finish. *)
Theorem step_mode_steps_every_env (V : Variant) env is_async env_num (n : Z)
    fuel (s : vSelf V) data :
  Forall (fun lg : IterLog V =>
            lg_ready_before lg = seq 0 env_num ∧
            lg_ready_after lg = seq 0 env_num ∧
            length (lg_rows lg) = env_num)
         (log (collect V env is_async env_num (Some n) None fuel s data)).
Proof.
  apply (collect_log_Forall V env is_async env_num (Some n) None
           (fun L => ready_env_ids L = seq 0 env_num)).
  - intros tick L L' lg brk HI Hlen Hit.
    pose proof (iterate_keeps_ready _ _ _ _ _ _ _ _ Hit) as Hkeep.
    apply iterate_inv in Hit
      as (s1 & t & _ & Hrows & _ & _ & _ & _ & _ & Hrb & Hra & _).
    split; [congruence|].
    split; [congruence|]. split; [congruence|].
    rewrite Hrows, length_zip_with, length_fmap, Hlen, Nat.min_id, HI.
    apply length_seq.
  - intros ready data' w Hc. cbn [ready_env_ids].
    unfold check_targets in Hc. destruct is_async; [discriminate|].
    cbn [negb py_assert mbind result_bind] in Hc.
    apply bind_Ok in Hc as ([] & _ & Hc). apply bind_Ok in Hc as ([] & _ & Hc).
    destruct (env_num =? 0); [discriminate|]. inversion Hc; subst.
    reflexivity.
Qed.

(** ** The state after [reset] *)

Lemma fresh_lookup_None {V} (v : V) env_num e :
  env_num ≤ e →
  (list_to_map ((fun i => (i, v)) <$> seq 0 env_num) : gmap nat V) !! e
    = None.
Proof.
  intros H. apply not_elem_of_list_to_map_1.
  rewrite <- list_fmap_compose. intros Hin.
  apply list_elem_of_fmap in Hin as (i & -> & Hi).
  apply elem_of_seq in Hi. cbn in H. lia.
Qed.

(** X15.  After [reset] the pending store is empty, the tracker and the
    four dictionaries of [temp_buffer_data] have an entry exactly for the
    environments of [range(env_num)] (an empty list each in the tracker),
    and the collective collector is in the shape and holds the slots that
    its [collect] keeps. *)
Theorem reset_start_state agents env_num :
  temp_data (fresh_store agents env_num) = ∅ ∧
  (∀ e, done_agents_per_env (fresh_store agents env_num) !! e
        = if decide (e < env_num) then Some [] else None) ∧
  Collective.store (Collective.fresh agents env_num)
    = fresh_store agents env_num ∧
  (∀ e, has_entries e (Collective.fresh agents env_num) ↔ e < env_num) ∧
  collective_shaped (Collective.fresh agents env_num) ∧
  collective_keyed (Collective.fresh agents env_num).
Proof.
  split; [reflexivity|]. split; [|split; [reflexivity|split; [|split]]].
  - intros e. unfold fresh_store. cbn [done_agents_per_env].
    destruct (decide (e < env_num)).
    + apply fresh_lookup_Some. assumption.
    + apply fresh_lookup_None. lia.
  - intros e. split; [|apply fresh_has_entries].
    intros ([l Hl] & _). unfold Collective.fresh in Hl.
    cbn [Collective.store done_agents_per_env] in Hl.
    destruct (decide (e < env_num)) as [Hlt|Hge]; [exact Hlt|].
    rewrite fresh_lookup_None in Hl by lia. discriminate.
  - apply CollectiveShape.fresh_shaped.
  - apply CollectiveSlots.fresh_keyed.
Qed.

(** ** From one [collect] call to the next *)

Lemma multi_agent_iterate_keys env n_step n_episode tick
    (L L' : Loop multi_agent) lg brk e :
  iterate multi_agent env n_step n_episode tick L = Ok (L', lg, brk) →
  is_Some (done_agents_per_env (self L) !! e) →
  is_Some (done_agents_per_env (self L') !! e).
Proof.
  intros H Hkey. apply iterate_inv in H
    as (s1 & t & Hlanes & _ & _ & _ & _ & _ & _ & _ & _ & _ & Hcase).
  cbn in Hlanes.
  eapply MultiAgentSafety.process_lanes_keep_keys in Hlanes; [|exact Hkey].
  destruct Hcase as [(_ & -> & _)|(_ & -> & _)]; [exact Hlanes|].
  cbn [v_reset multi_agent].
  destruct (multi_agent_reset_spec
              (global_of <$> v_done_envs multi_agent t) s1)
    as (_ & _ & Hlook).
  destruct (decide (e ∈ global_of <$> v_done_envs multi_agent t))
    as [Hin|Hout].
  - exists []. apply (proj1 (Hlook _) Hin).
  - destruct Hlanes as [l Hl]. exists l. rewrite <- Hl.
    apply (proj2 (Hlook _) Hout).
Qed.

(** X16.  The state in which a [collect] call that returns leaves either
    collector is again a state from which [collect] can start: the number
    of agents is unchanged, no tracker or dictionary entry is lost, every
    record still pending waits under its own slot, and the collective
    collector keeps the shape and the slots of its arrays and
    accumulators.  So what [reset] establishes holds before every call of
    a sequence of [collect] calls. *)
Theorem collect_keeps_invariants :
  (∀ env is_async env_num n_step n_episode fuel (s : Store) data Lf,
     agents_in_range env (agents_num s) →
     Forall (fun o => agent_id o < agents_num s) data →
     pending_keyed s →
     run_outcome (collect multi_agent env is_async env_num n_step n_episode
                    fuel s data) = Returned Lf →
     agents_num (self Lf) = agents_num s ∧
     pending_keyed (self Lf) ∧
     (∀ e, is_Some (done_agents_per_env s !! e) →
           is_Some (done_agents_per_env (self Lf) !! e))) ∧
  (∀ pos env is_async env_num n_step n_episode fuel (s : Collective.Self)
     data Lf,
     agents_in_range env (agents_num (Collective.store s)) →
     Forall (fun o => agent_id o < agents_num (Collective.store s)) data →
     collective_keyed s →
     run_outcome (collect (collective pos) env is_async env_num n_step
                    n_episode fuel s data) = Returned Lf →
     step_keeps s (self Lf) ∧ collective_keyed (self Lf)).
Proof.
  split.
  - intros env is_async env_num n_step n_episode fuel s data Lf Hrange Hdata
      Hk.
    set (Inv := fun L : Loop multi_agent =>
           (agents_num (self L) = agents_num s ∧ pending_keyed (self L) ∧
            (∀ e, is_Some (done_agents_per_env s !! e) →
                  is_Some (done_agents_per_env (self L) !! e))) ∧
           Forall (fun o => agent_id o < agents_num s) (data_obs L)).
    intros Hret.
    apply (collect_end multi_agent env is_async env_num n_step n_episode
             Inv Inv fuel s data Lf) in Hret; [apply Hret| |].
    + intros tick L L' lg brk ((HnL & HkL & HeL) & HdL) _ Hit.
      assert (HI : Inv L').
      { destruct (multi_agent_iterate_keyed _ _ _ _ _ _ _ _ _ Hrange HkL HnL
                    HdL Hit) as ((Hk' & Hn' & Hd') & _).
        split; [|exact Hd']. split; [exact Hn'|]. split; [exact Hk'|].
        intros e He. eapply multi_agent_iterate_keys; eauto. }
      split; intros _; exact HI.
    + intros ready data' w Hc. split; [cbn [self]; auto|].
      cbn [data_obs]. eapply check_targets_data; eauto.
  - intros pos env is_async env_num n_step n_episode fuel s data Lf Hrange
      Hdata Hk.
    set (Inv := fun L : Loop (collective pos) =>
           (step_keeps s (self L) ∧ collective_keyed (self L)) ∧
           Forall (fun o => agent_id o < agents_num (Collective.store s))
                  (data_obs L)).
    intros Hret.
    apply (collect_end (collective pos) env is_async env_num n_step n_episode
             Inv Inv fuel s data Lf) in Hret; [apply Hret| |].
    + intros tick L L' lg brk ((HsL & HkL) & HdL) _ Hit.
      assert (HI : Inv L').
      { pose proof HsL as (HnL & _).
        destruct (collective_iterate_keyed _ _ _ _ _ _ _ _ _ _ Hrange HkL HnL
                    HdL Hit) as ((Hk' & Hn' & Hd') & _).
        destruct (collective_iterate_shaped _ _ _ _ _ _ _ _ _ Hit)
          as (Hkeep & _).
        split; [|exact Hd']. split; [|exact Hk'].
        eapply CollectiveShape.step_keeps_trans; eauto. }
      split; intros _; exact HI.
    + intros ready data' w Hc. split.
      * cbn [self]. split; [apply CollectiveShape.step_keeps_refl|exact Hk].
      * cbn [data_obs]. eapply check_targets_data; eauto.
Qed.

Lemma collect_keeps_invariants_witness :
  ∃ L, run_outcome one_shot_step = Returned L ∧
       agents_num (self L) = 1 ∧ pending_keyed (self L) ∧
       (∀ e, is_Some (done_agents_per_env (fresh_store 1 1) !! e) →
             is_Some (done_agents_per_env (self L) !! e)).
Proof.
  assert (Hret : returned one_shot_step = true) by (vm_compute; reflexivity).
  unfold returned in Hret.
  destruct (run_outcome one_shot_step) as [L| |] eqn:E;
    try discriminate Hret.
  exists L. split; [reflexivity|].
  apply (proj1 collect_keeps_invariants one_shot_env false 1 (Some 1%Z) None 1
           (fresh_store 1 1) [mkObs 0 0] L).
  - intros tick g.
    destruct tick as [|[|tick]]; destruct g as [|[|g]]; cbn; lia.
  - repeat constructor.
  - intros k p H. cbn in H. rewrite lookup_empty in H. discriminate.
  - exact E.
Defined.

(** ** What the multi-agent loop can raise *)

Module MultiAgentRaises.
Import MultiAgent MultiAgentFacts MultiAgentTicks.

Lemma lanes_event_has_experience rows : ∀ k s t s' t',
  process_lanes k rows (s, t) = Ok (s', t') →
  (done_envs t ≠ [] → 1 ≤ length (experience_to_save t)) →
  done_envs t' ≠ [] → 1 ≤ length (experience_to_save t').
Proof.
  induction rows as [|row rows IH]; intros k s t s' t' H Ht; cbn in H.
  - inversion H; subst. exact Ht.
  - apply bind_Ok in H as ([s1 t1] & H1 & H).
    apply (IH _ _ _ _ _ H). intros Hne.
    destruct (decide (done_envs t1 = done_envs t)) as [Heq|Hneq].
    + rewrite Heq in Hne.
      apply process_lane_grows in H1 as (_ & e & i & _ & He & _).
      rewrite He, length_app. specialize (Ht Hne). lia.
    + eapply multi_agent_event_saved; eauto.
Qed.

(** The slot ids a lane appends are those of its own environment and of
    its acting and next agents. *)
Lemma lane_ids_below env_num env_idx row s t s' t' :
  process_lane env_idx row (s, t) = Ok (s', t') →
  row_in_range (agents_num s) row →
  env_id (info row) < env_num →
  Forall (fun b => b < env_num * agents_num s) (buffer_ids_to_save t) →
  Forall (fun b => b < env_num * agents_num s) (buffer_ids_to_save t').
Proof.
  intros H [Ha Hnx] He Ht.
  apply process_lane_spec in H as (_ & _ & Hi & _). rewrite Hi.
  apply Forall_app. split; [exact Ht|]. apply Forall_app. split.
  - destruct (temp_data s !! _); cbn [from_option]; [|constructor].
    constructor; [|constructor]. apply resolve_bound; assumption.
  - destruct (decide _); [|constructor].
    constructor; [|constructor]. apply resolve_bound; assumption.
Qed.

Lemma lanes_ids_below env_num rows : ∀ k s t s' t',
  process_lanes k rows (s, t) = Ok (s', t') →
  Forall (row_in_range (agents_num s)) rows →
  Forall (fun row => env_id (info row) < env_num) rows →
  Forall (fun b => b < env_num * agents_num s) (buffer_ids_to_save t) →
  Forall (fun b => b < env_num * agents_num s) (buffer_ids_to_save t').
Proof.
  induction rows as [|row rows IH]; intros k s t s' t' H Hr He Ht; cbn in H.
  - inversion H; subst. exact Ht.
  - apply Forall_cons in Hr as [Hrow Hr]. apply Forall_cons in He as [Henv He].
    apply bind_Ok in H as ([s1 t1] & H1 & H).
    pose proof (lane_ids_below env_num _ _ _ _ _ _ H1 Hrow Henv Ht) as Ht1.
    apply process_lane_grows in H1 as (Hn1 & _).
    rewrite <- Hn1 in Hr, Ht1 |- *.
    eapply IH; eauto.
Qed.

Section Loop.

Variable env : nat → nat → StepOut.

Lemma rows_tracked tick (L : Loop multi_agent) :
  env_tracked env (done_agents_per_env (self L)) →
  Forall (fun row =>
            is_Some (done_agents_per_env (self L) !! env_id (info row)))
         (zip_with make_row (data_obs L) (env tick <$> ready_env_ids L)).
Proof.
  intros Htr. generalize (data_obs L) as os.
  induction (ready_env_ids L) as [|g gs IH]; intros os.
  - destruct os; constructor.
  - destruct os as [|o os]; [constructor|].
    cbn [fmap list_fmap zip_with]. constructor; [|apply IH].
    cbn. apply Htr.
Qed.

Lemma rows_envs_below env_num tick ready : ∀ data,
  envs_in_range env env_num →
  Forall (fun row => env_id (info row) < env_num)
         (zip_with make_row data (env tick <$> ready)).
Proof.
  induction ready as [|g gs IH]; intros os Henv.
  - destruct os; constructor.
  - destruct os as [|o os]; [constructor|].
    cbn [fmap list_fmap zip_with]. constructor; [|apply IH; exact Henv].
    cbn. apply Henv.
Qed.

Lemma multi_agent_iterate_raises n n_step n_episode tick
    (L : Loop multi_agent) e :
  multi_agent_safe env n L →
  iterate multi_agent env n_step n_episode tick L = Raise e →
  e = TypeError.
Proof.
  intros (Hlen & Htr & _) H. unfold iterate in H. cbv zeta in H.
  destruct (MultiAgentSafety.process_lanes_ok_or_type_error _ 0 (self L)
              empty_tick (rows_tracked tick L Htr))
    as [(s1 & t & Hlanes)|Hlanes].
  - assert (Hlanes' : v_lanes multi_agent tick
              (zip_with make_row (data_obs L) (env tick <$> ready_env_ids L))
              (self L) (step_count L) = Ok (s1, t)) by exact Hlanes.
    rewrite Hlanes' in H. cbn [mbind result_bind] in H.
    cbn [v_done_envs v_buffer_ids multi_agent] in H.
    destruct (0 <? length (done_envs t)) eqn:Hd; [|discriminate].
    apply Nat.ltb_lt in Hd.
    pose proof (process_lanes_grows _ _ _ _ _ _ Hlanes)
      as (_ & ex & ix & Hl & Hex & Hix).
    pose proof (MultiAgentSafety.process_lanes_exp_index _ _ _ _ _ _ Hlanes
                  (Forall_nil_2 _)) as Hidx.
    assert (Hexp : 1 ≤ length (experience_to_save t)).
    { eapply lanes_event_has_experience; [exact Hlanes| |].
      - cbn. congruence.
      - intros Hnil. rewrite Hnil in Hd. cbn in Hd. lia. }
    cbn [empty_tick experience_to_save buffer_ids_to_save app] in Hex, Hix.
    assert (Hids : 1 ≤ length (buffer_ids_to_save t))
      by (rewrite Hix, <- Hl, <- Hex; exact Hexp).
    unfold read_episode_stats in H.
    destruct (0 <? length (buffer_ids_to_save t)) eqn:Hadd;
      [|apply Nat.ltb_ge in Hadd; lia].
    rewrite (proj2 (forallb_forall _ _)) in H; [discriminate|].
    intros i Hi. apply in_map_iff in Hi as (d & <- & Hd').
    rewrite Forall_forall in Hidx.
    apply MultiAgentSafety.index_ok_of_bounds; [exact Hids|].
    rewrite Hix, <- Hl, <- Hex. apply Hidx. apply list_elem_of_In. exact Hd'.
  - assert (Hlanes' : v_lanes multi_agent tick
              (zip_with make_row (data_obs L) (env tick <$> ready_env_ids L))
              (self L) (step_count L) = Raise TypeError) by exact Hlanes.
    rewrite Hlanes' in H. cbn [mbind result_bind] in H.
    inversion H. reflexivity.
Qed.

Lemma multi_agent_iterate_safe n env_num n_step n_episode tick
    (L L' : Loop multi_agent) lg brk :
  agents_in_range env n →
  envs_in_range env env_num →
  multi_agent_safe env n L →
  iterate multi_agent env n_step n_episode tick L = Ok (L', lg, brk) →
  multi_agent_safe env n L' ∧
  Forall (fun b => b < env_num * n) (buffer_ids_to_save (lg_tick lg)).
Proof.
  intros Hrange Henv (Hlen & Htr & Hn & Hdata) H.
  pose proof (iterate_lengths _ _ _ _ _ _ _ _ _ Hlen H) as Hlen'.
  pose proof (iterate_data_in_range _ _ _ _ _ _ _ _ _ n Hrange H) as Hdata'.
  apply iterate_inv in H
    as (s1 & t & Hlanes & _ & Htick & _ & _ & _ & _ & _ & _ & _ & Hcase).
  cbn in Hlanes.
  assert (Htr1 : env_tracked env (done_agents_per_env s1)).
  { intros tk g.
    eapply MultiAgentSafety.process_lanes_keep_keys; [exact Hlanes|apply Htr]. }
  pose proof (process_lanes_grows _ _ _ _ _ _ Hlanes) as (Hn1 & _).
  split.
  - split; [exact Hlen'|].
    destruct Hcase as [(_ & -> & _)|(_ & -> & _)].
    + split; [exact Htr1|]. split; [congruence|exact Hdata'].
    + cbn [v_reset multi_agent].
      destruct (multi_agent_reset_spec
                  (global_of <$> v_done_envs multi_agent t) s1)
        as (Hn2 & _ & Hlook).
      split; [|split; [congruence|exact Hdata']].
      intros tk g.
      destruct (decide (env_id (so_info (env tk g))
                        ∈ global_of <$> v_done_envs multi_agent t))
        as [Hin|Hout].
      * exists []. apply (proj1 (Hlook _) Hin).
      * destruct (Htr1 tk g) as [l Hl]. exists l. rewrite <- Hl.
        apply (proj2 (Hlook _) Hout).
  - rewrite Htick, <- Hn.
    eapply lanes_ids_below; [exact Hlanes| | |constructor].
    + rewrite Hn. apply rows_in_range; assumption.
    + apply rows_envs_below. exact Henv.
Qed.

End Loop.

End MultiAgentRaises.

(** X3.  Started with one row of data per environment, a tracker entry for
    every environment id the environment reports (as after [reset]), and
    with every environment id below [env_num] and every agent id below
    [agents_num], [MultiAgentCollector.collect] hands [buffer.add] only slot
    ids below [env_num * agents_num], and its own code raises nothing beyond
    what the check of its targets raises, except the [TypeError] of
    [len(experience_to_save)] on the empty batch (line 264, when a
    completion event is recorded on a tick that has saved nothing so far):
    no [KeyError], no [IndexError] and no [UnboundLocalError] on the episode
    statistics, and the assertion that the data has one entry per ready
    environment never fails. *)
Theorem multi_agent_collect_raises_only env is_async env_num n_step n_episode
    fuel (s : Store) data :
  length data = env_num →
  env_tracked env (done_agents_per_env s) →
  envs_in_range env env_num →
  agents_in_range env (agents_num s) →
  Forall (fun o => agent_id o < agents_num s) data →
  (∀ e, run_outcome (collect multi_agent env is_async env_num n_step
                       n_episode fuel s data) = Raised e →
        check_targets is_async env_num n_step n_episode data = Raise e
        ∨ e = TypeError) ∧
  Forall (fun lg : IterLog multi_agent =>
            Forall (fun b => b < env_num * agents_num s)
                   (MultiAgent.buffer_ids_to_save (lg_tick lg)))
         (log (collect multi_agent env is_async env_num n_step n_episode
                 fuel s data)).
Proof.
  intros Hlen Htr Henv Hrange Hdata.
  assert (Hinit : ∀ ready data' w,
            check_targets is_async env_num n_step n_episode data
              = Ok (ready, data', w) →
            multi_agent_safe env (agents_num s)
              (mkLoop (s : vSelf multi_agent) data' ready 0 0 None)).
  { intros ready data' w Hc.
    split; [cbn; eapply check_targets_lengths; eauto|].
    split; [exact Htr|]. split; [reflexivity|].
    cbn [data_obs]. eapply check_targets_data; eauto. }
  split.
  - intros e. unfold collect.
    destruct (check_targets is_async env_num n_step n_episode data)
      as [[[ready data'] w]|e'] eqn:Hc; cbn [run_outcome].
    + intros H. right.
      apply (collect_loop_raised multi_agent env n_step n_episode
               (multi_agent_safe env (agents_num s))
               (fun e => e = TypeError)) in H; [exact H| | | |].
      * intros L (Hl & _). exact Hl.
      * intros tick L L' lg brk HI Hit.
        eapply MultiAgentRaises.multi_agent_iterate_safe; eauto.
      * intros tick L e0 HI Hit.
        eapply MultiAgentRaises.multi_agent_iterate_raises; eauto.
      * eapply Hinit; reflexivity.
    + intros H. inversion H; subst. left. reflexivity.
  - apply (collect_log_Forall multi_agent env is_async env_num n_step
             n_episode (multi_agent_safe env (agents_num s))).
    + intros tick L L' lg brk HI _ Hit.
      eapply MultiAgentRaises.multi_agent_iterate_safe; eauto.
    + exact Hinit.
Qed.

Lemma multi_agent_collect_raises_only_witness :
  raised early_completion = Some TypeError ∧
  (check_targets false 1 (Some 100%Z) None [mkObs 0 0] = Raise TypeError
   ∨ TypeError = TypeError) ∧
  MultiAgent.buffer_ids_to_save <$> (lg_tick <$> log one_shot_step) = [[0]] ∧
  Forall (fun lg : IterLog multi_agent =>
            Forall (fun b => b < 1 * 1)
                   (MultiAgent.buffer_ids_to_save (lg_tick lg)))
         (log one_shot_step).
Proof.
  assert (Hr : raised early_completion = Some TypeError)
    by (vm_compute; reflexivity).
  split; [exact Hr|]. split; [|split; [vm_compute; reflexivity|]].
  - unfold raised in Hr.
    destruct (run_outcome early_completion) as [L|e|L] eqn:E;
      try discriminate Hr.
    injection Hr as ->.
    destruct (multi_agent_collect_raises_only
                (table_env [[step 0 1 true 1 (false, true)]] idle_step)
                false 1 (Some 100%Z) None 1 (fresh_store 2 1) [mkObs 0 0])
      as [Hraise _].
    + reflexivity.
    + intros tick g. exists [].
      destruct tick as [|[|tick]]; destruct g as [|[|g]]; reflexivity.
    + intros tick g.
      destruct tick as [|[|tick]]; destruct g as [|[|g]]; cbn; lia.
    + intros tick g.
      destruct tick as [|[|tick]]; destruct g as [|[|g]]; cbn; lia.
    + repeat constructor.
    + apply Hraise. exact E.
  - destruct (multi_agent_collect_raises_only one_shot_env
                false 1 (Some 1%Z) None 1 (fresh_store 1 1) [mkObs 0 0])
      as [_ Hids].
    + reflexivity.
    + intros tick g. exists [].
      destruct tick as [|[|tick]]; destruct g as [|[|g]]; reflexivity.
    + intros tick g.
      destruct tick as [|[|tick]]; destruct g as [|[|g]]; cbn; lia.
    + intros tick g.
      destruct tick as [|[|tick]]; destruct g as [|[|g]]; cbn; lia.
    + repeat constructor.
    + exact Hids.
Defined.

(** ** What the collective loop can raise *)

Module CollectiveRaises.
Import Collective CollectiveFacts CollectiveShape.






Section Loop.

Variable pos : nat → nat → Z.
Variable env : nat → nat → StepOut.
Variable n : nat.



Lemma reset_env_with_ids_Forall (P : Obs → Prop) tick loc glob : ∀ l,
  (∀ g, P (so_reset_obs (env tick g))) → Forall P l →
  Forall P (_reset_env_with_ids env tick loc glob l).
Proof.
  unfold _reset_env_with_ids. generalize (zip loc glob) as ps.
  induction ps as [|p ps IH]; intros l HP Hl; cbn [foldl]; [exact Hl|].
  apply IH; [exact HP|]. apply Forall_insert; [exact Hl|apply HP].
Qed.


End Loop.

End CollectiveRaises.


